(** * cousine-web: signalling hub, SDP bitrate rewrite and roster synchroniser

    A shallow embedding of [server.js] (the Socket.IO relay hub) and of the
    client functions [setAudioBitrate], [handleAddPeer], [handleRemovePeer],
    [handleRemoteTrack], [handleIceCandidate], [handleSessionDescription],
    [leaveRoom] and [checkVoiceActivity], with the properties of the design
    specification stated over it.

    Layout: the JavaScript object model ([JS]); the hub ([Hub]) with its
    invariant and runs ([HubSpec], [HubMore]); the string primitives
    ([Str]) and the SDP rewrite ([Codec], [CodecSpec], [CodecMore]); the
    client ([Client], [App]); hub and client together ([Room]).
    The lemmas follow in [JSFacts], [StrFacts], [CodecFacts], [HubFacts],
    [ClientFacts], [JSExtra], [HubExtra], [CodecExtra], [AppFacts] and
    [RoomFacts]. *)

From Stdlib Require Import String Ascii List Bool Arith NArith ZArith Lia.
From Stdlib Require Import DecimalString.
Import ListNotations.

Local Open Scope string_scope.
Local Open Scope list_scope.

(* ================================================================== *)
(** * Plain JavaScript objects *)
(* ================================================================== *)

Module JS.

(** An object literal [{}] with string keys: its own enumerable properties,
    kept in the order in which [for (k in o)] and [Object.keys(o)] visit
    them (array-index keys in ascending numeric order, then the other
    keys in insertion order). *)
Definition obj (V : Type) : Type := list (string * V).

Definition empty {V : Type} : obj V := [].

(** Property names every object literal inherits from [Object.prototype].
    None of them is enumerable, all of them answer [k in o]. *)
Definition object_prototype_names : list string :=
  [ "constructor"; "hasOwnProperty"; "isPrototypeOf";
    "propertyIsEnumerable"; "toLocaleString"; "toString"; "valueOf";
    "__defineGetter__"; "__defineSetter__"; "__lookupGetter__";
    "__lookupSetter__"; "__proto__" ].

Definition inherited (k : string) : bool :=
  existsb (String.eqb k) object_prototype_names.

(** Own property lookup. *)
Fixpoint own {V : Type} (k : string) (o : obj V) : option V :=
  match o with
  | [] => None
  | (k', v) :: rest => if String.eqb k k' then Some v else own k rest
  end.

Definition has_own {V : Type} (k : string) (o : obj V) : bool :=
  match own k o with Some _ => true | None => false end.

(** The result of the expression [o[k]]: an own value, a builtin found on
    the prototype chain, or [undefined]. *)
Inductive lookup (V : Type) : Type :=
| Own (v : V)
| Inherited
| Undefined.
Arguments Own {V} v.
Arguments Inherited {V}.
Arguments Undefined {V}.

Definition get {V : Type} (k : string) (o : obj V) : lookup V :=
  match own k o with
  | Some v => Own v
  | None => if inherited k then Inherited else Undefined
  end.

(** The operator [k in o], which walks the prototype chain. *)
Definition has_in {V : Type} (k : string) (o : obj V) : bool :=
  match get k o with
  | Undefined => false
  | _ => true
  end.

Definition keys {V : Type} (o : obj V) : list string := map fst o.

(** [delete o[k]]. *)
Definition delete {V : Type} (k : string) (o : obj V) : obj V :=
  filter (fun kv => negb (String.eqb k (fst kv))) o.

(** Array indices: canonical decimal numerals below 2^32 - 1. *)
Definition digit_value (c : ascii) : option N :=
  let n := N_of_ascii c in
  if (48 <=? n)%N && (n <=? 57)%N then Some (n - 48)%N else None.

Fixpoint decimal_value (s : string) (acc : N) : option N :=
  match s with
  | EmptyString => Some acc
  | String c s' =>
      match digit_value c with
      | Some d => decimal_value s' (acc * 10 + d)%N
      | None => None
      end
  end.

Definition array_index (k : string) : option N :=
  match k with
  | EmptyString => None
  | String c rest =>
      if Ascii.eqb c "0"
      then match rest with EmptyString => Some 0%N | _ => None end
      else match decimal_value k 0 with
           | Some n => if (n <? 4294967295)%N then Some n else None
           | None => None
           end
  end.

(** Overwrite the value of a property that is already there; its place in
    the enumeration order is kept. *)
Fixpoint overwrite {V : Type} (k : string) (v : V) (o : obj V) : obj V :=
  match o with
  | [] => []
  | (k', v') :: rest =>
      if String.eqb k k' then (k', v) :: rest
      else (k', v') :: overwrite k v rest
  end.

(** A new array-index key goes after the smaller indices and before
    everything else. *)
Fixpoint insert_index {V : Type} (n : N) (k : string) (v : V) (o : obj V)
  : obj V :=
  match o with
  | [] => [(k, v)]
  | (k', v') :: rest =>
      match array_index k' with
      | Some m =>
          if (m <? n)%N then (k', v') :: insert_index n k v rest
          else (k, v) :: o
      | None => (k, v) :: o
      end
  end.

(** The assignment [o[k] = v], for a key other than [__proto__] (every
    assignment of the embedded code is behind a [k in o] test or uses a
    connection identifier issued by Socket.IO). *)
Definition set {V : Type} (k : string) (v : V) (o : obj V) : obj V :=
  if has_own k o then overwrite k v o
  else match array_index k with
       | Some n => insert_index n k v o
       | None => o ++ [(k, v)]
       end.

(** [s.slice(0, 6)]. *)
Definition slice6 (s : string) : string := String.substring 0 6 s.

End JS.

(* ================================================================== *)
(** * The relay hub ([server.js]) *)
(* ================================================================== *)

Module Hub.

(** A socket object is identified with its [socket.id]; a reference to the
    socket is that identifier. *)
Definition sid : Type := string.

(** The value of [usernames[id] || id.slice(0, 6)]. *)
Inductive display_name : Type :=
| Name (s : string)
| BuiltinOf (k : string).

(** Opaque relayed payloads ([ice_candidate], [session_description]). *)
Definition payload : Type := string.

Inductive event : Type :=
| AddPeer (peer_id : sid) (username : display_name)
          (should_create_offer : bool)
| RemovePeer (peer_id : sid)
| UserList (users : list (sid * display_name))
| IceCandidate (peer_id : sid) (ice_candidate : payload)
| SessionDescription (peer_id : sid) (session_description : payload)
| ChatMessage (peer_id : sid) (username : display_name)
              (message : string) (timestamp : Z)
| PeerMuteStatus (peer_id : sid) (isMuted : bool)
| PeerSpeakingStatus (peer_id : sid) (isSpeaking : bool).

(** [target.emit(...)]: the socket the event is sent on, and the event. *)
Definition emission : Type := (sid * event)%type.

(** The three registries of the module, and the [channels] field of every
    socket object ([socket_channels], keyed by the socket). *)
Record state : Type := mkState {
  channels : JS.obj (JS.obj sid);
  sockets : JS.obj sid;
  usernames : JS.obj string;
  socket_fields : list (sid * JS.obj string)
}.

Definition initial : state := mkState [] [] [] [].

(** [socket.channels] of the socket [s]. *)
Definition socket_channels (st : state) (s : sid) : JS.obj string :=
  match JS.own s (socket_fields st) with
  | Some o => o
  | None => []
  end.

Fixpoint store_field (s : sid) (o : JS.obj string)
         (h : list (sid * JS.obj string)) : list (sid * JS.obj string) :=
  match h with
  | [] => [(s, o)]
  | (s', o') :: rest =>
      if String.eqb s s' then (s', o) :: rest
      else (s', o') :: store_field s o rest
  end.

Definition with_socket_channels (s : sid) (o : JS.obj string) (st : state)
  : state :=
  mkState (channels st) (sockets st) (usernames st)
          (store_field s o (socket_fields st)).

Definition with_channels (c : JS.obj (JS.obj sid)) (st : state) : state :=
  mkState c (sockets st) (usernames st) (socket_fields st).

Definition with_usernames (u : JS.obj string) (st : state) : state :=
  mkState (channels st) (sockets st) u (socket_fields st).

Definition with_sockets (k : JS.obj sid) (st : state) : state :=
  mkState (channels st) k (usernames st) (socket_fields st).

(** What a handler leaves behind: the state, the events emitted, and
    whether it ended by throwing a [TypeError]. *)
Record outcome : Type := mkOutcome {
  final : state;
  emitted : list emission;
  threw : bool
}.

Definition done (st : state) (out : list emission) : outcome :=
  mkOutcome st out false.

Definition thrown (st : state) (out : list emission) : outcome :=
  mkOutcome st out true.

Definition truthy (s : string) : bool :=
  match s with EmptyString => false | _ => true end.

(** [usernames[id] || id.slice(0, 6)] *)
Definition name_of (us : JS.obj string) (id : sid) : display_name :=
  match JS.get id us with
  | JS.Own u => if truthy u then Name u else Name (JS.slice6 id)
  | JS.Inherited => BuiltinOf id
  | JS.Undefined => Name (JS.slice6 id)
  end.

(** [io.on("connection", ...)]: lines 60-61. *)
Definition connection (s : sid) (st : state) : outcome :=
  done (with_sockets (JS.set s s (sockets st))
          (with_socket_channels s JS.empty st)) [].

(** [setUsername]: lines 76-79. *)
Definition setUsername (s : sid) (username : string) (st : state)
  : outcome :=
  let u := if truthy username then username
           else String.append "User-" (JS.slice6 s) in
  done (with_usernames (JS.set s u (usernames st)) st) [].

(** [chatMessage]: lines 82-99.  [Date.now()] is read once per recipient;
    [clock k] is its k-th reading.  A channel name found on the prototype
    chain passes the test [!channels[channel]] (the builtin is truthy) and
    the loop then finds nothing to enumerate. *)
Fixpoint chat_fanout (s : sid) (who : display_name) (message : string)
         (clock : nat -> Z) (k : nat) (roster : JS.obj sid)
  : list emission :=
  match roster with
  | [] => []
  | (_, target) :: rest =>
      (target, ChatMessage s who message (clock k))
        :: chat_fanout s who message clock (S k) rest
  end.

Definition chatMessage (s : sid) (channel message : string)
           (clock : nat -> Z) (st : state) : outcome :=
  if negb (truthy channel) then done st []
  else match JS.get channel (channels st) with
       | JS.Undefined => done st []
       | JS.Inherited => done st []
       | JS.Own roster =>
           done st (chat_fanout s (name_of (usernames st) s) message
                                clock 0 roster)
       end.

(** [join]: lines 102-155.  [jc_username] is [config.userdata.username]
    when [userdata] carries one. *)
Record join_config : Type := mkJoin {
  jc_channel : string;
  jc_username : option string
}.

(** [channels[channel]] once [channel] is known to be an own key (in
    [join] the two guards and the lazy creation make it one). *)
Definition roster_at (channel : string) (chs : JS.obj (JS.obj sid))
  : JS.obj sid :=
  match JS.own channel chs with
  | Some r => r
  | None => []
  end.

Definition introduce (s : sid) (us : JS.obj string) (roster : JS.obj sid)
  : list emission :=
  flat_map (fun entry : string * sid =>
              [ (snd entry, AddPeer s (name_of us s) false);
                (s, AddPeer (fst entry) (name_of us (fst entry)) true) ])
           roster.

Definition join (s : sid) (config : join_config) (st : state) : outcome :=
  let channel := jc_channel config in
  if negb (truthy channel) then done st []
  else if JS.has_in channel (socket_channels st s) then done st []
  else
    let chs := if JS.has_in channel (channels st) then channels st
               else JS.set channel JS.empty (channels st) in
    let us := match jc_username config with
              | Some u => if truthy u then JS.set s u (usernames st)
                          else usernames st
              | None => usernames st
              end in
    let roster := roster_at channel chs in
    let notices := introduce s us roster in
    let roster' := JS.set s s roster in
    let st' :=
      with_socket_channels s
        (JS.set channel channel (socket_channels st s))
        (with_usernames us
           (with_channels (JS.set channel roster' chs) st)) in
    let userList :=
      map (fun id => (id, name_of us id)) (JS.keys roster') in
    done st' (notices ++ [(s, UserList userList)]).

(** [part]: lines 158-179.  After the guard, [channels[channel]] is the
    roster, or a builtin found on the prototype chain (nothing to delete,
    nothing to enumerate, [Object.keys] empty and no own key to delete), or
    [undefined], on which [delete channels[channel][socket.id]] throws. *)
Definition farewell (s : sid) (roster : JS.obj sid) : list emission :=
  flat_map (fun entry : string * sid =>
              [ (snd entry, RemovePeer s);
                (s, RemovePeer (fst entry)) ])
           roster.

Definition part (s : sid) (channel : string) (st : state) : outcome :=
  if negb (JS.has_in channel (socket_channels st s)) then done st []
  else
    let st1 :=
      with_socket_channels s (JS.delete channel (socket_channels st s))
                           st in
    match JS.get channel (channels st1) with
    | JS.Undefined => thrown st1 []
    | JS.Inherited => done st1 []
    | JS.Own roster =>
        let roster' := JS.delete s roster in
        let chs := match JS.keys roster' with
                   | [] => JS.delete channel (channels st1)
                   | _ :: _ => JS.set channel roster' (channels st1)
                   end in
        done (with_channels chs st1) (farewell s roster')
    end.

(** [disconnect]: lines 66-73.  The loop runs over the keys
    [socket.channels] had on entry and skips one that has been deleted
    before its turn; a throwing [part] leaves the handler. *)
Fixpoint part_each (s : sid) (pending : list string) (st : state)
         (out : list emission) : outcome :=
  match pending with
  | [] => done st out
  | channel :: rest =>
      if JS.has_own channel (socket_channels st s) then
        let o := part s channel st in
        if threw o then thrown (final o) (out ++ emitted o)
        else part_each s rest (final o) (out ++ emitted o)
      else part_each s rest st out
  end.

Definition purge (s : sid) (st : state) : state :=
  with_usernames (JS.delete s (usernames st))
    (with_sockets (JS.delete s (sockets st)) st).

Definition disconnect (s : sid) (st : state) : outcome :=
  let o := part_each s (JS.keys (socket_channels st s)) st [] in
  if threw o then o
  else done (purge s (final o)) (emitted o).

(** [relayICECandidate] and [relaySessionDescription]: lines 183-210.
    When [peer_id in sockets] holds by inheritance, [sockets[peer_id]] is a
    builtin without an [emit] method and the call throws. *)
Definition relay (wrap : sid -> payload -> event) (s : sid)
           (peer_id : string) (body : payload) (st : state) : outcome :=
  match JS.get peer_id (sockets st) with
  | JS.Undefined => done st []
  | JS.Own target => done st [(target, wrap s body)]
  | JS.Inherited => thrown st []
  end.

Definition relayICECandidate := relay IceCandidate.
Definition relaySessionDescription := relay SessionDescription.

(** [muteStatus] and [speakingStatus]: lines 213-244. *)
Definition status_fanout (ev : event) (s : sid) (roster : JS.obj sid)
  : list emission :=
  flat_map (fun entry : string * sid =>
              if negb (String.eqb (fst entry) s) then [(snd entry, ev)]
              else [])
           roster.

Definition status (wrap : sid -> bool -> event) (s : sid)
           (channel : string) (flag : bool) (st : state) : outcome :=
  if negb (truthy channel) then done st []
  else match JS.get channel (channels st) with
       | JS.Undefined => done st []
       | JS.Inherited => done st []
       | JS.Own roster => done st (status_fanout (wrap s flag) s roster)
       end.

Definition muteStatus := status PeerMuteStatus.
Definition speakingStatus := status PeerSpeakingStatus.

(** The messages a connected client can send, and their dispatch. *)
Inductive request : Type :=
| ReqSetUsername (username : string)
| ReqChatMessage (channel message : string) (clock : nat -> Z)
| ReqJoin (config : join_config)
| ReqPart (channel : string)
| ReqRelayICECandidate (peer_id : string) (ice_candidate : payload)
| ReqRelaySessionDescription (peer_id : string)
                             (session_description : payload)
| ReqMuteStatus (channel : string) (isMuted : bool)
| ReqSpeakingStatus (channel : string) (isSpeaking : bool)
| ReqDisconnect.

Definition handle (s : sid) (r : request) (st : state) : outcome :=
  match r with
  | ReqSetUsername u => setUsername s u st
  | ReqChatMessage c m clock => chatMessage s c m clock st
  | ReqJoin config => join s config st
  | ReqPart c => part s c st
  | ReqRelayICECandidate p b => relayICECandidate s p b st
  | ReqRelaySessionDescription p b => relaySessionDescription s p b st
  | ReqMuteStatus c b => muteStatus s c b st
  | ReqSpeakingStatus c b => speakingStatus s c b st
  | ReqDisconnect => disconnect s st
  end.

End Hub.

(** ** Well-formed hub states and runs *)

Module HubSpec.
Import Hub.

(** Socket.IO issues the connection identifiers; none of them is a
    property name of [Object.prototype]. *)
Definition valid_id (s : sid) : Prop := JS.inherited s = false.

(** Every registered channel has a member. *)
Definition channels_inhabited (st : state) : Prop :=
  forall c r, JS.own c (channels st) = Some r -> r <> [].

(** The rosters and the per-socket membership sets describe the same
    relation, and every roster entry refers to the connected socket it is
    filed under. *)
Record consistent (st : state) : Prop := mkConsistent {
  inhabited : channels_inhabited st;
  roster_nodup :
    forall c r, JS.own c (channels st) = Some r -> NoDup (JS.keys r);
  roster_sound :
    forall c r id t,
      JS.own c (channels st) = Some r -> JS.own id r = Some t ->
      t = id /\ JS.has_own c (socket_channels st id) = true
      /\ JS.has_own id (sockets st) = true;
  membership_sound :
    forall s c,
      JS.has_own c (socket_channels st s) = true ->
      JS.inherited c = false
      /\ exists r, JS.own c (channels st) = Some r
                   /\ JS.own s r = Some s;
  membership_nodup :
    forall s, NoDup (JS.keys (socket_channels st s));
  connected_valid :
    forall s, JS.has_own s (sockets st) = true -> valid_id s;
  connected_field :
    forall s, JS.has_own s (sockets st) = true ->
              JS.has_own s (socket_fields st) = true
}.

(** One event of the server: a new connection, under an identifier no
    live connection has, or a message from a connected socket handled to
    completion. *)
Inductive step : state -> state -> Prop :=
| step_connection : forall s st,
    valid_id s -> JS.has_own s (sockets st) = false ->
    step st (final (connection s st))
| step_request : forall s r st,
    JS.has_own s (sockets st) = true ->
    step st (final (handle s r st)).

Inductive reachable : state -> Prop :=
| reach_initial : reachable initial
| reach_step : forall st st', reachable st -> step st st' -> reachable st'.

(** [s] is on the roster of [channel]. *)
Definition member (st : state) (s : sid) (channel : string) : Prop :=
  exists r, JS.own channel (channels st) = Some r
            /\ JS.has_own s r = true.

(** The events of a list that are emitted on socket [s]. *)
Definition delivered_to (s : sid) (out : list emission) : list event :=
  map snd (filter (fun e => String.eqb (fst e) s) out).

(** The specification's [disconnect]: a [leave] for every channel the
    connection belongs to, one after the other, then the purge of its
    identity mapping. *)
Fixpoint leave_all (s : sid) (cs : list string) (st : state)
         (out : list emission) : outcome :=
  match cs with
  | [] => done st out
  | c :: rest =>
      let o := part s c st in
      if threw o then thrown (final o) (out ++ emitted o)
      else leave_all s rest (final o) (out ++ emitted o)
  end.

Definition disconnect_spec (s : sid) (st : state) : outcome :=
  let o := leave_all s (JS.keys (socket_channels st s)) st [] in
  if threw o then o
  else done (purge s (final o)) (emitted o).

(** The state [part] leaves when [s] is on the roster [r] of [c]. *)
Definition after_part (s : sid) (c : string) (r : JS.obj sid) (st : state)
  : state :=
  with_channels
    (match JS.keys (JS.delete s r) with
     | [] => JS.delete c (channels st)
     | _ :: _ => JS.set c (JS.delete s r) (channels st)
     end)
    (with_socket_channels s (JS.delete c (socket_channels st s)) st).


(** [usernames] after the optional store of [userdata.username]. *)
Definition join_usernames (s : sid) (config : join_config) (st : state)
  : JS.obj string :=
  match jc_username config with
  | Some u => if truthy u then JS.set s u (usernames st) else usernames st
  | None => usernames st
  end.

(** The two guards of [join] let the request through. *)
Definition join_accepted (st : state) (s : sid) (config : join_config)
  : Prop :=
  truthy (jc_channel config) = true
  /\ JS.has_in (jc_channel config) (socket_channels st s) = false.


(** A roster whose entries are filed under the identifier of the socket
    they refer to, each identifier once. *)
Definition roster_ok (r : JS.obj sid) : Prop :=
  NoDup (JS.keys r) /\ forall id t, In (id, t) r -> t = id.


(** ** A small run, used to instantiate the statements *)

Definition alice : sid := "aGx3kQ0pZr7TnB2cAAAB".
Definition bob : sid := "Zt5mW8yLq1VdE4uHAAAD".

Definition two_connected : state :=
  final (connection bob (final (connection alice initial))).

(** [alice] alone in ["room1"]. *)
Definition alice_in_room : state :=
  final (join alice (mkJoin "room1" (Some "alice")) two_connected).

(** [alice] then [bob] in ["room1"], [alice] also in ["7"]. *)
Definition both_in_room : state :=
  final (join alice (mkJoin "7" None)
           (final (join bob (mkJoin "room1" None) alice_in_room))).

End HubSpec.

(* ================================================================== *)
(** * String primitives *)
(* ================================================================== *)

Module Str.

(** [s.startsWith(p)] *)
Fixpoint startsWith (s p : string) {struct p} : bool :=
  match p with
  | EmptyString => true
  | String a p' =>
      match s with
      | EmptyString => false
      | String c s' => Ascii.eqb c a && startsWith s' p'
      end
  end.

(** [s.includes(p)] *)
Fixpoint includes (s p : string) : bool :=
  startsWith s p
  || match s with
     | EmptyString => false
     | String _ s' => includes s' p
     end.

Definition CR : ascii := "013"%char.
Definition LF : ascii := "010"%char.
Definition CRLF : string := String CR (String LF EmptyString).

(** [s.split("\r\n")] *)
Fixpoint split (s : string) : list string :=
  match s with
  | EmptyString => [EmptyString]
  | String c s' =>
      match s' with
      | String d s'' =>
          if Ascii.eqb c CR && Ascii.eqb d LF then EmptyString :: split s''
          else match split s' with
               | l :: ls => String c l :: ls
               | [] => [String c EmptyString]
               end
      | EmptyString => [String c EmptyString]
      end
  end.

(** [lines.join("\r\n")] *)
Fixpoint join_crlf (lines : list string) : string :=
  match lines with
  | [] => EmptyString
  | l :: rest =>
      match rest with
      | [] => l
      | _ :: _ => String.append l (String.append CRLF (join_crlf rest))
      end
  end.

(** The text of a non-negative integer inside a template literal. *)
Definition decimal (n : N) : string :=
  NilEmpty.string_of_uint (N.to_uint n).

Definition is_digit (c : ascii) : bool :=
  let n := N_of_ascii c in ((48 <=? n)%N && (n <=? 57)%N)%bool.

(** The longest run of digits at the head of [s], and what follows it. *)
Fixpoint span_digits (s : string) : string * string :=
  match s with
  | EmptyString => (EmptyString, EmptyString)
  | String c s' =>
      if is_digit c
      then let (ds, rest) := span_digits s' in (String c ds, rest)
      else (EmptyString, s)
  end.

(** What is left of [s] after the prefix [p]. *)
Fixpoint strip_prefix (p s : string) : option string :=
  match p with
  | EmptyString => Some s
  | String a p' =>
      match s with
      | EmptyString => None
      | String c s' => if Ascii.eqb c a then strip_prefix p' s' else None
      end
  end.

Definition chars (s : string) : list ascii := list_ascii_of_string s.

(** The text does not contain the line separator. *)
Definition no_crlf (s : string) : Prop := includes s CRLF = false.

End Str.

(* ================================================================== *)
(** * The bitrate rewrite ([setAudioBitrate]) *)
(* ================================================================== *)

Module Codec.
Import Str.

(** The regular expression [/a=rtpmap:(\d+) opus/] tried at the head of
    [s].  The digits are followed by a space, so the greedy [\d+] takes
    the whole run of digits and no shorter run can match. *)
Definition rtpmap_here (s : string) : option string :=
  match strip_prefix "a=rtpmap:" s with
  | Some r =>
      let (ds, rest) := span_digits r in
      match ds with
      | EmptyString => None
      | String _ _ => if startsWith rest " opus" then Some ds else None
      end
  | None => None
  end.

(** [line.match(/a=rtpmap:(\d+) opus/)]: the first capture group of the
    leftmost match. *)
Fixpoint rtpmap_match (line : string) : option string :=
  match rtpmap_here line with
  | Some pt => Some pt
  | None =>
      match line with
      | EmptyString => None
      | String _ rest => rtpmap_match rest
      end
  end.

Section Policy.
(** [bitrate] is the argument of [setAudioBitrate]; [sampleRate] is
    [CONFIG.quality[selectedQuality].sampleRate]. *)
Variables bitrate sampleRate : N.

Definition bandwidth_line : string :=
  String.append "b=TIAS:" (decimal bitrate).

Definition fmtp_suffix : string :=
  String.append ";maxaveragebitrate="
    (String.append (decimal bitrate)
       (String.append ";maxplaybackrate="
          (String.append (decimal sampleRate)
             ";useinbandfec=1;usedtx=1;cbr=0"))).

(** The inner loop over [j]: the first later line that starts with
    [a=fmtp:<pt>] is extended unless it already names
    [maxaveragebitrate], and the search stops there. *)
Fixpoint patch_fmtp (pt : string) (later : list string) : list string :=
  match later with
  | [] => []
  | l :: rest =>
      if startsWith l (String.append "a=fmtp:" pt)
      then (if includes l "maxaveragebitrate" then l
            else String.append l fmtp_suffix) :: rest
      else l :: patch_fmtp pt rest
  end.

(** What iteration [i] pushes on [result]. *)
Definition pushed (line : string) : list string :=
  line :: (if startsWith line "m=audio" then [bandwidth_line] else []).

(** What iteration [i] does to the lines after it. *)
Definition patched (line : string) (later : list string) : list string :=
  if includes line "opus/48000"
  then match rtpmap_match line with
       | Some pt => patch_fmtp pt later
       | None => later
       end
  else later.

(** The outer loop from index [i] on: [lines] is [lines[i..]], [todo]
    bounds the iterations left ([lines.length - i]). *)
Fixpoint scan (todo : nat) (lines : list string) : list string :=
  match todo, lines with
  | S todo', line :: later =>
      pushed line ++ scan todo' (patched line later)
  | _, _ => []
  end.

Definition setAudioBitrate (sdp : string) : string :=
  let lines := split sdp in
  join_crlf (scan (List.length lines) lines).

(** Only the bandwidth lines: every line kept, [b=TIAS] inserted after
    each audio media line. *)
Definition with_bandwidth (lines : list string) : list string :=
  flat_map pushed lines.

End Policy.

Definition has_audio_line (sdp : string) : bool :=
  existsb (fun l => startsWith l "m=audio") (split sdp).

Definition has_opus_rtpmap (sdp : string) : bool :=
  existsb (fun l => includes l "opus/48000"
                    && match rtpmap_match l with
                       | Some _ => true
                       | None => false
                       end)
          (split sdp).

End Codec.

(** ** Relations used to follow the rewrite through its loop *)

Module CodecSpec.
Import Str Codec.

(** [y'] answers every test the rewrite makes the way [y] does, except
    that it may have gained [maxaveragebitrate]. *)
Definition grown (y y' : string) : Prop :=
  (forall q, ~ In ";"%char (chars q) -> startsWith y' q = startsWith y q)
  /\ includes y' "opus/48000" = includes y "opus/48000"
  /\ rtpmap_match y' = rtpmap_match y
  /\ (includes y "maxaveragebitrate" = true ->
      includes y' "maxaveragebitrate" = true)
  /\ (no_crlf y -> no_crlf y').

(** [after] is [before] with some lines grown and some bandwidth lines
    put in between. *)
Inductive evolved (bitrate : N) : list string -> list string -> Prop :=
| evolved_nil : evolved bitrate [] []
| evolved_line : forall y y' before after,
    grown y y' -> evolved bitrate before after ->
    evolved bitrate (y :: before) (y' :: after)
| evolved_bandwidth : forall before after,
    evolved bitrate before after ->
    evolved bitrate before (bandwidth_line bitrate :: after).

(** A description as a browser produces it, and two cut-down ones. *)
Definition crlf_lines (lines : list string) : string :=
  fold_right (fun l rest => String.append l (String.append CRLF rest))
             EmptyString lines.

Definition opus_offer : string :=
  crlf_lines [ "v=0";
               "m=audio 9 UDP/TLS/RTP/SAVPF 111 0";
               "a=rtpmap:111 opus/48000/2";
               "a=fmtp:111 minptime=10;useinbandfec=1";
               "a=rtpmap:0 PCMU/8000" ].

Definition pcmu_offer : string :=
  crlf_lines [ "v=0";
               "m=audio 9 UDP/TLS/RTP/SAVPF 0";
               "a=rtpmap:0 PCMU/8000" ].

Definition codec_lines_only : string :=
  crlf_lines [ "a=rtpmap:111 opus/48000/2";
               "a=fmtp:111 minptime=10;useinbandfec=1" ].

Definition suffix_letters : string :=
  ";maxaveragebitrate=;maxplaybackrate=;useinbandfec=1;usedtx=1;cbr=0".

End CodecSpec.

(* ================================================================== *)
(** * The roster synchroniser ([handleAddPeer]) *)
(* ================================================================== *)

Module Client.

(** A reference to an [RTCPeerConnection]: its position in the store
    [connections]. *)
Definition pc_ref : Type := nat.

Record peer_connection : Type := mkPC {
  pc_peer : string;
  pc_username : string;
  pc_tracks : list string;
  pc_closed : bool
}.

Inductive child : Type :=
| Placeholder
| PeerItem (peerId username : string).

Record client_state : Type := mkClient {
  peers : JS.obj pc_ref;
  connections : list peer_connection;
  localStream : option (list string);
  peersList : list child
}.

(** Work handed to the media engine; its completion comes back as a later
    event. *)
Inductive engine_request : Type :=
| CreateOffer (pc : pc_ref) (peerId : string).

Record add_peer : Type := mkAddPeer {
  peer_id : string;
  username : string;
  should_create_offer : bool
}.

Definition is_placeholder (c : child) : bool :=
  match c with Placeholder => true | PeerItem _ _ => false end.

Fixpoint remove_placeholder (l : list child) : list child :=
  match l with
  | [] => []
  | c :: rest =>
      if is_placeholder c then rest else c :: remove_placeholder rest
  end.

Definition is_peer_item (peerId : string) (c : child) : bool :=
  match c with
  | Placeholder => false
  | PeerItem p _ => String.eqb p peerId
  end.

(** [addPeerToUI]: lines 671-705. *)
Definition addPeerToUI (peerId username : string) (l : list child)
  : list child :=
  let l' := remove_placeholder l in
  if existsb (is_peer_item peerId) l' then l'
  else l' ++ [PeerItem peerId username].

(** [handleAddPeer] up to its first [await]: lines 433-494. *)
Definition handleAddPeer (config : add_peer) (st : client_state)
  : client_state * list engine_request :=
  let peerId := peer_id config in
  let peerUsername :=
    match username config with
    | EmptyString => JS.slice6 peerId
    | u => u
    end in
  match JS.get peerId (peers st) with
  | JS.Own _ => (st, [])
  | JS.Inherited => (st, [])
  | JS.Undefined =>
      let ref := List.length (connections st) in
      let tracks := match localStream st with
                    | Some ts => ts
                    | None => []
                    end in
      let pc := mkPC peerId peerUsername tracks false in
      (mkClient (JS.set peerId ref (peers st))
                (connections st ++ [pc])
                (localStream st)
                (addPeerToUI peerId peerUsername (peersList st)),
       if should_create_offer config then [CreateOffer ref peerId] else [])
  end.

End Client.

(* ================================================================== *)
(** * Further notions about the hub *)
(* ================================================================== *)

Module HubMore.
Import Hub HubSpec.

(** Every entry of [sockets] is filed under the identifier of the socket
    it refers to. *)
Definition sockets_sound (st : state) : Prop :=
  forall p t, JS.own p (sockets st) = Some t -> t = p.

(** The channels of [s], in the order of [socket.channels], that [m] is
    in as well. *)
Definition shared_channels (st : state) (s m : sid) : list string :=
  filter (fun c => JS.has_own c (socket_channels st m))
         (JS.keys (socket_channels st s)).

(** The identifiers a user list names. *)
Definition listed (users : list (sid * display_name)) : list sid :=
  map fst users.

End HubMore.

(* ================================================================== *)
(** * Further notions about the bitrate rewrite *)
(* ================================================================== *)

Module CodecMore.
Import Str Codec CodecSpec.

(** [y'] is [y], or [y] with the parameters appended, which happens only
    to a line that starts with [a=fmtp:] and did not name
    [maxaveragebitrate]. *)
Definition extended (bitrate sampleRate : N) (y y' : string) : Prop :=
  y' = y
  \/ (y' = String.append y (fmtp_suffix bitrate sampleRate)
      /\ startsWith y "a=fmtp:" = true
      /\ includes y "maxaveragebitrate" = false).

(** Both at once: what the loop may do to a line. *)
Definition kept (bitrate sampleRate : N) (y y' : string) : Prop :=
  grown y y' /\ extended bitrate sampleRate y y'.

Definition audio_lines (lines : list string) : list string :=
  filter (fun l => startsWith l "m=audio") lines.

Definition all_digits (s : string) : Prop :=
  Forall (fun c => is_digit c = true) (chars s).

End CodecMore.

(* ================================================================== *)
(** * The rest of the client's peer bookkeeping *)
(* ================================================================== *)

Module App.
Import Client.

(** An [audio] element is known by the order of its creation. *)
Definition audio_ref : Type := nat.

(** The module-level variables of the client the handlers below read and
    write: those of [client_state], [peerAudioElements], the children of
    [#audio-container] (each with the peer it plays), and the flags of the
    signalling and voice-activity code.  [signalingSocket], [vadAnalyser]
    and [audioContext] record whether the variable holds an object. *)
Record app : Type := mkApp {
  core : client_state;
  peerAudioElements : JS.obj audio_ref;
  audioContainer : list (audio_ref * string);
  audioCreated : nat;
  signalingSocket : bool;
  currentChannel : option string;
  isMuted : bool;
  isSpeaking : bool;
  speakingFrameCount : Z;
  vadAnalyser : bool;
  audioContext : bool
}.

Definition with_core (c : client_state) (a : app) : app :=
  mkApp c (peerAudioElements a) (audioContainer a) (audioCreated a)
        (signalingSocket a) (currentChannel a) (isMuted a) (isSpeaking a)
        (speakingFrameCount a) (vadAnalyser a) (audioContext a).

Definition with_audio (reg : JS.obj audio_ref)
           (container : list (audio_ref * string)) (created : nat) (a : app)
  : app :=
  mkApp (core a) reg container created
        (signalingSocket a) (currentChannel a) (isMuted a) (isSpeaking a)
        (speakingFrameCount a) (vadAnalyser a) (audioContext a).

(** Calls on a connection made by the two relay handlers; building the
    argument ([new RTCIceCandidate], [new RTCSessionDescription]) counts
    as part of the call. *)
Inductive engine_call : Type :=
| AddIceCandidate (pc : pc_ref) (candidate : string)
| SetRemoteDescription (pc : pc_ref) (session_description : string).

(** [handleAddPeer], on the whole client. *)
Definition addPeer (config : add_peer) (a : app)
  : app * list engine_request :=
  (with_core (fst (handleAddPeer config (core a))) a,
   snd (handleAddPeer config (core a))).

(** [peerConnection.close()] on the connection stored at [pc]. *)
Fixpoint close_at (pc : pc_ref) (l : list peer_connection)
  : list peer_connection :=
  match l with
  | [] => []
  | c :: rest =>
      match pc with
      | O => mkPC (pc_peer c) (pc_username c) (pc_tracks c) true :: rest
      | S n => c :: close_at n rest
      end
  end.

(** [element.remove()] on the first child with the id [peer-<peerId>]. *)
Fixpoint remove_item (peerId : string) (l : list child) : list child :=
  match l with
  | [] => []
  | c :: rest =>
      if is_peer_item peerId c then rest else c :: remove_item peerId rest
  end.

(** [removePeerFromUI]: lines 707-718. *)
Definition removePeerFromUI (peerId : string) (l : list child) : list child :=
  match remove_item peerId l with
  | [] => [Placeholder]
  | c :: rest => c :: rest
  end.

(** [audio.remove()]: the element leaves the container. *)
Definition remove_audio (ref : audio_ref) (l : list (audio_ref * string))
  : list (audio_ref * string) :=
  filter (fun e => negb (Nat.eqb (fst e) ref)) l.

(** [handleRemoteTrack]: lines 614-626.  It runs from the [ontrack]
    callback of a connection [handleAddPeer] created, so [peerId] has
    passed the test of [handleAddPeer]. *)
Definition handleRemoteTrack (peerId : string) (a : app) : app :=
  with_audio (JS.set peerId (audioCreated a) (peerAudioElements a))
             (audioContainer a ++ [(audioCreated a, peerId)])
             (S (audioCreated a)) a.

(** [handleRemovePeer]: lines 524-543.  The second component tells whether
    the handler ended in a [TypeError]: a builtin found under [peerId] on
    the prototype chain is truthy and has no [close] or [remove]. *)
Definition handleRemovePeer (peerId : string) (a : app) : app * bool :=
  match JS.get peerId (peers (core a)) with
  | JS.Inherited => (a, true)
  | found =>
      let c := core a in
      let a1 :=
        match found with
        | JS.Own pc =>
            with_core (mkClient (JS.delete peerId (peers c))
                                (close_at pc (connections c))
                                (localStream c) (peersList c)) a
        | _ => a
        end in
      match JS.get peerId (peerAudioElements a1) with
      | JS.Inherited => (a1, true)
      | found' =>
          let a2 :=
            match found' with
            | JS.Own ref =>
                with_audio (JS.delete peerId (peerAudioElements a1))
                           (remove_audio ref (audioContainer a1))
                           (audioCreated a1) a1
            | _ => a1
            end in
          let c2 := core a2 in
          (with_core (mkClient (peers c2) (connections c2) (localStream c2)
                               (removePeerFromUI peerId (peersList c2))) a2,
           false)
      end
  end.

(** [handleIceCandidate] and [handleSessionDescription] up to their first
    [await]: lines 548-609.  Without a connection for the peer they
    return; a builtin found on the prototype chain has no such method, and
    the [TypeError] is caught and logged. *)
Definition handleIceCandidate (peerId candidate : string) (a : app)
  : list engine_call :=
  match JS.get peerId (peers (core a)) with
  | JS.Own pc => [AddIceCandidate pc candidate]
  | _ => []
  end.

Definition handleSessionDescription (peerId description : string) (a : app)
  : list engine_call :=
  match JS.get peerId (peers (core a)) with
  | JS.Own pc => [SetRemoteDescription pc description]
  | _ => []
  end.

(** The property key a value of [currentChannel] stands for when the hub
    uses it as one. *)
Definition channel_key (c : option string) : string :=
  match c with
  | Some name => name
  | None => "null"
  end.

Definition channel_set (c : option string) : bool :=
  match c with
  | Some name => Hub.truthy name
  | None => false
  end.

(** [leaveRoom]: lines 217-270, with what it sends to the hub. *)
Definition leaveRoom (a : app) : app * list Hub.request :=
  let c := core a in
  let sent :=
    if signalingSocket a
    then [Hub.ReqPart (channel_key (currentChannel a)); Hub.ReqDisconnect]
    else [] in
  let closed :=
    fold_left (fun conns entry => close_at (snd entry) conns)
              (peers c) (connections c) in
  let container :=
    fold_left (fun l entry => remove_audio (snd entry) l)
              (peerAudioElements a) (audioContainer a) in
  (mkApp (mkClient JS.empty closed None [Placeholder])
         JS.empty container (audioCreated a)
         false None false false
         (speakingFrameCount a) (vadAnalyser a) false,
   sent).

(** [CONFIG.vadSmoothingFrames]. *)
Definition vadSmoothingFrames : Z := 5.

(** [checkVoiceActivity]: lines 324-362.  [loud] is the outcome of
    [average > CONFIG.vadThreshold] for the frame; the counter is an
    integer, so [speakingFrameCount >= CONFIG.vadSmoothingFrames / 2] is
    [vadSmoothingFrames <= 2 * speakingFrameCount].  The third component
    tells whether the next frame has been requested. *)
Definition checkVoiceActivity (loud : bool) (a : app)
  : app * list Hub.request * bool :=
  if negb (vadAnalyser a) || negb (channel_set (currentChannel a))
  then (a, [], false)
  else
    let count :=
      if loud
      then Z.min (speakingFrameCount a + 1) vadSmoothingFrames
      else Z.max (speakingFrameCount a - 1) 0 in
    let speaking := (vadSmoothingFrames <=? 2 * count)%Z in
    let sent :=
      if Bool.eqb speaking (isSpeaking a) then []
      else if signalingSocket a && channel_set (currentChannel a)
           then [Hub.ReqSpeakingStatus (channel_key (currentChannel a))
                                       (speaking && negb (isMuted a))]
           else [] in
    (mkApp (core a) (peerAudioElements a) (audioContainer a)
           (audioCreated a) (signalingSocket a) (currentChannel a)
           (isMuted a) speaking count (vadAnalyser a) (audioContext a),
     sent, true).

(** A run of frames, collecting what is sent. *)
Fixpoint frames (louds : list bool) (a : app) : app * list Hub.request :=
  match louds with
  | [] => (a, [])
  | loud :: rest =>
      let '(a1, sent, _) := checkVoiceActivity loud a in
      let (a2, sent') := frames rest a1 in
      (a2, sent ++ sent')
  end.

(** The identifiers of the peer entries of the list. *)
Definition items (l : list child) : list string :=
  flat_map (fun c => match c with
                     | Placeholder => []
                     | PeerItem p _ => [p]
                     end) l.

(** The peer list shows the placeholder exactly when it has no entry. *)
Definition list_ok (l : list child) : Prop :=
  l = [Placeholder]
  \/ (l <> [] /\ forallb (fun c => negb (is_placeholder c)) l = true).

(** The table of peers, the connections and the peer list agree: the list
    has one entry per peer of the table, every peer of the table has an
    open connection of its own, and no peer is filed under a property name
    of [Object.prototype]. *)
Record synced (a : app) : Prop := mkSynced {
  listed_once : NoDup (items (peersList (core a)));
  listed_iff :
    forall id, In id (items (peersList (core a)))
               <-> JS.has_own id (peers (core a)) = true;
  list_shape : list_ok (peersList (core a));
  session_open :
    forall id pc,
      JS.own id (peers (core a)) = Some pc ->
      exists c, nth_error (connections (core a)) pc = Some c
                /\ pc_peer c = id /\ pc_closed c = false;
  plain_peers :
    forall id, JS.has_own id (peers (core a)) = true ->
               JS.inherited id = false
}.

(** What the client reacts to, and a run of such inputs.  A track arrives
    through the [ontrack] callback [handleAddPeer] installs on the
    connection it creates, so only for a peer a connection was made for. *)
Definition has_connection (peerId : string) (a : app) : bool :=
  existsb (fun c => String.eqb (pc_peer c) peerId) (connections (core a)).

Inductive input : Type :=
| InAddPeer (config : add_peer)
| InRemovePeer (peerId : string)
| InRemoteTrack (peerId : string)
| InLeave
| InFrame (loud : bool).

Definition step (a : app) (i : input) : app :=
  match i with
  | InAddPeer config => fst (addPeer config a)
  | InRemovePeer peerId => fst (handleRemovePeer peerId a)
  | InRemoteTrack peerId =>
      if has_connection peerId a then handleRemoteTrack peerId a else a
  | InLeave => fst (leaveRoom a)
  | InFrame loud => fst (fst (checkVoiceActivity loud a))
  end.

Definition run (inputs : list input) (a : app) : app :=
  fold_left step inputs a.

(** The client after [leaveRoom], before anything has been heard. *)
Definition idle : app :=
  mkApp (mkClient [] [] None [Placeholder]) [] [] 0
        false None false false 0 false false.

(** In a room, with the microphone open. *)
Definition in_room : app :=
  mkApp (mkClient [] [] (Some ["mic"]) [Placeholder]) [] [] 0
        true (Some "room1") false false 0 true true.

End App.

(* ================================================================== *)
(** * Hub and client together *)
(* ================================================================== *)

Module Room.
Import Hub Client App.

(** A display name as [handleAddPeer] reads it from the event.  A builtin
    found on the prototype chain is not a string and is not carried as
    one; no connected socket has an identifier for which the hub finds
    one, and the name plays no part in the table of peers. *)
Definition wire_name (n : display_name) : string :=
  match n with
  | Name u => u
  | BuiltinOf _ => EmptyString
  end.

(** The handlers [connectToSignalingServer] registers (client, lines
    408-420), each up to its first [await], with the offers asked of the
    media engine.  Only [addPeer] and [removePeer] touch the table of
    peers, the connections and the peer list. *)
Definition receive (e : event) (a : app) : app * list engine_request :=
  match e with
  | AddPeer id name offer => addPeer (mkAddPeer id (wire_name name) offer) a
  | RemovePeer id => (fst (handleRemovePeer id a), [])
  | _ => (a, [])
  end.

Fixpoint receive_all (es : list event) (a : app)
  : app * list engine_request :=
  match es with
  | [] => (a, [])
  | e :: rest =>
      let (a1, reqs) := receive e a in
      let (a2, reqs') := receive_all rest a1 in
      (a2, reqs ++ reqs')
  end.

(** The hub handling what one socket sends, in the order sent. *)
Fixpoint serve (s : sid) (reqs : list request) (st : state)
  : state * list emission :=
  match reqs with
  | [] => (st, [])
  | r :: rest =>
      let o := handle s r st in
      let (st', out) := serve s rest (final o) in
      (st', emitted o ++ out)
  end.

(** One offer per peer, on connections created one after the other. *)
Fixpoint offers (next : pc_ref) (ids : list string) : list engine_request :=
  match ids with
  | [] => []
  | id :: rest => CreateOffer next id :: offers (S next) rest
  end.

End Room.

(* ================================================================== *)
(** * Facts about plain objects *)
(* ================================================================== *)

Module JSFacts.
Import JS.

Ltac case_eqb k k' :=
  destruct (String.eqb_spec k k'); subst; try congruence.

Ltac eqb_cases :=
  repeat match goal with
         | |- context [String.eqb ?a ?b] =>
             destruct (String.eqb_spec a b); subst; simpl
         end;
  try congruence.

Section Properties.
Context {V : Type}.
Implicit Types (o : obj V) (k : string) (v : V).

Lemma has_own_true k o :
  has_own k o = true <-> exists v, own k o = Some v.
Proof.
  unfold has_own. destruct (own k o) as [v|].
  - split; [eauto | reflexivity].
  - split; [discriminate | intros [v Hv]; discriminate].
Qed.

Lemma has_own_false k o : has_own k o = false <-> own k o = None.
Proof.
  unfold has_own. destruct (own k o); split; congruence.
Qed.

Lemma in_keys k o : In k (keys o) <-> has_own k o = true.
Proof.
  unfold has_own, keys. induction o as [|[k' v'] rest IH]; simpl.
  - split; [tauto | discriminate].
  - case_eqb k k'.
    + split; auto.
    + rewrite <- IH. split; [intros [H|H]; congruence || exact H | auto].
Qed.

Lemma own_in k v o : own k o = Some v -> In (k, v) o.
Proof.
  induction o as [|[k' v'] rest IH]; simpl; [discriminate|].
  case_eqb k k'.
  - intros H; inversion H; subst; auto.
  - auto.
Qed.

Lemma in_own k v o : NoDup (keys o) -> In (k, v) o -> own k o = Some v.
Proof.
  induction o as [|[k' v'] rest IH]; simpl; [tauto|].
  intros Hnd [H|H].
  - inversion H; subst. now rewrite String.eqb_refl.
  - inversion Hnd as [|? ? Hnot Hnd']; subst.
    case_eqb k k'.
    + exfalso. apply Hnot. unfold keys.
      change k' with (fst (k', v)). now apply in_map.
    + auto.
Qed.

Lemma own_overwrite k v o k' :
  own k' (overwrite k v o)
  = if String.eqb k' k
    then (if has_own k o then Some v else None)
    else own k' o.
Proof.
  unfold has_own. induction o as [|[k0 v0] rest IH]; simpl.
  - now destruct (String.eqb k' k).
  - case_eqb k k0; simpl.
    + now destruct (String.eqb k' k0).
    + rewrite IH. eqb_cases.
Qed.

Lemma own_insert_index n k v o k' :
  own k o = None ->
  own k' (insert_index n k v o)
  = if String.eqb k' k then Some v else own k' o.
Proof.
  induction o as [|[k0 v0] rest IH]; simpl; intros Hk.
  - reflexivity.
  - case_eqb k k0.
    destruct (array_index k0) as [m|]; [destruct (m <? n)%N|]; simpl;
      try reflexivity.
    rewrite (IH Hk). eqb_cases.
Qed.

Lemma own_app_new k v o k' :
  own k o = None ->
  own k' (o ++ [(k, v)]) = if String.eqb k' k then Some v else own k' o.
Proof.
  induction o as [|[k0 v0] rest IH]; simpl; intros Hk.
  - reflexivity.
  - case_eqb k k0. rewrite (IH Hk). eqb_cases.
Qed.

(** Reading after an assignment. *)
Lemma own_set k v o k' :
  own k' (set k v o) = if String.eqb k' k then Some v else own k' o.
Proof.
  unfold set. destruct (has_own k o) eqn:Hk.
  - rewrite own_overwrite, Hk. reflexivity.
  - apply has_own_false in Hk.
    destruct (array_index k);
      [apply own_insert_index | apply own_app_new]; exact Hk.
Qed.

Lemma own_set_same k v o : own k (set k v o) = Some v.
Proof. rewrite own_set. now rewrite String.eqb_refl. Qed.

Lemma own_set_other k v o k' :
  k' <> k -> own k' (set k v o) = own k' o.
Proof. intros H. rewrite own_set. now case_eqb k' k. Qed.

(** Reading after a [delete]. *)
Lemma own_delete k o k' :
  own k' (delete k o) = if String.eqb k' k then None else own k' o.
Proof.
  unfold delete. induction o as [|[k0 v0] rest IH]; simpl.
  - now destruct (String.eqb k' k).
  - case_eqb k k0; simpl; rewrite IH; eqb_cases.
Qed.

Lemma has_own_set k v o k' :
  has_own k' (set k v o) = (String.eqb k' k || has_own k' o)%bool.
Proof.
  unfold has_own. rewrite own_set. now destruct (String.eqb k' k).
Qed.

Lemma has_own_delete k o k' :
  has_own k' (delete k o)
  = (negb (String.eqb k' k) && has_own k' o)%bool.
Proof.
  unfold has_own. rewrite own_delete. now destruct (String.eqb k' k).
Qed.

Lemma delete_absent k o : has_own k o = false -> delete k o = o.
Proof.
  unfold has_own, delete. induction o as [|[k0 v0] rest IH]; simpl.
  - reflexivity.
  - case_eqb k k0; simpl. intros H. f_equal. exact (IH H).
Qed.

Lemma keys_overwrite k v o : keys (overwrite k v o) = keys o.
Proof.
  unfold keys. induction o as [|[k0 v0] rest IH]; simpl.
  - reflexivity.
  - case_eqb k k0; simpl; [reflexivity | now rewrite IH].
Qed.

(** A new key is put somewhere in the enumeration order, and nothing
    else moves. *)
Lemma insert_index_split n k v o :
  exists l1 l2, o = l1 ++ l2 /\ insert_index n k v o = l1 ++ (k, v) :: l2.
Proof.
  induction o as [|[k0 v0] rest (l1 & l2 & Ho & Hi)]; simpl.
  - exists [], []. auto.
  - destruct (array_index k0) as [m|]; [destruct (m <? n)%N|].
    + exists ((k0, v0) :: l1), l2. simpl. split; congruence.
    + exists [], ((k0, v0) :: rest). auto.
    + exists [], ((k0, v0) :: rest). auto.
Qed.

Lemma set_new_split k v o :
  has_own k o = false ->
  exists l1 l2, o = l1 ++ l2 /\ set k v o = l1 ++ (k, v) :: l2.
Proof.
  intros Hk. unfold set. rewrite Hk. destruct (array_index k) as [n|].
  - apply insert_index_split.
  - exists o, []. split; [now rewrite app_nil_r | reflexivity].
Qed.

Lemma set_not_nil k v o : set k v o <> [].
Proof.
  intros H. pose proof (own_set_same k v o) as Hs.
  rewrite H in Hs. discriminate.
Qed.

Lemma nodup_keys_set k v o : NoDup (keys o) -> NoDup (keys (set k v o)).
Proof.
  intros Hnd. destruct (has_own k o) eqn:Hk.
  - unfold set. rewrite Hk, keys_overwrite. exact Hnd.
  - destruct (set_new_split k v o Hk) as (l1 & l2 & Ho & Hs).
    rewrite Hs. unfold keys in *. rewrite map_app. simpl.
    apply NoDup_Add with (a := k) (l := map fst l1 ++ map fst l2).
    + apply Add_app.
    + constructor.
      * now rewrite <- map_app, <- Ho.
      * rewrite <- map_app, <- Ho. fold (keys o). rewrite in_keys.
        congruence.
Qed.

Lemma nodup_keys_delete k o : NoDup (keys o) -> NoDup (keys (delete k o)).
Proof.
  unfold keys, delete. induction o as [|[k0 v0] rest IH]; simpl.
  - auto.
  - intros Hnd. inversion Hnd as [|? ? Hnot Hnd']; subst.
    destruct (negb (String.eqb k k0)); simpl; [|auto].
    constructor; [|auto].
    intros Hin. apply Hnot. apply in_map_iff in Hin.
    destruct Hin as ([k1 v1] & Hfst & Hin). apply filter_In in Hin.
    simpl in Hfst. subst. apply in_map_iff.
    exists (k0, v1). split; [reflexivity | tauto].
Qed.

Lemma get_own k o v : own k o = Some v -> get k o = Own v.
Proof. unfold get. now intros ->. Qed.

Lemma has_in_own k o : has_own k o = true -> has_in k o = true.
Proof.
  intros H. apply has_own_true in H. destruct H as [v Hv].
  unfold has_in. now rewrite (get_own _ _ _ Hv).
Qed.

Lemma has_in_false k o :
  has_in k o = false <-> has_own k o = false /\ inherited k = false.
Proof.
  unfold has_in, get, has_own.
  destruct (own k o); [|destruct (inherited k)]; split;
    try discriminate; try tauto; intros [? ?]; discriminate.
Qed.

Lemma get_plain k o :
  inherited k = false ->
  get k o = match own k o with Some v => Own v | None => Undefined end.
Proof. unfold get. now intros ->. Qed.

End Properties.

End JSFacts.

(* ================================================================== *)
(** * Facts about the string primitives *)
(* ================================================================== *)

Module StrFacts.
Import Str.

Local Infix "+++" := String.append (at level 60, right associativity).

Lemma chars_append s t : chars (s +++ t) = chars s ++ chars t.
Proof.
  unfold chars. induction s as [|c s IH]; simpl; [reflexivity|].
  now rewrite IH.
Qed.

Lemma append_assoc s t u : (s +++ t) +++ u = s +++ (t +++ u).
Proof. induction s as [|c s IH]; simpl; [reflexivity | now rewrite IH]. Qed.

Lemma append_grows s c x : s +++ String c x <> s.
Proof.
  induction s as [|d s IH]; simpl; [discriminate|].
  intros H. inversion H. contradiction.
Qed.

(** ** [startsWith] *)

Lemma startsWith_nil_r s : startsWith s EmptyString = true.
Proof. now destruct s. Qed.

Lemma startsWith_append s p x :
  startsWith s p = true -> startsWith (s +++ x) p = true.
Proof.
  revert s. induction p as [|a p IH]; intros s; simpl; [reflexivity|].
  destruct s as [|c s]; simpl; [discriminate|].
  destruct (Ascii.eqb c a); simpl; [apply IH | discriminate].
Qed.

Lemma startsWith_chars s p :
  startsWith s p = true -> incl (chars p) (chars s).
Proof.
  revert s. induction p as [|a p IH]; intros s; simpl.
  - intros _ c [].
  - destruct s as [|c s]; [discriminate|].
    destruct (Ascii.eqb_spec c a) as [->|]; simpl; [|discriminate].
    intros H x [Hx|Hx]; [now left | right; exact (IH s H x Hx)].
Qed.

(** A prefix test that does not mention [c] cannot tell whether a text
    beginning with [c] has been appended. *)
Lemma startsWith_append_sep p c x :
  ~ In c (chars p) ->
  forall s, startsWith (s +++ String c x) p = startsWith s p.
Proof.
  induction p as [|a p IH]; intros Hc s; simpl; [reflexivity|].
  assert (Hca : c <> a) by (intros ->; apply Hc; now left).
  assert (Hp : ~ In c (chars p)) by (intros H; apply Hc; now right).
  destruct s as [|d s]; simpl.
  - destruct (Ascii.eqb_spec c a); [contradiction | reflexivity].
  - now rewrite (IH Hp s).
Qed.

(** ** [includes] *)

Lemma includes_unfold s p :
  includes s p
  = (startsWith s p
     || match s with
        | EmptyString => false
        | String _ s' => includes s' p
        end)%bool.
Proof. now destruct s. Qed.

Lemma includes_chars s p :
  includes s p = true -> incl (chars p) (chars s).
Proof.
  induction s as [|c s IH]; rewrite includes_unfold; intros H.
  - rewrite orb_false_r in H. now apply startsWith_chars.
  - apply orb_prop in H. destruct H as [H|H].
    + now apply startsWith_chars.
    + intros x Hx. right. exact (IH H x Hx).
Qed.

Lemma includes_missing_char s p c :
  In c (chars p) -> ~ In c (chars s) -> includes s p = false.
Proof.
  intros Hp Hs. destruct (includes s p) eqn:E; [|reflexivity].
  exfalso. apply Hs. exact (includes_chars s p E c Hp).
Qed.

Lemma includes_append_l s p x :
  includes s p = true -> includes (s +++ x) p = true.
Proof.
  induction s as [|c s IH]; rewrite includes_unfold; intros H.
  - rewrite orb_false_r in H. destruct p; [|discriminate].
    simpl. rewrite includes_unfold. now rewrite startsWith_nil_r.
  - apply orb_prop in H. simpl. destruct H as [H|H].
    + change (String c (s +++ x)) with (String c s +++ x).
      now rewrite (startsWith_append _ _ x H).
    + rewrite (IH H). apply orb_true_r.
Qed.

Lemma includes_append_r s p x :
  includes x p = true -> includes (s +++ x) p = true.
Proof.
  intros H. induction s as [|c s IH]; simpl; [exact H|].
  rewrite IH. apply orb_true_r.
Qed.

(** Appending a text that begins with [c] and does not contain [p]
    changes no occurrence test for a [p] that does not mention [c]. *)
Lemma includes_append_sep p c x :
  ~ In c (chars p) -> includes (String c x) p = false ->
  forall s, includes (s +++ String c x) p = includes s p.
Proof.
  intros Hc Hx. induction s as [|d s IH].
  - simpl append. rewrite Hx. destruct p as [|a p]; [|reflexivity].
    rewrite includes_unfold in Hx. simpl in Hx. discriminate.
  - change (String d s +++ String c x) with (String d (s +++ String c x)).
    rewrite (includes_unfold (String d _)), (includes_unfold (String d s)).
    change (String d (s +++ String c x)) with (String d s +++ String c x).
    now rewrite (startsWith_append_sep p c x Hc), IH.
Qed.

(** ** [split] and [join] *)

Lemma string_pair_ind (P : string -> Prop) :
  P EmptyString ->
  (forall c, P (String c EmptyString)) ->
  (forall c d s, P s -> P (String d s) -> P (String c (String d s))) ->
  forall s, P s.
Proof.
  intros H0 H1 H2 s.
  assert (H : P s /\ forall c, P (String c s)).
  { induction s as [|d s [IHs IHc]].
    - split; [exact H0 | exact H1].
    - split; [apply IHc | intros c; apply H2; [exact IHs | apply IHc]]. }
  exact (proj1 H).
Qed.

Lemma split_cons c d s :
  split (String c (String d s))
  = if (Ascii.eqb c CR && Ascii.eqb d LF)%bool then EmptyString :: split s
    else match split (String d s) with
         | l :: ls => String c l :: ls
         | [] => [String c EmptyString]
         end.
Proof. reflexivity. Qed.

Lemma split_not_nil s : split s <> [].
Proof.
  destruct s as [|c [|d s]]; try discriminate.
  rewrite split_cons.
  destruct (Ascii.eqb c CR && Ascii.eqb d LF)%bool; [discriminate|].
  destruct (split (String d s)); discriminate.
Qed.

Lemma join_cons l rest :
  rest <> [] -> join_crlf (l :: rest) = l +++ CRLF +++ join_crlf rest.
Proof. destruct rest; [congruence | reflexivity]. Qed.

Lemma join_cons_char c l ls :
  join_crlf (String c l :: ls) = String c (join_crlf (l :: ls)).
Proof. destruct ls; reflexivity. Qed.

(** Joining the lines of a text gives the text back. *)
Lemma join_split s : join_crlf (split s) = s.
Proof.
  induction s as [| c | c d s IHs IHd] using string_pair_ind;
    try reflexivity.
  rewrite split_cons.
  destruct (Ascii.eqb_spec c CR) as [->|Hc]; simpl andb;
    [destruct (Ascii.eqb_spec d LF) as [->|Hd]|].
  - rewrite join_cons by apply split_not_nil. now rewrite IHs.
  - destruct (split (String d s)) as [|l ls] eqn:E;
      [now apply split_not_nil in E|].
    now rewrite join_cons_char, IHd.
  - destruct (split (String d s)) as [|l ls] eqn:E;
      [now apply split_not_nil in E|].
    now rewrite join_cons_char, IHd.
Qed.

Lemma no_crlf_tail c s : no_crlf (String c s) -> no_crlf s.
Proof.
  unfold no_crlf. rewrite includes_unfold. intros H.
  now apply orb_false_elim in H.
Qed.

Lemma no_crlf_head c d s :
  no_crlf (String c (String d s)) ->
  (Ascii.eqb c CR && Ascii.eqb d LF)%bool = false.
Proof.
  unfold no_crlf. rewrite includes_unfold. intros H.
  apply orb_false_elim in H. destruct H as [H _]. simpl in H.
  now rewrite andb_true_r in H.
Qed.

(** A text without the separator is a single line, and such a line placed
    before a separator is split off whole. *)
Lemma split_single s : no_crlf s -> split s = [s].
Proof.
  induction s as [|c s IH]; intros H; [reflexivity|].
  destruct s as [|d s]; [reflexivity|].
  rewrite split_cons, (no_crlf_head _ _ _ H), (IH (no_crlf_tail _ _ H)).
  reflexivity.
Qed.

Lemma split_append_crlf s t :
  no_crlf s -> split (s +++ CRLF +++ t) = s :: split t.
Proof.
  induction s as [|c s IH]; intros H.
  - reflexivity.
  - specialize (IH (no_crlf_tail _ _ H)). destruct s as [|d s].
    + simpl append in *. rewrite split_cons.
      destruct (Ascii.eqb c CR); simpl andb; now rewrite IH.
    + change (String c (String d s) +++ CRLF +++ t)
        with (String c (String d (s +++ CRLF +++ t))).
      rewrite split_cons, (no_crlf_head _ _ _ H).
      change (String d (s +++ CRLF +++ t))
        with (String d s +++ CRLF +++ t).
      now rewrite IH.
Qed.

Lemma split_join lines :
  lines <> [] -> Forall no_crlf lines -> split (join_crlf lines) = lines.
Proof.
  induction lines as [|l rest IH]; intros Hne Hall; [congruence|].
  inversion Hall as [|? ? Hl Hrest]; subst.
  destruct rest as [|l' rest'].
  - now apply split_single.
  - rewrite join_cons by discriminate.
    rewrite (split_append_crlf _ _ Hl), IH;
      [reflexivity | discriminate | exact Hrest].
Qed.

Lemma split_head_lf d t l ls :
  split (String d t) = l :: ls ->
  startsWith l (String LF EmptyString) = true -> d = LF.
Proof.
  destruct t as [|e t].
  - simpl. intros H. inversion H; subst. simpl.
    destruct (Ascii.eqb_spec d LF); [auto | discriminate].
  - rewrite split_cons.
    destruct (Ascii.eqb d CR && Ascii.eqb e LF)%bool.
    + intros H. inversion H; subst. discriminate.
    + destruct (split (String e t)); intros H; inversion H; subst; simpl;
        destruct (Ascii.eqb_spec d LF); auto; discriminate.
Qed.

(** No line of a split text contains the separator. *)
Lemma split_no_crlf s : Forall no_crlf (split s).
Proof.
  induction s as [| c | c d s IHs IHd] using string_pair_ind.
  - repeat constructor.
  - constructor; [|constructor]. unfold no_crlf. simpl.
    now rewrite andb_false_r.
  - rewrite split_cons.
    destruct (Ascii.eqb c CR && Ascii.eqb d LF)%bool eqn:E.
    + constructor; [reflexivity | exact IHs].
    + destruct (split (String d s)) as [|l ls] eqn:El;
        [now apply split_not_nil in El|].
      inversion IHd as [|? ? Hl Hls]; subst. constructor; [|exact Hls].
      unfold no_crlf in *. rewrite includes_unfold, Hl, orb_false_r.
      change (startsWith (String c l) CRLF)
        with (Ascii.eqb c CR && startsWith l (String LF EmptyString))%bool.
      destruct (startsWith l (String LF EmptyString)) eqn:Elf;
        [|apply andb_false_r].
      pose proof (split_head_lf d s _ _ El Elf). subst d.
      rewrite Ascii.eqb_refl, andb_true_r in E. now rewrite E.
Qed.

(** ** Decimal numerals *)

Lemma string_of_uint_digits u :
  Forall (fun c => is_digit c = true) (chars (NilEmpty.string_of_uint u)).
Proof. induction u; simpl; constructor; auto. Qed.

Lemma decimal_digits n :
  Forall (fun c => is_digit c = true) (chars (decimal n)).
Proof. apply string_of_uint_digits. Qed.

(** ** [strip_prefix] and [span_digits] *)

Lemma strip_prefix_append_sep p c x :
  ~ In c (chars p) ->
  forall s,
    strip_prefix p (s +++ String c x)
    = option_map (fun r => r +++ String c x) (strip_prefix p s).
Proof.
  induction p as [|a p IH]; intros Hc s; simpl; [reflexivity|].
  assert (Hca : c <> a) by (intros ->; apply Hc; now left).
  assert (Hp : ~ In c (chars p)) by (intros H; apply Hc; now right).
  destruct s as [|d s]; simpl.
  - destruct (Ascii.eqb_spec c a); [contradiction | reflexivity].
  - destruct (Ascii.eqb d a); [apply (IH Hp) | reflexivity].
Qed.

Lemma strip_prefix_chars p s r :
  strip_prefix p s = Some r -> incl (chars p) (chars s).
Proof.
  revert s. induction p as [|a p IH]; intros s; simpl.
  - intros _ c [].
  - destruct s as [|d s]; [discriminate|].
    destruct (Ascii.eqb_spec d a) as [->|]; [|discriminate].
    intros H x [Hx|Hx]; [now left | right; exact (IH s H x Hx)].
Qed.

Lemma span_digits_append_sep c x :
  is_digit c = false ->
  forall r,
    span_digits (r +++ String c x)
    = (fst (span_digits r), snd (span_digits r) +++ String c x).
Proof.
  intros Hc. induction r as [|d r IH]; simpl.
  - now rewrite Hc.
  - destruct (is_digit d); [|reflexivity].
    rewrite IH. now destruct (span_digits r).
Qed.

Lemma span_digits_digits r :
  Forall (fun c => is_digit c = true) (chars (fst (span_digits r))).
Proof.
  induction r as [|d r IH]; simpl; [constructor|].
  destruct (is_digit d) eqn:E; [|constructor].
  destruct (span_digits r). simpl in *. now constructor.
Qed.

End StrFacts.

(* ================================================================== *)
(** * Facts about the bitrate rewrite *)
(* ================================================================== *)

Module CodecFacts.
Import Str StrFacts Codec CodecSpec.

Local Infix "+++" := String.append (at level 60, right associativity).

Lemma not_digit_not_in c l :
  is_digit c = false -> Forall (fun x => is_digit x = true) l -> ~ In c l.
Proof.
  intros Hc Hall Hin. rewrite Forall_forall in Hall.
  specialize (Hall c Hin). congruence.
Qed.

Lemma rtpmap_here_chars s pt :
  rtpmap_here s = Some pt -> In ":"%char (chars s).
Proof.
  unfold rtpmap_here.
  destruct (strip_prefix "a=rtpmap:" s) as [r|] eqn:E; [|discriminate].
  intros _. apply (strip_prefix_chars _ _ _ E). simpl. tauto.
Qed.

Lemma rtpmap_match_chars s pt :
  rtpmap_match s = Some pt -> In ":"%char (chars s).
Proof.
  induction s as [|c s IH]; simpl.
  - discriminate.
  - destruct (rtpmap_here (String c s)) as [pt'|] eqn:E.
    + intros _. exact (rtpmap_here_chars _ _ E).
    + intros H. right. exact (IH H).
Qed.

Lemma rtpmap_here_digits s pt :
  rtpmap_here s = Some pt -> Forall (fun c => is_digit c = true) (chars pt).
Proof.
  unfold rtpmap_here.
  destruct (strip_prefix "a=rtpmap:" s) as [r|]; [|discriminate].
  pose proof (span_digits_digits r) as Hd.
  destruct (span_digits r) as [ds rest]. simpl in Hd.
  destruct ds; [discriminate|].
  destruct (startsWith rest " opus"); [|discriminate].
  intros H. inversion H. now subst.
Qed.

Lemma rtpmap_match_digits s pt :
  rtpmap_match s = Some pt -> Forall (fun c => is_digit c = true) (chars pt).
Proof.
  induction s as [|c s IH]; simpl.
  - discriminate.
  - destruct (rtpmap_here (String c s)) as [pt'|] eqn:E.
    + intros H. inversion H; subst. exact (rtpmap_here_digits _ _ E).
    + exact IH.
Qed.

(** Appending a text that begins with a character foreign to the regular
    expression changes no match. *)
Lemma rtpmap_here_append_sep x s :
  rtpmap_here (s +++ String ";" x) = rtpmap_here s.
Proof.
  unfold rtpmap_here.
  rewrite strip_prefix_append_sep by (simpl; intuition discriminate).
  destruct (strip_prefix "a=rtpmap:" s) as [r|]; cbn [option_map];
    [|reflexivity].
  rewrite span_digits_append_sep by reflexivity.
  destruct (span_digits r) as [ds rest]. cbn [fst snd].
  destruct ds; [reflexivity|].
  now rewrite startsWith_append_sep by (simpl; intuition discriminate).
Qed.

Lemma rtpmap_match_append_sep x s :
  ~ In ":"%char (chars (String ";" x)) ->
  rtpmap_match (s +++ String ";" x) = rtpmap_match s.
Proof.
  intros Hx. induction s as [|c s IH].
  - simpl append. destruct (rtpmap_match (String ";" x)) eqn:E.
    + apply rtpmap_match_chars in E. contradiction.
    + reflexivity.
  - change (String c s +++ String ";" x) with (String c (s +++ String ";" x)).
    cbn [rtpmap_match].
    change (String c (s +++ String ";" x)) with (String c s +++ String ";" x).
    now rewrite rtpmap_here_append_sep, IH.
Qed.

(** ** [grown] *)

Lemma grown_refl y : grown y y.
Proof. repeat split; auto. Qed.

Lemma grown_trans x y z : grown x y -> grown y z -> grown x z.
Proof.
  intros (A1 & B1 & C1 & D1 & E1) (A2 & B2 & C2 & D2 & E2).
  repeat split.
  - intros q Hq. now rewrite A2, A1.
  - congruence.
  - congruence.
  - auto.
  - auto.
Qed.

Section PolicyFacts.
Variables bitrate sampleRate : N.

Local Abbreviation suffix := (fmtp_suffix bitrate sampleRate).
Local Abbreviation tias := (bandwidth_line bitrate).

Lemma suffix_shape :
  suffix
  = String ";" ("maxaveragebitrate=" +++ decimal bitrate
                +++ ";maxplaybackrate=" +++ decimal sampleRate
                +++ ";useinbandfec=1;usedtx=1;cbr=0").
Proof. reflexivity. Qed.

Lemma suffix_chars c :
  In c (chars suffix) -> is_digit c = true \/ In c (chars suffix_letters).
Proof.
  unfold fmtp_suffix. rewrite !chars_append, !in_app_iff.
  intros [H|[H|[H|[H|H]]]].
  - right. simpl in *. tauto.
  - left. pose proof (decimal_digits bitrate) as Hd.
    rewrite Forall_forall in Hd. auto.
  - right. simpl in *. tauto.
  - left. pose proof (decimal_digits sampleRate) as Hd.
    rewrite Forall_forall in Hd. auto.
  - right. simpl in *. tauto.
Qed.

Lemma suffix_lacks c :
  is_digit c = false -> existsb (Ascii.eqb c) (chars suffix_letters) = false ->
  ~ In c (chars suffix).
Proof.
  intros Hd Hl Hin. apply suffix_chars in Hin. destruct Hin as [H|H].
  - congruence.
  - assert (existsb (Ascii.eqb c) (chars suffix_letters) = true).
    { apply existsb_exists. exists c. split; [exact H|apply Ascii.eqb_refl]. }
    congruence.
Qed.

Lemma tias_chars c :
  In c (chars tias) -> is_digit c = true \/ In c (chars "b=TIAS:").
Proof.
  unfold bandwidth_line. rewrite chars_append, in_app_iff.
  intros [H|H]; [now right|left].
  pose proof (decimal_digits bitrate) as Hd. rewrite Forall_forall in Hd. auto.
Qed.

Lemma tias_lacks c :
  is_digit c = false -> existsb (Ascii.eqb c) (chars "b=TIAS:") = false ->
  ~ In c (chars tias).
Proof.
  intros Hd Hl Hin. apply tias_chars in Hin. destruct Hin as [H|H].
  - congruence.
  - assert (existsb (Ascii.eqb c) (chars "b=TIAS:") = true).
    { apply existsb_exists. exists c. split; [exact H|apply Ascii.eqb_refl]. }
    congruence.
Qed.

(** The bandwidth line sets off nothing and is no [fmtp] line. *)
Lemma tias_not_audio : startsWith tias "m=audio" = false.
Proof. reflexivity. Qed.

Lemma tias_not_fmtp pt : startsWith tias ("a=fmtp:" +++ pt) = false.
Proof. reflexivity. Qed.

Lemma tias_not_opus : includes tias "opus/48000" = false.
Proof.
  apply (includes_missing_char _ _ "o"%char); [simpl; tauto|].
  now apply tias_lacks.
Qed.

Lemma tias_no_crlf : no_crlf tias.
Proof.
  apply (includes_missing_char _ _ LF); [simpl; tauto|].
  now apply tias_lacks.
Qed.

Lemma suffix_names_bitrate : includes suffix "maxaveragebitrate" = true.
Proof.
  rewrite suffix_shape, includes_unfold.
  replace (includes _ "maxaveragebitrate") with true; [apply orb_true_r|].
  symmetry. rewrite includes_unfold. reflexivity.
Qed.

(** A line that has received the suffix is a grown line. *)
Lemma grown_suffix y : grown y (y +++ suffix).
Proof.
  rewrite suffix_shape.
  set (x := "maxaveragebitrate=" +++ decimal bitrate
            +++ ";maxplaybackrate=" +++ decimal sampleRate
            +++ ";useinbandfec=1;usedtx=1;cbr=0").
  assert (Hs : String ";" x = suffix) by reflexivity.
  repeat split.
  - intros q Hq. now apply startsWith_append_sep.
  - apply includes_append_sep; [simpl; intuition discriminate|].
    apply (includes_missing_char _ _ "o"%char); [simpl; tauto|].
    rewrite Hs. now apply suffix_lacks.
  - apply rtpmap_match_append_sep. rewrite Hs. now apply suffix_lacks.
  - intros H. now apply includes_append_l.
  - unfold no_crlf. intros H.
    rewrite includes_append_sep; [exact H|simpl; intuition discriminate|].
    apply (includes_missing_char _ _ LF); [simpl; tauto|].
    rewrite Hs. now apply suffix_lacks.
Qed.


(** ** The inner loop *)

Lemma fmtp_prefix_plain pt :
  Forall (fun c => is_digit c = true) (chars pt) ->
  ~ In ";"%char (chars ("a=fmtp:" +++ pt)).
Proof.
  intros Hd. rewrite chars_append, in_app_iff. intros [H|H].
  - simpl in H. intuition discriminate.
  - revert H. now apply not_digit_not_in.
Qed.

Local Arguments startsWith : simpl never.
Local Arguments includes : simpl never.
Local Arguments String.append : simpl never.

Lemma patch_fmtp_length pt later :
  List.length (patch_fmtp bitrate sampleRate pt later) = List.length later.
Proof.
  induction later as [|l rest IH]; simpl; [reflexivity|].
  destruct (startsWith l ("a=fmtp:" +++ pt)); simpl; now rewrite ?IH.
Qed.

Lemma patch_fmtp_grown pt later :
  Forall2 grown later (patch_fmtp bitrate sampleRate pt later).
Proof.
  assert (Hrefl : forall l, Forall2 grown l l)
    by (induction l; constructor; auto using grown_refl).
  induction later as [|l rest IH]; simpl; [constructor|].
  destruct (startsWith l ("a=fmtp:" +++ pt)).
  - constructor; [|apply Hrefl].
    destruct (includes l "maxaveragebitrate");
      [apply grown_refl | apply grown_suffix].
  - constructor; [apply grown_refl | exact IH].
Qed.

(** Once patched for [pt], a list needs no further patch for [pt]. *)
Lemma patch_fmtp_idempotent pt later :
  patch_fmtp bitrate sampleRate pt (patch_fmtp bitrate sampleRate pt later)
  = patch_fmtp bitrate sampleRate pt later.
Proof.
  induction later as [|l rest IH]; [reflexivity|].
  cbn [patch_fmtp].
  destruct (startsWith l ("a=fmtp:" +++ pt)) eqn:Hs.
  - destruct (includes l "maxaveragebitrate") eqn:Hi; cbn [patch_fmtp].
    + now rewrite Hs, Hi.
    + rewrite (startsWith_append _ _ _ Hs).
      now rewrite (includes_append_r _ _ _ suffix_names_bitrate).
  - cbn [patch_fmtp]. now rewrite Hs, IH.
Qed.

Lemma patched_length line later :
  List.length (patched bitrate sampleRate line later) = List.length later.
Proof.
  unfold patched. destruct (includes line "opus/48000"); [|reflexivity].
  destruct (rtpmap_match line); [apply patch_fmtp_length | reflexivity].
Qed.

Lemma patched_grown line later :
  Forall2 grown later (patched bitrate sampleRate line later).
Proof.
  assert (Hrefl : forall l, Forall2 grown l l)
    by (induction l; constructor; auto using grown_refl).
  unfold patched. destruct (includes line "opus/48000"); [|apply Hrefl].
  destruct (rtpmap_match line); [apply patch_fmtp_grown | apply Hrefl].
Qed.

(** ** The outer loop *)

Lemma scan_nil todo : scan bitrate sampleRate todo [] = [].
Proof. now destruct todo. Qed.

Lemma evolved_before before before' after :
  Forall2 grown before before' -> evolved bitrate before' after ->
  evolved bitrate before after.
Proof.
  intros Hg He. revert before Hg.
  induction He as [|y y' mid after Hy He IH|mid after He IH]; intros before Hg.
  - inversion Hg. constructor.
  - inversion Hg as [|y0 ? before0 ? Hy0 Hrest]; subst.
    constructor; [exact (grown_trans _ _ _ Hy0 Hy) | now apply IH].
  - constructor. now apply IH.
Qed.

Lemma scan_evolved todo :
  forall lines,
    List.length lines <= todo ->
    evolved bitrate lines (scan bitrate sampleRate todo lines).
Proof.
  induction todo as [|todo IH]; intros lines Hlen.
  - destruct lines; [constructor | simpl in Hlen; lia].
  - destruct lines as [|line later]; [constructor|].
    cbn [scan]. simpl in Hlen.
    assert (He : evolved bitrate later
                   (scan bitrate sampleRate todo
                         (patched bitrate sampleRate line later))).
    { apply (evolved_before _ _ _ (patched_grown line later)).
      apply IH. rewrite patched_length. lia. }
    unfold pushed. destruct (startsWith line "m=audio"); simpl.
    + constructor; [apply grown_refl|]. now constructor.
    + constructor; [apply grown_refl | exact He].
Qed.

(** A list that needs no patch for [pt] still needs none after it has
    evolved. *)
Lemma evolved_settled pt before after :
  Forall (fun c => is_digit c = true) (chars pt) ->
  evolved bitrate before after ->
  patch_fmtp bitrate sampleRate pt before = before ->
  patch_fmtp bitrate sampleRate pt after = after.
Proof.
  intros Hpt He.
  induction He as [|y y' before after Hy He IH|before after He IH];
    intros Hset.
  - reflexivity.
  - destruct Hy as (Hstart & _ & _ & Hbit & _).
    cbn [patch_fmtp] in *.
    rewrite (Hstart _ (fmtp_prefix_plain pt Hpt)).
    destruct (startsWith y ("a=fmtp:" +++ pt)).
    + destruct (includes y "maxaveragebitrate") eqn:Hi.
      * now rewrite (Hbit eq_refl).
      * exfalso. inversion Hset as [Hy]. apply (append_grows y ";"%char) in Hy.
        exact Hy.
    + inversion Hset as [Hrest]. now rewrite (IH Hrest).
  - cbn [patch_fmtp]. rewrite tias_not_fmtp.
    now rewrite (IH Hset).
Qed.

Lemma patched_settled line later after :
  evolved bitrate (patched bitrate sampleRate line later) after ->
  patched bitrate sampleRate line after = after.
Proof.
  unfold patched. destruct (includes line "opus/48000"); [|reflexivity].
  destruct (rtpmap_match line) as [pt|] eqn:E; [|reflexivity].
  intros He. apply (evolved_settled pt _ _ (rtpmap_match_digits _ _ E) He).
  apply patch_fmtp_idempotent.
Qed.

Lemma patched_by_tias later : patched bitrate sampleRate tias later = later.
Proof. unfold patched. now rewrite tias_not_opus. Qed.

Lemma scan_cons todo line later :
  scan bitrate sampleRate (S todo) (line :: later)
  = pushed bitrate line
    ++ scan bitrate sampleRate todo (patched bitrate sampleRate line later).
Proof. reflexivity. Qed.

Lemma pushed_tias : pushed bitrate tias = [tias].
Proof. unfold pushed. now rewrite tias_not_audio. Qed.

Lemma with_bandwidth_cons line lines :
  with_bandwidth bitrate (line :: lines)
  = pushed bitrate line ++ with_bandwidth bitrate lines.
Proof. reflexivity. Qed.

(** A second pass over the result of a pass patches nothing: it only
    inserts bandwidth lines. *)
Lemma scan_scan todo :
  forall lines again,
    List.length lines <= todo ->
    List.length (scan bitrate sampleRate todo lines) <= again ->
    scan bitrate sampleRate again (scan bitrate sampleRate todo lines)
    = with_bandwidth bitrate (scan bitrate sampleRate todo lines).
Proof.
  induction todo as [|todo IH]; intros lines again Hlen Hagain.
  - destruct lines; simpl; apply scan_nil.
  - destruct lines as [|line later]; [apply scan_nil|].
    rewrite scan_cons in *. simpl in Hlen.
    set (later' := patched bitrate sampleRate line later) in *.
    assert (Hl : List.length later' <= todo)
      by (unfold later'; rewrite patched_length; lia).
    pose proof (scan_evolved todo later' Hl) as He.
    set (R := scan bitrate sampleRate todo later') in *.
    assert (Hrec : forall m, List.length R <= m ->
                             scan bitrate sampleRate m R
                             = with_bandwidth bitrate R)
      by (intros m Hm; apply IH; assumption).
    pose proof (patched_settled line later R He) as Hquiet.
    assert (Hq : patched bitrate sampleRate line (tias :: R) = tias :: R).
    { unfold patched in *. destruct (includes line "opus/48000");
        [|reflexivity].
      destruct (rtpmap_match line); [|reflexivity].
      cbn [patch_fmtp]. rewrite tias_not_fmtp. now rewrite Hquiet. }
    assert (Hp : pushed bitrate line = [line; tias]
                 \/ pushed bitrate line = [line])
      by (unfold pushed; destruct (startsWith line "m=audio"); auto).
    destruct Hp as [Hp|Hp]; rewrite Hp in *; cbn [app] in *.
    + destruct again as [|[|again]]; simpl in Hagain; try lia.
      rewrite scan_cons, Hq, scan_cons, patched_by_tias.
      rewrite !with_bandwidth_cons, Hp, pushed_tias.
      rewrite Hrec by lia. reflexivity.
    + destruct again as [|again]; simpl in Hagain; try lia.
      rewrite scan_cons, Hquiet, with_bandwidth_cons, Hp.
      rewrite Hrec by lia. reflexivity.
Qed.


(** ** The whole function *)

Lemma evolved_no_crlf before after :
  evolved bitrate before after ->
  Forall no_crlf before -> Forall no_crlf after.
Proof.
  induction 1 as [|y y' before after Hy He IH|before after He IH];
    intros Hall.
  - constructor.
  - inversion Hall; subst. destruct Hy as (_ & _ & _ & _ & Hcr).
    constructor; auto.
  - constructor; [apply tias_no_crlf | auto].
Qed.

Lemma evolved_no_audio before after :
  evolved bitrate before after ->
  Forall (fun l => startsWith l "m=audio" = false) before ->
  Forall (fun l => startsWith l "m=audio" = false) after.
Proof.
  induction 1 as [|y y' before after Hy He IH|before after He IH];
    intros Hall.
  - constructor.
  - inversion Hall; subst. destruct Hy as (Hstart & _).
    constructor; [|auto].
    rewrite Hstart; [assumption|]. simpl. intuition discriminate.
  - constructor; [apply tias_not_audio | auto].
Qed.

Lemma with_bandwidth_no_audio lines :
  Forall (fun l => startsWith l "m=audio" = false) lines ->
  with_bandwidth bitrate lines = lines.
Proof.
  induction 1 as [|l rest Hl Hrest IH]; [reflexivity|].
  rewrite with_bandwidth_cons, IH. unfold pushed. now rewrite Hl.
Qed.

Lemma existsb_false {A : Type} (f : A -> bool) l :
  existsb f l = false -> Forall (fun x => f x = false) l.
Proof.
  induction l as [|x l IH]; simpl; [constructor|].
  intros H. apply orb_false_elim in H. destruct H. constructor; auto.
Qed.

Lemma scan_not_nil lines :
  lines <> [] -> scan bitrate sampleRate (List.length lines) lines <> [].
Proof. destruct lines; [congruence | discriminate]. Qed.

(** The lines of the rewritten text are the lines the loop produced. *)
Lemma split_setAudioBitrate sdp :
  split (setAudioBitrate bitrate sampleRate sdp)
  = scan bitrate sampleRate (List.length (split sdp)) (split sdp).
Proof.
  unfold setAudioBitrate. apply split_join.
  - apply scan_not_nil, split_not_nil.
  - apply (evolved_no_crlf (split sdp)).
    + now apply scan_evolved.
    + apply split_no_crlf.
Qed.

(** Without a matching codec line the loop patches nothing. *)
Lemma scan_without_codec todo :
  forall lines,
    List.length lines <= todo ->
    Forall (fun l => (includes l "opus/48000"
                      && match rtpmap_match l with
                         | Some _ => true
                         | None => false
                         end)%bool = false) lines ->
    scan bitrate sampleRate todo lines = with_bandwidth bitrate lines.
Proof.
  induction todo as [|todo IH]; intros lines Hlen Hall.
  - destruct lines; [reflexivity | simpl in Hlen; lia].
  - destruct lines as [|line later]; [reflexivity|].
    inversion Hall as [|? ? Hline Hlater]; subst. simpl in Hlen.
    rewrite scan_cons, with_bandwidth_cons. f_equal.
    assert (Hp : patched bitrate sampleRate line later = later).
    { unfold patched. destruct (includes line "opus/48000"); [|reflexivity].
      destruct (rtpmap_match line); [discriminate | reflexivity]. }
    rewrite Hp. apply IH; [lia | exact Hlater].
Qed.

Lemma evolved_keeps_audio before after :
  evolved bitrate before after ->
  Exists (fun l => startsWith l "m=audio" = true) before ->
  Exists (fun l => startsWith l "m=audio" = true) after.
Proof.
  induction 1 as [|y y' before after Hy He IH|before after He IH];
    intros Hex.
  - inversion Hex.
  - destruct Hy as (Hstart & _).
    inversion Hex as [? ? Hhead|? ? Htail]; subst.
    + apply Exists_cons_hd. rewrite Hstart; [assumption|].
      simpl. intuition discriminate.
    + apply Exists_cons_tl. auto.
  - apply Exists_cons_tl. auto.
Qed.

Lemma with_bandwidth_length lines :
  List.length lines <= List.length (with_bandwidth bitrate lines).
Proof.
  induction lines as [|l rest IH]; [reflexivity|].
  rewrite with_bandwidth_cons, length_app. unfold pushed.
  destruct (startsWith l "m=audio"); simpl; lia.
Qed.

Lemma with_bandwidth_longer lines :
  Exists (fun l => startsWith l "m=audio" = true) lines ->
  List.length lines < List.length (with_bandwidth bitrate lines).
Proof.
  induction 1 as [l rest Hl|l rest Hex IH];
    rewrite with_bandwidth_cons, length_app; unfold pushed.
  - rewrite Hl. pose proof (with_bandwidth_length rest). simpl. lia.
  - destruct (startsWith l "m=audio"); simpl; lia.
Qed.

Lemma with_bandwidth_no_crlf lines :
  Forall no_crlf lines -> Forall no_crlf (with_bandwidth bitrate lines).
Proof.
  induction 1 as [|l rest Hl Hrest IH]; [constructor|].
  rewrite with_bandwidth_cons. unfold pushed.
  destruct (startsWith l "m=audio"); simpl.
  - constructor; [exact Hl|]. constructor; [apply tias_no_crlf | exact IH].
  - constructor; assumption.
Qed.

(** C2 (amended).  A second application of [setAudioBitrate] with the same
    arguments appends no [fmtp] parameters and changes no line of the
    first result: it only inserts one more [b=TIAS] line after every audio
    media line.  So the rewrite is idempotent on a description without an
    audio media line, and on no other. *)
Theorem second_pass_only_adds_bandwidth (sdp : string) :
  setAudioBitrate bitrate sampleRate
    (setAudioBitrate bitrate sampleRate sdp)
  = join_crlf (with_bandwidth bitrate
            (split (setAudioBitrate bitrate sampleRate sdp)))
  /\ (has_audio_line sdp = false ->
      setAudioBitrate bitrate sampleRate
        (setAudioBitrate bitrate sampleRate sdp)
      = setAudioBitrate bitrate sampleRate sdp)
  /\ (has_audio_line sdp = true ->
      setAudioBitrate bitrate sampleRate
        (setAudioBitrate bitrate sampleRate sdp)
      <> setAudioBitrate bitrate sampleRate sdp).
Proof.
  assert (Hfirst :
            setAudioBitrate bitrate sampleRate
              (setAudioBitrate bitrate sampleRate sdp)
            = join_crlf (with_bandwidth bitrate
                      (split (setAudioBitrate bitrate sampleRate sdp)))).
  { unfold setAudioBitrate at 1. rewrite split_setAudioBitrate. f_equal.
    apply scan_scan; lia. }
  pose proof (scan_evolved (List.length (split sdp)) (split sdp)
                (Nat.le_refl _)) as He.
  split; [exact Hfirst|]. split.
  - intros Hno. rewrite Hfirst, with_bandwidth_no_audio.
    + apply join_split.
    + rewrite split_setAudioBitrate.
      apply (evolved_no_audio (split sdp) _ He).
      apply existsb_false. exact Hno.
  - intros Hyes Heq. rewrite Hfirst in Heq.
    apply (f_equal split) in Heq.
    rewrite split_setAudioBitrate in Heq.
    set (R := scan bitrate sampleRate (List.length (split sdp)) (split sdp))
      in *.
    assert (Hcr : Forall no_crlf R)
      by (apply (evolved_no_crlf (split sdp) _ He), split_no_crlf).
    assert (Hne : R <> []) by apply scan_not_nil, split_not_nil.
    assert (Hex : Exists (fun l => startsWith l "m=audio" = true) R).
    { apply (evolved_keeps_audio (split sdp) _ He).
      unfold has_audio_line in Hyes. apply existsb_exists in Hyes.
      apply Exists_exists. exact Hyes. }
    pose proof (with_bandwidth_longer R Hex) as Hlen.
    rewrite split_join in Heq.
    + rewrite Heq in Hlen. lia.
    + intros E. rewrite E in Hlen. simpl in Hlen. lia.
    + now apply with_bandwidth_no_crlf.
Qed.

(** C3 (amended).  A description without a matching Opus [rtpmap] line
    comes back with its lines unchanged and a [b=TIAS] line inserted after
    every audio media line; when it has no audio media line either, it
    comes back unchanged. *)
Theorem unchanged_without_audio_and_opus (sdp : string) :
  has_opus_rtpmap sdp = false ->
  setAudioBitrate bitrate sampleRate sdp
  = join_crlf (with_bandwidth bitrate (split sdp))
  /\ (has_audio_line sdp = false ->
      setAudioBitrate bitrate sampleRate sdp = sdp).
Proof.
  intros Hno.
  assert (Hfirst : setAudioBitrate bitrate sampleRate sdp
                   = join_crlf (with_bandwidth bitrate (split sdp))).
  { unfold setAudioBitrate. f_equal.
    apply scan_without_codec; [lia|]. apply existsb_false. exact Hno. }
  split; [exact Hfirst|].
  intros Haudio. rewrite Hfirst, with_bandwidth_no_audio.
  - apply join_split.
  - apply existsb_false. exact Haudio.
Qed.

End PolicyFacts.


Lemma second_pass_only_adds_bandwidth_witness :
  has_audio_line codec_lines_only = false
  /\ setAudioBitrate 16000 16000 (setAudioBitrate 16000 16000 codec_lines_only)
     = setAudioBitrate 16000 16000 codec_lines_only.
Proof.
  split; [reflexivity|].
  apply (proj1 (proj2 (second_pass_only_adds_bandwidth
                         16000 16000 codec_lines_only))).
  reflexivity.
Defined.

(** C2 as stated fails: on an ordinary offer the second application
    inserts a second [b=TIAS] line. *)
Lemma rewrite_twice_differs :
  setAudioBitrate 16000 16000 (setAudioBitrate 16000 16000 opus_offer)
  <> setAudioBitrate 16000 16000 opus_offer
  /\ split (setAudioBitrate 16000 16000
              (setAudioBitrate 16000 16000 opus_offer))
     = [ "v=0";
         "m=audio 9 UDP/TLS/RTP/SAVPF 111 0";
         "b=TIAS:16000";
         "b=TIAS:16000";
         "a=rtpmap:111 opus/48000/2";
         "a=fmtp:111 minptime=10;useinbandfec=1;maxaveragebitrate=16000;maxplaybackrate=16000;useinbandfec=1;usedtx=1;cbr=0";
         "a=rtpmap:0 PCMU/8000";
         "" ].
Proof.
  split; [|vm_compute; reflexivity].
  apply String.eqb_neq. vm_compute. reflexivity.
Qed.

Lemma unchanged_without_audio_and_opus_witness :
  has_opus_rtpmap "v=0" = false
  /\ setAudioBitrate 16000 16000 "v=0" = "v=0".
Proof.
  split; [reflexivity|].
  apply (proj2 (unchanged_without_audio_and_opus 16000 16000 "v=0" eq_refl)).
  reflexivity.
Defined.

(** C3 as stated fails on both sides of its "or": a description with an
    audio media line and no Opus codec gets the [b=TIAS] line, and one
    with the codec lines and no audio media line gets its [fmtp] line
    extended. *)
Lemma changed_with_one_of_them_absent :
  (has_opus_rtpmap pcmu_offer = false
   /\ setAudioBitrate 16000 16000 pcmu_offer <> pcmu_offer)
  /\ (has_audio_line codec_lines_only = false
      /\ setAudioBitrate 16000 16000 codec_lines_only <> codec_lines_only).
Proof.
  split; (split; [reflexivity|]);
    apply String.eqb_neq; vm_compute; reflexivity.
Qed.

End CodecFacts.

(* ================================================================== *)
(** * Facts about the hub *)
(* ================================================================== *)

Module HubFacts.
Import JS JSFacts Hub HubSpec.

(** ** The store of socket fields *)

Lemma own_store_field s o h s' :
  own s' (store_field s o h)
  = if String.eqb s' s then Some o else own s' h.
Proof.
  induction h as [|[s0 o0] rest IH]; simpl.
  - reflexivity.
  - case_eqb s s0; simpl.
    + now destruct (String.eqb s' s0).
    + rewrite IH. eqb_cases.
Qed.

Lemma store_field_same s o h : own s h = Some o -> store_field s o h = h.
Proof.
  induction h as [|[s0 o0] rest IH]; simpl; [discriminate|].
  case_eqb s s0.
  - intros H. now inversion H.
  - intros H. now rewrite (IH H).
Qed.

Lemma socket_channels_with s o st s' :
  socket_channels (with_socket_channels s o st) s'
  = if String.eqb s' s then o else socket_channels st s'.
Proof.
  unfold socket_channels, with_socket_channels. simpl.
  rewrite own_store_field. now destruct (String.eqb s' s).
Qed.

Lemma with_socket_channels_same s st :
  has_own s (socket_fields st) = true ->
  with_socket_channels s (socket_channels st s) st = st.
Proof.
  intros H. apply has_own_true in H. destruct H as [o Ho].
  unfold with_socket_channels, socket_channels. rewrite Ho.
  rewrite (store_field_same _ _ _ Ho). now destruct st.
Qed.

Lemma has_own_store_field s o h s' :
  has_own s' h = true -> has_own s' (store_field s o h) = true.
Proof.
  unfold has_own. rewrite own_store_field.
  now destruct (String.eqb s' s).
Qed.

(** ** The three shapes of [part] *)

Lemma part_rejected s c st :
  has_in c (socket_channels st s) = false -> part s c st = done st [].
Proof. unfold part. now intros ->. Qed.

Lemma part_member s c st :
  consistent st -> has_own c (socket_channels st s) = true ->
  exists r,
    own c (channels st) = Some r /\ own s r = Some s
    /\ part s c st = done (after_part s c r st) (farewell s (delete s r)).
Proof.
  intros Hc Hm.
  destruct (membership_sound st Hc s c Hm) as (Hinh & r & Hr & Hs).
  exists r. split; [exact Hr|]. split; [exact Hs|].
  unfold part. rewrite (has_in_own _ _ Hm). simpl.
  rewrite (get_own _ _ _ Hr). reflexivity.
Qed.

Lemma builtin_not_registered c st :
  consistent st -> inherited c = true -> own c (channels st) = None.
Proof.
  intros Hc Hinh. destruct (own c (channels st)) as [r|] eqn:Hr; auto.
  exfalso. pose proof (inhabited st Hc c r Hr) as Hne.
  destruct r as [|[id t] rest]; [congruence|].
  assert (Hid : own id ((id, t) :: rest) = Some t)
    by (simpl; now rewrite String.eqb_refl).
  destruct (roster_sound st Hc c _ id t Hr Hid) as (_ & Hm & _).
  destruct (membership_sound st Hc id c Hm) as (Hno & _). congruence.
Qed.

Lemma part_builtin s c st :
  consistent st -> has_own s (socket_fields st) = true ->
  has_own c (socket_channels st s) = false -> inherited c = true ->
  part s c st = done st [].
Proof.
  intros Hc Hf Hm Hinh. unfold part.
  assert (Hin : has_in c (socket_channels st s) = true).
  { unfold has_in, get. apply has_own_false in Hm. now rewrite Hm, Hinh. }
  rewrite Hin. simpl. rewrite (delete_absent _ _ Hm).
  rewrite (with_socket_channels_same _ _ Hf).
  unfold get. now rewrite (builtin_not_registered c st Hc Hinh), Hinh.
Qed.


(** ** [part] keeps the state consistent *)

Lemma socket_channels_after_part s c r st s' :
  socket_channels (after_part s c r st) s'
  = if String.eqb s' s then delete c (socket_channels st s)
    else socket_channels st s'.
Proof.
  unfold after_part.
  now rewrite <- (socket_channels_with s _ st s').
Qed.

Lemma consistent_after_part s c r st :
  consistent st -> has_own c (socket_channels st s) = true ->
  own c (channels st) = Some r -> own s r = Some s ->
  consistent (after_part s c r st).
Proof.
  intros Hc Hm Hr Hs.
  assert (Hown : forall c' r',
             own c' (channels (after_part s c r st)) = Some r' ->
             (c' = c /\ r' = delete s r /\ keys r' <> [])
             \/ (c' <> c /\ own c' (channels st) = Some r')).
  { intros c' r'. unfold after_part. simpl.
    destruct (keys (delete s r)) eqn:Hk.
    - rewrite own_delete. case_eqb c' c. auto.
    - rewrite own_set. case_eqb c' c.
      + intros H. inversion H; subst. left. rewrite Hk. repeat split.
        discriminate.
      + auto. }
  pose proof (socket_channels_after_part s c r st) as Hsc.
  constructor.
  - intros c' r' H. destruct (Hown _ _ H) as [(-> & -> & Hk)|(Hne & Ho)].
    + intros E. apply Hk. now rewrite E.
    + exact (inhabited st Hc _ _ Ho).
  - intros c' r' H. destruct (Hown _ _ H) as [(-> & -> & Hk)|(Hne & Ho)].
    + apply nodup_keys_delete. exact (roster_nodup st Hc _ _ Hr).
    + exact (roster_nodup st Hc _ _ Ho).
  - intros c' r' id t H Hid. rewrite Hsc.
    destruct (Hown _ _ H) as [(-> & -> & Hk)|(Hne & Ho)].
    + rewrite own_delete in Hid. case_eqb id s.
      destruct (roster_sound st Hc _ _ _ _ Hr Hid) as (-> & H1 & H2).
      case_eqb id s. auto.
    + destruct (roster_sound st Hc _ _ _ _ Ho Hid) as (-> & H1 & H2).
      repeat split; auto.
      case_eqb id s; auto. rewrite has_own_delete, H1. now case_eqb c' c.
  - intros s' c' H. rewrite Hsc in H.
    assert (Hold : has_own c' (socket_channels st s') = true
                   /\ (s' = s -> c' <> c)).
    { case_eqb s' s.
      - rewrite has_own_delete in H. apply andb_prop in H.
        destruct H as [H1 H2]. split; auto. intros _ ->.
        now rewrite String.eqb_refl in H1.
      - split; [exact H | congruence]. }
    destruct Hold as [Hold Hdiff].
    destruct (membership_sound st Hc s' c' Hold) as (Hinh & r' & Ho & Hs').
    split; [exact Hinh|]. unfold after_part. simpl.
    destruct (String.eqb_spec c' c) as [->|Hne].
    + assert (r' = r) by congruence. subst r'.
      assert (Hss : s' <> s) by (intros ->; now apply Hdiff).
      assert (Hd : own s' (delete s r) = Some s').
      { rewrite own_delete. now case_eqb s' s. }
      exists (delete s r). split; [|exact Hd].
      destruct (keys (delete s r)) eqn:Hk.
      * unfold keys in Hk. apply map_eq_nil in Hk. rewrite Hk in Hd.
        discriminate.
      * apply own_set_same.
    + exists r'. split; [|exact Hs'].
      destruct (keys (delete s r)).
      * rewrite own_delete. now case_eqb c' c.
      * now rewrite own_set_other.
  - intros s'. rewrite Hsc. case_eqb s' s.
    + apply nodup_keys_delete. apply (membership_nodup st Hc).
    + apply (membership_nodup st Hc).
  - exact (connected_valid st Hc).
  - intros s' H. unfold after_part. simpl. apply has_own_store_field.
    exact (connected_field st Hc s' H).
Qed.

Lemma part_consistent s c st :
  consistent st -> has_own s (socket_fields st) = true ->
  consistent (final (part s c st)) /\ threw (part s c st) = false.
Proof.
  intros Hc Hf.
  destruct (has_own c (socket_channels st s)) eqn:Hm.
  - destruct (part_member s c st Hc Hm) as (r & Hr & Hs & ->). simpl.
    split; [now apply consistent_after_part | reflexivity].
  - destruct (inherited c) eqn:Hinh.
    + rewrite (part_builtin s c st Hc Hf Hm Hinh). auto.
    + rewrite part_rejected; [auto|]. now apply has_in_false.
Qed.

(** What [part] does to the membership set of the leaving socket, and
    that it leaves the other sockets' sets alone. *)
Lemma part_membership s c st s' c' :
  has_own c' (socket_channels (final (part s c st)) s')
  = if String.eqb s' s
    then (negb (String.eqb c' c) && has_own c' (socket_channels st s))%bool
    else has_own c' (socket_channels st s').
Proof.
  unfold part. destruct (has_in c (socket_channels st s)) eqn:Hin; simpl.
  - assert (E : forall x,
               socket_channels
                 (with_socket_channels s (delete c (socket_channels st s)) st)
                 x
               = if String.eqb x s then delete c (socket_channels st s)
                 else socket_channels st x)
      by (intros x; apply socket_channels_with).
    destruct (get c (channels st)); simpl;
      (etransitivity; [apply f_equal; apply (E s')|]);
      destruct (String.eqb s' s); auto using has_own_delete.
  - apply has_in_false in Hin. destruct Hin as [Hown _].
    case_eqb s' s. case_eqb c' c; simpl; auto.
Qed.

Lemma part_keeps_fields s c st s' :
  has_own s' (socket_fields st) = true ->
  has_own s' (socket_fields (final (part s c st))) = true.
Proof.
  intros H. unfold part.
  destruct (has_in c (socket_channels st s)); simpl; [|exact H].
  destruct (get c (channels st)); simpl; now apply has_own_store_field.
Qed.


(** ** [join] *)

Lemma roster_at_lazy channel st :
  roster_at channel
    (if has_in channel (channels st) then channels st
     else set channel empty (channels st))
  = roster_at channel (channels st).
Proof.
  destruct (has_in channel (channels st)) eqn:Hin; [reflexivity|].
  apply has_in_false in Hin. destruct Hin as [Hown _].
  apply has_own_false in Hown. unfold roster_at.
  now rewrite own_set_same, Hown.
Qed.

Lemma join_rejected s config st :
  ~ join_accepted st s config -> join s config st = done st [].
Proof.
  unfold join_accepted, join. intros H.
  destruct (truthy (jc_channel config)); simpl; [|reflexivity].
  destruct (has_in (jc_channel config) (socket_channels st s));
    [reflexivity | tauto].
Qed.

Lemma join_emitted s config st :
  join_accepted st s config ->
  emitted (join s config st)
  = introduce s (join_usernames s config st)
              (roster_at (jc_channel config) (channels st))
    ++ [(s, UserList
              (map (fun id => (id, name_of (join_usernames s config st) id))
                   (keys (set s s (roster_at (jc_channel config)
                                              (channels st))))))].
Proof.
  intros [Ht Hin]. unfold join. rewrite Ht, Hin. simpl.
  now rewrite roster_at_lazy.
Qed.

Lemma join_channels s config st c :
  join_accepted st s config ->
  own c (channels (final (join s config st)))
  = if String.eqb c (jc_channel config)
    then Some (set s s (roster_at (jc_channel config) (channels st)))
    else own c (channels st).
Proof.
  intros [Ht Hin]. unfold join. rewrite Ht, Hin. simpl.
  rewrite roster_at_lazy, own_set. case_eqb c (jc_channel config).
  destruct (has_in (jc_channel config) (channels st)); [reflexivity|].
  now apply own_set_other.
Qed.

Lemma join_socket_channels s config st s' :
  join_accepted st s config ->
  socket_channels (final (join s config st)) s'
  = if String.eqb s' s
    then set (jc_channel config) (jc_channel config) (socket_channels st s)
    else socket_channels st s'.
Proof.
  intros [Ht Hin]. unfold join. rewrite Ht, Hin. simpl.
  now rewrite <- (socket_channels_with s _ st s').
Qed.

Lemma join_sockets s config st :
  sockets (final (join s config st)) = sockets st.
Proof.
  unfold join. destruct (truthy (jc_channel config)); simpl; [|reflexivity].
  now destruct (has_in (jc_channel config) (socket_channels st s)).
Qed.

Lemma join_keeps_fields s config st s' :
  has_own s' (socket_fields st) = true ->
  has_own s' (socket_fields (final (join s config st))) = true.
Proof.
  intros H. unfold join.
  destruct (truthy (jc_channel config)); simpl; [|exact H].
  destruct (has_in (jc_channel config) (socket_channels st s)); simpl;
    [exact H | now apply has_own_store_field].
Qed.

Lemma roster_at_own channel st r :
  own channel (channels st) = Some r -> roster_at channel (channels st) = r.
Proof. unfold roster_at. now intros ->. Qed.

Lemma own_roster_at channel st id t :
  own id (roster_at channel (channels st)) = Some t ->
  own channel (channels st) = Some (roster_at channel (channels st)).
Proof.
  unfold roster_at. destruct (own channel (channels st)); [auto|discriminate].
Qed.

Lemma join_consistent s config st :
  consistent st -> has_own s (sockets st) = true ->
  consistent (final (join s config st)).
Proof.
  intros Hc Hs.
  destruct (truthy (jc_channel config)) eqn:Ht;
    [|now rewrite join_rejected
        by (unfold join_accepted; intuition congruence)].
  destruct (has_in (jc_channel config) (socket_channels st s)) eqn:Hin;
    [now rewrite join_rejected
       by (unfold join_accepted; intuition congruence)|].
  assert (Ha : join_accepted st s config) by (split; assumption).
  apply has_in_false in Hin. destruct Hin as [Hnew Hplain].
  assert (Hr0 : forall id t,
             own id (roster_at (jc_channel config) (channels st)) = Some t ->
             own (jc_channel config) (channels st)
             = Some (roster_at (jc_channel config) (channels st))).
  { intros id t H. exact (own_roster_at (jc_channel config) st id t H). }
  assert (Hnd0 : NoDup (keys (roster_at (jc_channel config) (channels st)))).
  { unfold roster_at.
    destruct (own (jc_channel config) (channels st)) as [r|] eqn:Hr.
    - exact (roster_nodup st Hc _ _ Hr).
    - constructor. }
  constructor.
  - intros c r H. rewrite (join_channels s config st c Ha) in H.
    destruct (String.eqb_spec c (jc_channel config)).
    + inversion H. apply set_not_nil.
    + exact (inhabited st Hc _ _ H).
  - intros c r H. rewrite (join_channels s config st c Ha) in H.
    destruct (String.eqb_spec c (jc_channel config)).
    + inversion H. now apply nodup_keys_set.
    + exact (roster_nodup st Hc _ _ H).
  - intros c r id t H Hid. rewrite (join_channels s config st c Ha) in H.
    rewrite join_sockets, (join_socket_channels s config st id Ha).
    destruct (String.eqb_spec c (jc_channel config)) as [->|Hne].
    + inversion H; subst r. rewrite own_set in Hid.
      destruct (String.eqb_spec id s) as [->|Hids].
      * inversion Hid; subst t. repeat split; auto.
        rewrite has_own_set. now rewrite String.eqb_refl.
      * destruct (roster_sound st Hc _ _ _ _ (Hr0 _ _ Hid) Hid)
          as (-> & H1 & H2). auto.
    + destruct (roster_sound st Hc _ _ _ _ H Hid) as (-> & H1 & H2).
      repeat split; auto. destruct (String.eqb_spec id s) as [->|Hids]; auto.
      rewrite has_own_set, H1. apply orb_true_r.
  - intros s' c H. rewrite (join_socket_channels s config st s' Ha) in H.
    rewrite (join_channels s config st c Ha).
    destruct (String.eqb_spec c (jc_channel config)) as [->|Hne].
    + split; [exact Hplain|].
      exists (set s s (roster_at (jc_channel config) (channels st))).
      split; [reflexivity|].
      rewrite own_set.
      destruct (String.eqb_spec s' s) as [E|Hss]; [now subst s'|].
      destruct (membership_sound st Hc s' (jc_channel config) H)
        as (_ & r & Hr & Hs').
      now rewrite (roster_at_own _ _ _ Hr).
    + apply (membership_sound st Hc s').
      destruct (String.eqb_spec s' s) as [->|Hss]; auto.
      rewrite has_own_set in H. apply orb_prop in H. destruct H as [H|H]; auto.
      apply String.eqb_eq in H. contradiction.
  - intros s'. rewrite (join_socket_channels s config st s' Ha).
    destruct (String.eqb s' s).
    + apply nodup_keys_set. apply (membership_nodup st Hc).
    + apply (membership_nodup st Hc).
  - intros s'. rewrite join_sockets. apply (connected_valid st Hc).
  - intros s'. rewrite join_sockets. intros H. apply join_keeps_fields.
    exact (connected_field st Hc s' H).
Qed.


Lemma part_sockets s c st : sockets (final (part s c st)) = sockets st.
Proof.
  unfold part. destruct (has_in c (socket_channels st s)); simpl; auto.
  now destruct (get c (channels st)).
Qed.

(** ** The other handlers *)

Lemma connection_consistent s st :
  consistent st -> valid_id s -> has_own s (sockets st) = false ->
  consistent (final (connection s st)).
Proof.
  intros Hc Hv Hnew. unfold connection. simpl.
  assert (Hsc : forall s',
             socket_channels
               (with_sockets (set s s (sockets st))
                  (with_socket_channels s empty st)) s'
             = if String.eqb s' s then [] else socket_channels st s').
  { intros s'. exact (socket_channels_with s empty st s'). }
  constructor; simpl.
  - exact (inhabited st Hc).
  - exact (roster_nodup st Hc).
  - intros c r id t Hr Hid. rewrite Hsc, has_own_set.
    destruct (roster_sound st Hc _ _ _ _ Hr Hid) as (-> & H1 & H2).
    case_eqb id s. rewrite H1, H2. now rewrite orb_true_r.
  - intros s' c H. rewrite Hsc in H. case_eqb s' s.
    + discriminate.
    + exact (membership_sound st Hc s' c H).
  - intros s'. rewrite Hsc. case_eqb s' s.
    + constructor.
    + apply (membership_nodup st Hc).
  - intros s'. rewrite has_own_set. case_eqb s' s. simpl.
    apply (connected_valid st Hc).
  - intros s'. rewrite has_own_set. unfold has_own at 2.
    rewrite own_store_field. case_eqb s' s. simpl.
    apply (connected_field st Hc).
Qed.

Lemma setUsername_consistent s u st :
  consistent st -> consistent (final (setUsername s u st)).
Proof. intros Hc. destruct Hc. constructor; assumption. Qed.

Lemma final_chatMessage s c m clock st : final (chatMessage s c m clock st) = st.
Proof.
  unfold chatMessage. destruct (negb (truthy c)); [reflexivity|].
  now destruct (get c (channels st)).
Qed.

Lemma final_status wrap s c b st : final (status wrap s c b st) = st.
Proof.
  unfold status. destruct (negb (truthy c)); [reflexivity|].
  now destruct (get c (channels st)).
Qed.

Lemma final_relay wrap s p b st : final (relay wrap s p b st) = st.
Proof. unfold relay. now destruct (get p (sockets st)). Qed.

(** ** [disconnect] *)

Lemma part_each_consistent s pending :
  forall st out,
    consistent st -> has_own s (socket_fields st) = true ->
    consistent (final (part_each s pending st out))
    /\ threw (part_each s pending st out) = false
    /\ sockets (final (part_each s pending st out)) = sockets st
    /\ (forall s', has_own s' (socket_fields st) = true ->
                   has_own s' (socket_fields
                                 (final (part_each s pending st out))) = true)
    /\ (forall c,
           has_own c (socket_channels (final (part_each s pending st out)) s)
           = true ->
           has_own c (socket_channels st s) = true /\ ~ In c pending).
Proof.
  induction pending as [|c rest IH]; intros st out Hc Hf; simpl.
  - refine (conj Hc (conj eq_refl (conj eq_refl (conj _ _)))); auto.
  - destruct (has_own c (socket_channels st s)) eqn:Hlive.
    + destruct (part_consistent s c st Hc Hf) as [Hc' Hno]. rewrite Hno.
      destruct (IH (final (part s c st)) (out ++ emitted (part s c st)) Hc'
                  (part_keeps_fields s c st s Hf))
        as (H1 & H2 & H3 & H4 & H5).
      refine (conj H1 (conj H2 (conj _ (conj _ _)))).
      * now rewrite H3, part_sockets.
      * intros s' Hs'. apply H4. now apply part_keeps_fields.
      * intros c0 H. destruct (H5 _ H) as [Hm Hn].
        rewrite part_membership in Hm.
        rewrite String.eqb_refl in Hm. apply andb_prop in Hm.
        destruct Hm as [Hne Hm]. split; [exact Hm|].
        intros [E|Hin]; [|tauto].
        subst c0. now rewrite String.eqb_refl in Hne.
    + destruct (IH st out Hc Hf) as (H1 & H2 & H3 & H4 & H5).
      refine (conj H1 (conj H2 (conj H3 (conj H4 _)))).
      intros c0 H. destruct (H5 _ H) as [Hm Hn]. split; [exact Hm|].
      intros [E|Hin]; [|tauto]. congruence.
Qed.

Lemma purge_consistent s st :
  consistent st ->
  (forall c, has_own c (socket_channels st s) = false) ->
  consistent (purge s st).
Proof.
  intros Hc Hout. constructor; simpl.
  - exact (inhabited st Hc).
  - exact (roster_nodup st Hc).
  - intros c r id t Hr Hid.
    destruct (roster_sound st Hc _ _ _ _ Hr Hid) as (-> & H1 & H2).
    refine (conj eq_refl (conj H1 _)). rewrite has_own_delete, H2.
    destruct (String.eqb_spec id s) as [E|Hne]; [|reflexivity].
    rewrite E, Hout in H1. discriminate.
  - exact (membership_sound st Hc).
  - exact (membership_nodup st Hc).
  - intros s'. rewrite has_own_delete. intros H. apply andb_prop in H.
    now apply (connected_valid st Hc).
  - intros s'. rewrite has_own_delete. intros H. apply andb_prop in H.
    now apply (connected_field st Hc).
Qed.

Lemma disconnect_consistent s st :
  consistent st -> has_own s (socket_fields st) = true ->
  consistent (final (disconnect s st)) /\ threw (disconnect s st) = false.
Proof.
  intros Hc Hf. unfold disconnect.
  destruct (part_each_consistent s (keys (socket_channels st s)) st [] Hc Hf)
    as (H1 & H2 & H3 & H4 & H5).
  rewrite H2. simpl. split; [|reflexivity].
  apply purge_consistent; [exact H1|].
  intros c.
  destruct (has_own c (socket_channels
                         (final (part_each s (keys (socket_channels st s))
                                           st [])) s)) eqn:E; [|reflexivity].
  destruct (H5 c E) as [Hm Hn]. exfalso. apply Hn. now apply in_keys.
Qed.

(** ** Every state of a run is consistent *)

Lemma handle_consistent s r st :
  consistent st -> has_own s (sockets st) = true ->
  consistent (final (handle s r st)).
Proof.
  intros Hc Hs. pose proof (connected_field st Hc s Hs) as Hf.
  destruct r; simpl.
  - now apply setUsername_consistent.
  - now rewrite final_chatMessage.
  - now apply join_consistent.
  - now apply part_consistent.
  - unfold relayICECandidate. now rewrite final_relay.
  - unfold relaySessionDescription. now rewrite final_relay.
  - unfold muteStatus. now rewrite final_status.
  - unfold speakingStatus. now rewrite final_status.
  - now apply disconnect_consistent.
Qed.

Lemma initial_consistent : consistent initial.
Proof.
  constructor; simpl; try discriminate.
  intros s. constructor.
Qed.

Lemma reachable_consistent st : reachable st -> consistent st.
Proof.
  induction 1 as [|st st' Hr IH Hstep].
  - exact initial_consistent.
  - destruct Hstep.
    + now apply connection_consistent.
    + now apply handle_consistent.
Qed.


(** ** Who receives what from a fan-out *)

Lemma roster_ok_consistent st c r :
  consistent st -> own c (channels st) = Some r -> roster_ok r.
Proof.
  intros Hc Hr. split.
  - exact (roster_nodup st Hc c r Hr).
  - intros id t Hin.
    apply (in_own id t r (roster_nodup st Hc c r Hr)) in Hin.
    now destruct (roster_sound st Hc c r id t Hr Hin).
Qed.

Lemma roster_ok_nil : roster_ok [].
Proof. split; [constructor | intros id t []]. Qed.

Lemma roster_ok_tail e r : roster_ok (e :: r) -> roster_ok r.
Proof.
  intros [Hnd Hval]. split.
  - now inversion Hnd.
  - intros id t Hin. apply Hval. now right.
Qed.

Lemma roster_ok_head id t r :
  roster_ok ((id, t) :: r) -> t = id /\ has_own id r = false.
Proof.
  intros [Hnd Hval]. split.
  - apply Hval. now left.
  - inversion Hnd as [|? ? Hnot _]; subst.
    destruct (has_own id r) eqn:E; [|reflexivity].
    apply in_keys in E. contradiction.
Qed.

Lemma roster_ok_delete s r : roster_ok r -> roster_ok (delete s r).
Proof.
  intros [Hnd Hval]. split.
  - now apply nodup_keys_delete.
  - intros id t Hin. apply Hval. unfold delete in Hin.
    now apply filter_In in Hin.
Qed.

Lemma roster_at_ok st c : consistent st -> roster_ok (roster_at c (channels st)).
Proof.
  intros Hc. unfold roster_at.
  destruct (own c (channels st)) as [r|] eqn:Hr.
  - exact (roster_ok_consistent st c r Hc Hr).
  - exact roster_ok_nil.
Qed.

Lemma delivered_to_app s out1 out2 :
  delivered_to s (out1 ++ out2) = delivered_to s out1 ++ delivered_to s out2.
Proof. unfold delivered_to. now rewrite filter_app, map_app. Qed.

Lemma has_own_cons {V : Type} k k0 (v0 : V) rest :
  has_own k ((k0, v0) :: rest) = (String.eqb k k0 || has_own k rest)%bool.
Proof. unfold has_own. simpl. now destruct (String.eqb k k0). Qed.

Ltac eqb_true H := apply String.eqb_eq in H.

(** A socket other than the subject [s] of a pairwise fan-out hears of [s]
    once if it is on the roster, and not at all otherwise. *)
Lemma delivered_pairwise (ev : event) (back : string -> event) s a r :
  roster_ok r -> a <> s ->
  delivered_to a
    (flat_map (fun entry : string * sid =>
                 [(snd entry, ev); (s, back (fst entry))]) r)
  = if has_own a r then [ev] else [].
Proof.
  intros Hok Ha. induction r as [|[id t] rest IH].
  - reflexivity.
  - destruct (roster_ok_head _ _ _ Hok) as [Ht Hfresh]. subst t.
    specialize (IH (roster_ok_tail _ _ Hok)).
    rewrite has_own_cons. cbn [flat_map fst snd].
    rewrite delivered_to_app, IH. unfold delivered_to. simpl.
    rewrite (String.eqb_sym id a), (String.eqb_sym s a).
    apply String.eqb_neq in Ha. rewrite Ha.
    destruct (String.eqb a id) eqn:E; simpl; [|reflexivity].
    eqb_true E. subst id. now rewrite Hfresh.
Qed.

(** The subject of a pairwise fan-out hears once of every socket on a
    roster it is not on, in roster order. *)
Lemma delivered_pairwise_subject (ev : event) (back : string -> event) s r :
  roster_ok r -> has_own s r = false ->
  delivered_to s
    (flat_map (fun entry : string * sid =>
                 [(snd entry, ev); (s, back (fst entry))]) r)
  = map back (keys r).
Proof.
  intros Hok Hs. induction r as [|[id t] rest IH].
  - reflexivity.
  - destruct (roster_ok_head _ _ _ Hok) as [Ht _]. subst t.
    rewrite has_own_cons in Hs. apply orb_false_elim in Hs.
    destruct Hs as [Hne Hs].
    specialize (IH (roster_ok_tail _ _ Hok) Hs).
    cbn [flat_map fst snd]. rewrite delivered_to_app, IH.
    unfold delivered_to. simpl. rewrite (String.eqb_sym id s), Hne.
    now rewrite String.eqb_refl.
Qed.

Lemma delivered_status ev s a r :
  roster_ok r ->
  delivered_to a (status_fanout ev s r)
  = if (has_own a r && negb (String.eqb a s))%bool then [ev] else [].
Proof.
  intros Hok. induction r as [|[id t] rest IH].
  - reflexivity.
  - destruct (roster_ok_head _ _ _ Hok) as [Ht Hfresh]. subst t.
    specialize (IH (roster_ok_tail _ _ Hok)).
    rewrite has_own_cons. unfold status_fanout in *. cbn [flat_map fst snd].
    rewrite delivered_to_app, IH. unfold delivered_to.
    destruct (String.eqb a id) eqn:E.
    + eqb_true E. subst id. rewrite Hfresh.
      destruct (String.eqb a s); simpl; [reflexivity|].
      now rewrite String.eqb_refl.
    + destruct (String.eqb id s); simpl; [reflexivity|].
      now rewrite (String.eqb_sym id a), E.
Qed.

Lemma delivered_chat_absent s who message clock a r :
  roster_ok r -> has_own a r = false ->
  forall k, delivered_to a (chat_fanout s who message clock k r) = [].
Proof.
  intros Hok. induction r as [|[id t] rest IH]; intros Ha k.
  - reflexivity.
  - destruct (roster_ok_head _ _ _ Hok) as [Ht _]. subst t.
    rewrite has_own_cons in Ha. apply orb_false_elim in Ha.
    destruct Ha as [Hne Ha]. unfold delivered_to in *. simpl.
    rewrite (String.eqb_sym id a), Hne.
    exact (IH (roster_ok_tail _ _ Hok) Ha (S k)).
Qed.

(** A socket on the roster receives the chat message once, stamped with
    one of the clock readings of the broadcast. *)
Lemma delivered_chat s who message clock a r :
  roster_ok r -> has_own a r = true ->
  forall k,
  exists j, j < List.length r
            /\ delivered_to a (chat_fanout s who message clock k r)
               = [ChatMessage s who message (clock (k + j))].
Proof.
  intros Hok. induction r as [|[id t] rest IH]; intros Ha k.
  - discriminate.
  - destruct (roster_ok_head _ _ _ Hok) as [Ht Hfresh]. subst t.
    rewrite has_own_cons in Ha.
    destruct (String.eqb a id) eqn:E.
    + eqb_true E. subst id. exists 0. split; [simpl; lia|].
      rewrite Nat.add_0_r. unfold delivered_to. simpl.
      rewrite String.eqb_refl. simpl. f_equal.
      exact (delivered_chat_absent s who message clock a rest
               (roster_ok_tail _ _ Hok) Hfresh (S k)).
    + simpl in Ha.
      destruct (IH (roster_ok_tail _ _ Hok) Ha (S k)) as (j & Hj & Hd).
      exists (S j). split; [simpl; lia|].
      unfold delivered_to in *. simpl.
      rewrite (String.eqb_sym id a), E.
      rewrite Hd. now replace (k + S j) with (S k + j) by lia.
Qed.


(** ** The example run *)

Lemma two_connected_reachable : reachable two_connected.
Proof.
  unfold two_connected.
  eapply reach_step; [eapply reach_step; [apply reach_initial|]|];
    apply step_connection; reflexivity.
Qed.

Lemma alice_in_room_reachable : reachable alice_in_room.
Proof.
  eapply reach_step; [apply two_connected_reachable|].
  apply (step_request alice (ReqJoin (mkJoin "room1" (Some "alice")))).
  reflexivity.
Qed.

Lemma both_in_room_reachable : reachable both_in_room.
Proof.
  eapply reach_step; [eapply reach_step; [apply alice_in_room_reachable|]|].
  - apply (step_request bob (ReqJoin (mkJoin "room1" None))). reflexivity.
  - apply (step_request alice (ReqJoin (mkJoin "7" None))). reflexivity.
Qed.

(** ** Relay: the two cases the guard was written for *)

Lemma relay_absent wrap s p body st :
  inherited p = false -> has_own p (sockets st) = false ->
  relay wrap s p body st = done st [].
Proof.
  intros Hp Hown. unfold relay. rewrite (get_plain _ _ Hp).
  apply has_own_false in Hown. now rewrite Hown.
Qed.

Lemma relay_present wrap s p body st target :
  own p (sockets st) = Some target ->
  relay wrap s p body st = done st [(target, wrap s body)].
Proof. intros Hown. unfold relay. now rewrite (get_own _ _ _ Hown). Qed.

Lemma not_on_roster_before_join st b config :
  consistent st -> join_accepted st b config ->
  has_own b (roster_at (jc_channel config) (channels st)) = false.
Proof.
  intros Hc [_ Hin].
  destruct (has_own b (roster_at (jc_channel config) (channels st))) eqn:E;
    [|reflexivity].
  apply has_own_true in E. destruct E as [t Ht].
  pose proof (own_roster_at _ _ _ _ Ht) as Hr.
  destruct (roster_sound st Hc _ _ _ _ Hr Ht) as (_ & Hm & _).
  apply has_in_own in Hm. congruence.
Qed.

Lemma set_singleton {V : Type} k (v : V) : set k v [] = [(k, v)].
Proof. unfold set. simpl. now destruct (array_index k). Qed.


(* ------------------------------------------------------------------ *)
(** ** The claims about the hub *)
(* ------------------------------------------------------------------ *)

(** C1.  When a connected socket [b] joins a channel, every socket [a]
    already on the roster receives exactly one event from the join,
    [addPeer] naming [b] with [should_create_offer = false]; [b] receives
    one [addPeer] with [should_create_offer = true] per roster member, in
    roster order, followed by the user list; and no other [addPeer] is
    emitted.  So a socket that joined before [b] is never told to create
    the offer toward [b], and [b] is always told to create it toward that
    socket. *)
Theorem join_initiator_asymmetry (st : state) (b : sid) (config : join_config) :
  consistent st -> has_own b (sockets st) = true ->
  join_accepted st b config ->
  let us := join_usernames b config st in
  let roster := roster_at (jc_channel config) (channels st) in
  let out := emitted (join b config st) in
  (forall a, has_own a roster = true ->
             delivered_to a out = [AddPeer b (name_of us b) false]
             /\ In (b, AddPeer a (name_of us a) true) out)
  /\ delivered_to b out
     = map (fun a => AddPeer a (name_of us a) true) (keys roster)
       ++ [UserList (map (fun id => (id, name_of us id))
                         (keys (set b b roster)))]
  /\ (forall target peer who flag,
         In (target, AddPeer peer who flag) out ->
         (flag = false /\ peer = b /\ target <> b
          /\ has_own target roster = true)
         \/ (flag = true /\ target = b /\ peer <> b
             /\ has_own peer roster = true)).
Proof.
  intros Hc Hb Ha us roster out.
  pose proof (roster_at_ok st (jc_channel config) Hc) as Hok.
  pose proof (not_on_roster_before_join st b config Hc Ha) as Hnew.
  fold roster in Hok, Hnew.
  assert (Hout : out = introduce b us roster
                       ++ [(b, UserList (map (fun id => (id, name_of us id))
                                             (keys (set b b roster))))])
    by (apply join_emitted; exact Ha).
  assert (Hne : forall a, has_own a roster = true -> a <> b)
    by (intros a H E; subst a; congruence).
  split; [|split].
  - intros a Hmem. split.
    + rewrite Hout, delivered_to_app. unfold introduce.
      rewrite (delivered_pairwise _ (fun id => AddPeer id (name_of us id) true)
                 b a roster Hok (Hne a Hmem)), Hmem.
      unfold delivered_to. simpl. rewrite (String.eqb_sym b a).
      pose proof (Hne a Hmem) as Hab. apply String.eqb_neq in Hab.
      now rewrite Hab.
    + rewrite Hout. apply in_or_app. left. unfold introduce.
      apply in_flat_map. apply has_own_true in Hmem.
      destruct Hmem as [t Ht]. exists (a, t).
      split; [now apply own_in | simpl; auto].
  - rewrite Hout, delivered_to_app. unfold introduce.
    rewrite (delivered_pairwise_subject _
               (fun id => AddPeer id (name_of us id) true)
               b roster Hok Hnew).
    unfold delivered_to. simpl. now rewrite String.eqb_refl.
  - intros target peer who flag Hin. rewrite Hout in Hin.
    apply in_app_or in Hin. destruct Hin as [Hin|[Hin|[]]];
      [|inversion Hin].
    unfold introduce in Hin. apply in_flat_map in Hin.
    destruct Hin as ([id t] & Hentry & Hev).
    assert (t = id) by (destruct Hok as [_ Hval]; now apply Hval).
    subst t.
    assert (Hmem : has_own id roster = true).
    { apply in_keys. unfold keys.
      change id with (fst (id, id)). now apply in_map. }
    simpl in Hev. destruct Hev as [Hev|[Hev|[]]]; inversion Hev; subst.
    + left. repeat split; auto.
    + right. repeat split; auto.
Qed.

Lemma join_initiator_asymmetry_witness :
  consistent alice_in_room
  /\ join_accepted alice_in_room bob (mkJoin "room1" None)
  /\ delivered_to alice (emitted (join bob (mkJoin "room1" None) alice_in_room))
     = [AddPeer bob (Name "Zt5mW8") false]
  /\ delivered_to bob (emitted (join bob (mkJoin "room1" None) alice_in_room))
     = [AddPeer alice (Name "alice") true;
        UserList [(alice, Name "alice"); (bob, Name "Zt5mW8")]].
Proof.
  pose proof (reachable_consistent _ alice_in_room_reachable) as Hc.
  assert (Ha : join_accepted alice_in_room bob (mkJoin "room1" None))
    by (split; reflexivity).
  destruct (join_initiator_asymmetry alice_in_room bob (mkJoin "room1" None)
              Hc eq_refl Ha) as (Hpre & Hnew & _).
  split; [exact Hc|]. split; [exact Ha|]. split.
  - exact (proj1 (Hpre alice eq_refl)).
  - exact Hnew.
Defined.


(** C4 (the code departs from the claim).  In every consistent state, a
    relay whose [peer_id] is a property name of [Object.prototype] names
    no tracked connection, passes the guard [peer_id in sockets] all the
    same, and ends in a [TypeError] instead of being dropped. *)
Theorem relay_to_builtin_name_throws (st : state) (s : sid) (p : string)
        (body : payload) :
  consistent st -> inherited p = true ->
  has_own p (sockets st) = false
  /\ threw (relayICECandidate s p body st) = true
  /\ threw (relaySessionDescription s p body st) = true.
Proof.
  intros Hc Hp.
  assert (Hown : has_own p (sockets st) = false).
  { destruct (has_own p (sockets st)) eqn:E; [|reflexivity].
    pose proof (connected_valid st Hc p E) as Hv. unfold valid_id in Hv.
    congruence. }
  split; [exact Hown|].
  unfold relayICECandidate, relaySessionDescription, relay, get.
  apply has_own_false in Hown. rewrite Hown, Hp. auto.
Qed.

Lemma relay_to_builtin_name_throws_witness :
  consistent both_in_room /\ inherited "constructor" = true
  /\ threw (relayICECandidate alice "constructor" "candidate:1" both_in_room)
     = true.
Proof.
  pose proof (reachable_consistent _ both_in_room_reachable) as Hc.
  split; [exact Hc|]. split; [reflexivity|].
  exact (proj1 (proj2 (relay_to_builtin_name_throws both_in_room alice
                         "constructor" "candidate:1" Hc eq_refl))).
Defined.

(** C5.  A join by a socket that is already on the roster of the channel
    changes nothing and emits nothing. *)
Theorem join_twice_ignored (st : state) (s : sid) (config : join_config) :
  consistent st -> member st s (jc_channel config) ->
  join s config st = done st [].
Proof.
  intros Hc (r & Hr & Hs). apply join_rejected. intros [_ Hin].
  apply has_own_true in Hs. destruct Hs as [t Ht].
  destruct (roster_sound st Hc _ _ _ _ Hr Ht) as (_ & Hm & _).
  apply has_in_own in Hm. congruence.
Qed.

Lemma join_twice_ignored_witness :
  consistent both_in_room /\ member both_in_room bob "room1"
  /\ join bob (mkJoin "room1" (Some "robert")) both_in_room
     = done both_in_room [].
Proof.
  pose proof (reachable_consistent _ both_in_room_reachable) as Hc.
  assert (Hm : member both_in_room bob "room1").
  { exists [(alice, alice); (bob, bob)]. split; reflexivity. }
  split; [exact Hc|]. split; [exact Hm|].
  exact (join_twice_ignored both_in_room bob (mkJoin "room1" (Some "robert"))
           Hc Hm).
Defined.

(** C6.  When a connected socket [s] on the roster of [c] leaves [c], it
    is taken off the roster and out of its own membership set, every
    socket left on the roster receives exactly [removePeer] naming [s],
    [s] receives one [removePeer] per socket left, and nothing else is
    emitted; a leave by a socket that is not on the roster changes nothing
    and emits nothing. *)
Theorem part_notifies_both_sides (st : state) (s : sid) (c : string) :
  consistent st -> has_own s (sockets st) = true ->
  (forall r,
      own c (channels st) = Some r -> has_own s r = true ->
      let rest := delete s r in
      let o := part s c st in
      threw o = false
      /\ ~ member (final o) s c
      /\ has_own c (socket_channels (final o) s) = false
      /\ (forall m, has_own m rest = true ->
                    delivered_to m (emitted o) = [RemovePeer s])
      /\ delivered_to s (emitted o) = map RemovePeer (keys rest)
      /\ (forall target ev,
             In (target, ev) (emitted o) ->
             (ev = RemovePeer s /\ has_own target rest = true)
             \/ (target = s
                 /\ exists m, ev = RemovePeer m /\ has_own m rest = true)))
  /\ (~ member st s c -> part s c st = done st []).
Proof.
  intros Hc Hs. split.
  - intros r Hr Hsr rest o.
    assert (Hm : has_own c (socket_channels st s) = true).
    { apply has_own_true in Hsr. destruct Hsr as [t Ht].
      now destruct (roster_sound st Hc _ _ _ _ Hr Ht) as (_ & Hm & _). }
    destruct (part_member s c st Hc Hm) as (r' & Hr' & _ & Ho).
    assert (r' = r) by congruence. subst r'. fold rest in Ho.
    assert (Hok : roster_ok rest)
      by (apply roster_ok_delete; exact (roster_ok_consistent st c r Hc Hr)).
    assert (Hgone : has_own s rest = false)
      by (unfold rest; rewrite has_own_delete; now rewrite String.eqb_refl).
    subst o. rewrite Ho. simpl.
    split; [reflexivity|]. split; [|split; [|split; [|split]]].
    + intros (r1 & Hr1 & Hs1). unfold after_part in Hr1. simpl in Hr1.
      fold rest in Hr1. destruct (keys rest).
      * rewrite own_delete, String.eqb_refl in Hr1. discriminate.
      * rewrite own_set_same in Hr1. congruence.
    + rewrite socket_channels_after_part, String.eqb_refl, has_own_delete.
      now rewrite String.eqb_refl.
    + intros m Hmem. unfold farewell.
      assert (Hne : m <> s) by (intros E; subst m; congruence).
      now rewrite (delivered_pairwise _ RemovePeer s m rest Hok Hne), Hmem.
    + unfold farewell.
      exact (delivered_pairwise_subject _ RemovePeer s rest Hok Hgone).
    + intros target ev Hin. unfold farewell in Hin. apply in_flat_map in Hin.
      destruct Hin as ([id t] & Hentry & Hev).
      assert (t = id) by (destruct Hok as [_ Hval]; now apply Hval).
      subst t.
      assert (Hmem : has_own id rest = true).
      { apply in_keys. unfold keys.
        change id with (fst (id, id)). now apply in_map. }
      simpl in Hev. destruct Hev as [Hev|[Hev|[]]]; inversion Hev; subst.
      * left. auto.
      * right. split; [reflexivity|]. now exists id.
  - intros Hnot.
    destruct (has_own c (socket_channels st s)) eqn:Hm.
    + exfalso. apply Hnot.
      destruct (membership_sound st Hc s c Hm) as (_ & r & Hr & Hsr).
      exists r. split; [exact Hr|]. apply has_own_true. now exists s.
    + destruct (inherited c) eqn:Hinh.
      * apply part_builtin; auto. now apply (connected_field st Hc).
      * apply part_rejected. now apply has_in_false.
Qed.

Lemma part_notifies_both_sides_witness :
  consistent both_in_room /\ has_own alice (sockets both_in_room) = true
  /\ delivered_to bob (emitted (part alice "room1" both_in_room))
     = [RemovePeer alice]
  /\ delivered_to alice (emitted (part alice "room1" both_in_room))
     = [RemovePeer bob]
  /\ part bob "7" both_in_room = done both_in_room [].
Proof.
  pose proof (reachable_consistent _ both_in_room_reachable) as Hc.
  destruct (part_notifies_both_sides both_in_room alice "room1" Hc eq_refl)
    as [Hleave _].
  destruct (Hleave [(alice, alice); (bob, bob)] eq_refl eq_refl)
    as (_ & _ & _ & Hothers & Hself & _).
  destruct (part_notifies_both_sides both_in_room bob "7" Hc eq_refl)
    as [_ Hnoop].
  split; [exact Hc|]. split; [reflexivity|]. split; [|split].
  - exact (Hothers bob eq_refl).
  - exact Hself.
  - apply Hnoop. intros (r & Hr & Hs). vm_compute in Hr.
    inversion Hr; subst r. discriminate Hs.
Defined.


Lemma part_each_leave_all s pending :
  forall st out,
    NoDup pending ->
    (forall c, In c pending -> has_own c (socket_channels st s) = true) ->
    part_each s pending st out = leave_all s pending st out.
Proof.
  induction pending as [|c rest IH]; intros st out Hnd Hlive; simpl.
  - reflexivity.
  - rewrite (Hlive c) by now left.
    destruct (threw (part s c st)); [reflexivity|].
    inversion Hnd as [|? ? Hnot Hnd']; subst.
    apply IH; [exact Hnd'|].
    intros c' Hin. rewrite part_membership, String.eqb_refl.
    rewrite (Hlive c') by now right.
    destruct (String.eqb_spec c' c) as [->|Hne]; [contradiction|reflexivity].
Qed.

(** C7.  In every state of a run every registered channel has a member,
    and every further operation (a request of a connected socket or a new
    connection) leaves it so; a join into an unregistered channel registers
    it with the joiner as its only member, and the leave of the only member
    unregisters it. *)
Theorem channels_never_empty (st : state) :
  reachable st ->
  channels_inhabited st
  /\ (forall s r, has_own s (sockets st) = true ->
                  channels_inhabited (final (handle s r st)))
  /\ (forall s, channels_inhabited (final (connection s st)))
  /\ (forall s config,
         join_accepted st s config ->
         own (jc_channel config) (channels st) = None ->
         own (jc_channel config) (channels (final (join s config st)))
         = Some [(s, s)])
  /\ (forall s c,
         own c (channels st) = Some [(s, s)] ->
         own c (channels (final (part s c st))) = None).
Proof.
  intros Hr. pose proof (reachable_consistent st Hr) as Hc.
  split; [exact (inhabited st Hc)|]. split; [|split; [|split]].
  - intros s r Hs. apply inhabited. now apply handle_consistent.
  - intros s. exact (inhabited st Hc).
  - intros s config Ha Hnone.
    rewrite (join_channels s config st _ Ha), String.eqb_refl.
    unfold roster_at. rewrite Hnone. now rewrite set_singleton.
  - intros s c Hown.
    assert (Hid : own s [(s, s)] = Some s)
      by (simpl; now rewrite String.eqb_refl).
    destruct (roster_sound st Hc _ _ _ _ Hown Hid) as (_ & Hm & _).
    destruct (part_member s c st Hc Hm) as (r & Hr' & _ & Ho).
    assert (r = [(s, s)]) by congruence. subst r. rewrite Ho.
    unfold after_part, delete. simpl. rewrite String.eqb_refl. simpl.
    fold (delete c (channels st)).
    now rewrite own_delete, String.eqb_refl.
Qed.

Lemma channels_never_empty_witness :
  reachable both_in_room
  /\ channels_inhabited both_in_room
  /\ own "7" (channels (final (part alice "7" both_in_room))) = None.
Proof.
  destruct (channels_never_empty both_in_room both_in_room_reachable)
    as (Hinh & _ & _ & _ & Hlast).
  split; [exact both_in_room_reachable|]. split; [exact Hinh|].
  exact (Hlast alice "7" eq_refl).
Defined.

(** C8.  For a connected socket in a consistent state, [disconnect] gives
    the same state, the same events in the same order and the same
    completion as a leave of every channel of its membership set, one after
    the other, followed by the removal of its [sockets] and [usernames]
    entries; it does not throw, and afterwards the socket has neither
    entry. *)
Theorem disconnect_is_leave_all_then_purge (st : state) (s : sid) :
  consistent st -> has_own s (sockets st) = true ->
  disconnect s st = disconnect_spec s st
  /\ threw (disconnect s st) = false
  /\ has_own s (sockets (final (disconnect s st))) = false
  /\ has_own s (usernames (final (disconnect s st))) = false.
Proof.
  intros Hc Hs.
  assert (Heq : part_each s (keys (socket_channels st s)) st []
                = leave_all s (keys (socket_channels st s)) st []).
  { apply part_each_leave_all.
    - apply (membership_nodup st Hc).
    - intros c Hin. now apply in_keys. }
  pose proof (disconnect_consistent s st Hc (connected_field st Hc s Hs))
    as [_ Hno].
  split; [|split; [exact Hno|]].
  - unfold disconnect, disconnect_spec. now rewrite Heq.
  - unfold disconnect in *.
    destruct (threw (part_each s (keys (socket_channels st s)) st []))
      eqn:E; [simpl in Hno; congruence|].
    simpl. rewrite !has_own_delete, String.eqb_refl. auto.
Qed.

Lemma disconnect_is_leave_all_then_purge_witness :
  consistent both_in_room /\ has_own alice (sockets both_in_room) = true
  /\ disconnect alice both_in_room = disconnect_spec alice both_in_room
  /\ emitted (disconnect alice both_in_room)
     = [(bob, RemovePeer alice); (alice, RemovePeer bob)].
Proof.
  pose proof (reachable_consistent _ both_in_room_reachable) as Hc.
  split; [exact Hc|]. split; [reflexivity|]. split.
  - exact (proj1 (disconnect_is_leave_all_then_purge both_in_room alice
                    Hc eq_refl)).
  - reflexivity.
Defined.

(** C10.  In a consistent state, a chat message sent to a registered
    channel reaches every socket on its roster exactly once, the sender
    included when it is on the roster; a mute or speaking status reaches
    every socket on the roster other than the sender exactly once, and the
    sender never. *)
Theorem chat_echoes_status_does_not (st : state) (s : sid) (c : string)
        (r : obj sid) :
  consistent st -> truthy c = true -> own c (channels st) = Some r ->
  (forall message clock id,
      has_own id r = true ->
      exists k, k < List.length r
                /\ delivered_to id (emitted (chatMessage s c message clock st))
                   = [ChatMessage s (name_of (usernames st) s) message
                                  (clock k)])
  /\ (forall message clock,
         has_own s r = true ->
         exists k, In (s, ChatMessage s (name_of (usernames st) s) message
                                      (clock k))
                      (emitted (chatMessage s c message clock st)))
  /\ (forall flag id,
         has_own id r = true -> id <> s ->
         delivered_to id (emitted (muteStatus s c flag st))
         = [PeerMuteStatus s flag]
         /\ delivered_to id (emitted (speakingStatus s c flag st))
            = [PeerSpeakingStatus s flag])
  /\ (forall flag,
         delivered_to s (emitted (muteStatus s c flag st)) = []
         /\ delivered_to s (emitted (speakingStatus s c flag st)) = []).
Proof.
  intros Hc Ht Hr. pose proof (roster_ok_consistent st c r Hc Hr) as Hok.
  assert (Hchat : forall message clock,
             emitted (chatMessage s c message clock st)
             = chat_fanout s (name_of (usernames st) s) message clock 0 r).
  { intros. unfold chatMessage. now rewrite Ht, (get_own _ _ _ Hr). }
  assert (Hstatus : forall wrap flag,
             emitted (status wrap s c flag st)
             = status_fanout (wrap s flag) s r).
  { intros. unfold status. now rewrite Ht, (get_own _ _ _ Hr). }
  split; [|split; [|split]].
  - intros message clock id Hid. rewrite Hchat.
    exact (delivered_chat s _ message clock id r Hok Hid 0).
  - intros message clock Hs. rewrite Hchat.
    destruct (delivered_chat s (name_of (usernames st) s) message clock s r
                Hok Hs 0) as (k & _ & Hd).
    exists k. simpl in Hd.
    assert (Hin : In (ChatMessage s (name_of (usernames st) s) message
                                  (clock k))
                     (delivered_to s
                        (chat_fanout s (name_of (usernames st) s) message
                                     clock 0 r)))
      by (rewrite Hd; now left).
    unfold delivered_to in Hin. apply in_map_iff in Hin.
    destruct Hin as ([target ev] & Hev & Hin). apply filter_In in Hin.
    destruct Hin as [Hin Htarget]. simpl in *.
    apply String.eqb_eq in Htarget. now subst.
  - intros flag id Hid Hne. unfold muteStatus, speakingStatus.
    rewrite !Hstatus, !delivered_status by exact Hok.
    apply String.eqb_neq in Hne. rewrite Hid, Hne. auto.
  - intros flag. unfold muteStatus, speakingStatus.
    rewrite !Hstatus, !delivered_status by exact Hok.
    rewrite String.eqb_refl, andb_false_r. auto.
Qed.

Lemma chat_echoes_status_does_not_witness :
  consistent both_in_room /\ truthy "room1" = true
  /\ delivered_to bob (emitted (muteStatus alice "room1" true both_in_room))
     = [PeerMuteStatus alice true]
  /\ delivered_to alice (emitted (muteStatus alice "room1" true both_in_room))
     = []
  /\ exists k,
      In (alice, ChatMessage alice (Name "alice") "hello" (Z.of_nat k))
         (emitted (chatMessage alice "room1" "hello" Z.of_nat both_in_room)).
Proof.
  pose proof (reachable_consistent _ both_in_room_reachable) as Hc.
  destruct (chat_echoes_status_does_not both_in_room alice "room1"
              [(alice, alice); (bob, bob)] Hc eq_refl eq_refl)
    as (_ & Hecho & Hothers & Hself).
  split; [exact Hc|]. split; [reflexivity|]. split; [|split].
  - exact (proj1 (Hothers true bob eq_refl
                    ltac:(intros E; discriminate E))).
  - exact (proj1 (Hself true)).
  - exact (Hecho "hello" Z.of_nat eq_refl).
Defined.

End HubFacts.

(* ================================================================== *)
(** * Facts about the roster synchroniser *)
(* ================================================================== *)

Module ClientFacts.
Import JS JSFacts Client.

Lemma known_peer_ignored (st : client_state) (config : add_peer) :
  has_in (peer_id config) (peers st) = true ->
  handleAddPeer config st = (st, []).
Proof.
  unfold handleAddPeer, has_in.
  destruct (get (peer_id config) (peers st)); [reflexivity..|discriminate].
Qed.

Lemma peer_known_afterwards (st : client_state) (config : add_peer) :
  has_in (peer_id config) (peers (fst (handleAddPeer config st))) = true.
Proof.
  unfold handleAddPeer.
  destruct (get (peer_id config) (peers st)) eqn:E; simpl.
  - unfold has_in. now rewrite E.
  - unfold has_in. now rewrite E.
  - apply has_in_own. apply has_own_true. eexists. apply own_set_same.
Qed.

(** C9.  An [addPeer] event for an identifier the client already holds a
    connection for leaves the whole client state as it is (the table of
    peers, the stored connections, the peer list) and asks nothing of the
    media engine; hence once an [addPeer] for an identifier has been
    processed, a further [addPeer] for the same identifier, whatever its
    other fields, has no effect. *)
Theorem duplicate_add_peer_ignored (st : client_state) (config dup : add_peer) :
  peer_id dup = peer_id config ->
  (forall pc, own (peer_id config) (peers st) = Some pc ->
              handleAddPeer config st = (st, [])
              /\ handleAddPeer dup st = (st, []))
  /\ handleAddPeer dup (fst (handleAddPeer config st))
     = (fst (handleAddPeer config st), []).
Proof.
  intros Hsame. split.
  - intros pc Hpc.
    assert (Hin : has_in (peer_id config) (peers st) = true)
      by (apply has_in_own, has_own_true; now exists pc).
    split; apply known_peer_ignored; [|rewrite Hsame]; exact Hin.
  - apply known_peer_ignored. rewrite Hsame. apply peer_known_afterwards.
Qed.

Lemma duplicate_add_peer_ignored_witness :
  let first := mkAddPeer "Zt5mW8yLq1VdE4uHAAAD" "bob" true in
  let again := mkAddPeer "Zt5mW8yLq1VdE4uHAAAD" "" false in
  let fresh := mkClient [] [] (Some ["mic"]) [Placeholder] in
  peer_id again = peer_id first
  /\ snd (handleAddPeer first fresh) = [CreateOffer 0 "Zt5mW8yLq1VdE4uHAAAD"]
  /\ handleAddPeer again (fst (handleAddPeer first fresh))
     = (fst (handleAddPeer first fresh), []).
Proof.
  intros first again fresh.
  split; [reflexivity|]. split; [reflexivity|].
  exact (proj2 (duplicate_add_peer_ignored fresh first again eq_refl)).
Defined.

End ClientFacts.

(* ================================================================== *)
(** * Further facts about plain objects *)
(* ================================================================== *)

Module JSExtra.
Import JS JSFacts.

Section Properties.
Context {V : Type}.
Implicit Types (o : obj V) (k : string) (v : V).

Lemma delete_app k o1 o2 : delete k (o1 ++ o2) = delete k o1 ++ delete k o2.
Proof. unfold delete. apply filter_app. Qed.

Lemma delete_overwrite k v o : delete k (overwrite k v o) = delete k o.
Proof.
  unfold delete. induction o as [|[k0 v0] rest IH]; simpl; [reflexivity|].
  destruct (String.eqb k k0) eqn:E; simpl; rewrite E; simpl.
  - reflexivity.
  - now rewrite IH.
Qed.

(** Deleting a key forgets an assignment to it. *)
Lemma delete_set k v o : delete k (set k v o) = delete k o.
Proof.
  destruct (has_own k o) eqn:Hk.
  - unfold set. rewrite Hk. apply delete_overwrite.
  - destruct (set_new_split k v o Hk) as (l1 & l2 & Ho & Hs).
    rewrite Hs, Ho, !delete_app. f_equal.
    unfold delete at 1. simpl. now rewrite String.eqb_refl.
Qed.

Lemma delete_set_new k v o : has_own k o = false -> delete k (set k v o) = o.
Proof. intros H. now rewrite delete_set, delete_absent. Qed.

Lemma overwrite_same k v o : own k o = Some v -> overwrite k v o = o.
Proof.
  induction o as [|[k0 v0] rest IH]; simpl; [reflexivity|].
  destruct (String.eqb k k0).
  - intros H. now inversion H.
  - intros H. now rewrite IH.
Qed.

Lemma overwrite_overwrite k v v' o :
  overwrite k v (overwrite k v' o) = overwrite k v o.
Proof.
  induction o as [|[k0 v0] rest IH]; simpl; [reflexivity|].
  destruct (String.eqb k k0) eqn:E; simpl; rewrite E.
  - reflexivity.
  - now rewrite IH.
Qed.

(** Assigning to a present key twice is assigning the last value; and
    assigning the value a key has changes nothing. *)
Lemma set_set_present k v v' o :
  has_own k o = true -> set k v (set k v' o) = set k v o.
Proof.
  intros H. unfold set at 1. rewrite has_own_set, String.eqb_refl. simpl.
  unfold set. rewrite H. apply overwrite_overwrite.
Qed.

Lemma set_same k v o : own k o = Some v -> set k v o = o.
Proof.
  intros H. unfold set, has_own. rewrite H. now apply overwrite_same.
Qed.

Lemma keys_delete_nil k o : keys (delete k o) = [] -> delete k o = [].
Proof. unfold keys. apply map_eq_nil. Qed.

End Properties.

End JSExtra.

(* ================================================================== *)
(** * Further facts about the hub *)
(* ================================================================== *)

Module HubExtra.
Import JS JSFacts JSExtra Hub HubSpec HubMore HubFacts.

Lemma member_membership st s c :
  consistent st ->
  (member st s c <-> has_own c (socket_channels st s) = true).
Proof.
  intros Hc. split.
  - intros (r & Hr & Hs). apply has_own_true in Hs. destruct Hs as [t Ht].
    now destruct (roster_sound st Hc _ _ _ _ Hr Ht) as (_ & Hm & _).
  - intros Hm. destruct (membership_sound st Hc s c Hm) as (_ & r & Hr & Hs).
    exists r. split; [exact Hr|]. apply has_own_true. now exists s.
Qed.

(** X1.  In every state of a run the rosters and the membership sets of
    the sockets mirror each other; a socket on a roster is connected and
    filed under its own identifier, and no roster is registered under a
    property name of [Object.prototype]. *)
Theorem rosters_mirror_memberships (st : state) :
  reachable st ->
  (forall s c, member st s c <-> has_own c (socket_channels st s) = true)
  /\ (forall s c, member st s c ->
                  has_own s (sockets st) = true /\ inherited c = false)
  /\ (forall c r id t,
         own c (channels st) = Some r -> own id r = Some t -> t = id)
  /\ (forall c r, own c (channels st) = Some r -> NoDup (keys r)).
Proof.
  intros Hr. pose proof (reachable_consistent st Hr) as Hc.
  split; [|split; [|split]].
  - intros s c. now apply member_membership.
  - intros s c Hm. pose proof Hm as Hm'.
    apply (member_membership st s c Hc) in Hm'.
    destruct Hm as (r & Hroster & Hs). apply has_own_true in Hs.
    destruct Hs as [t Ht].
    destruct (roster_sound st Hc _ _ _ _ Hroster Ht) as (-> & _ & Hconn).
    split; [exact Hconn|]. now destruct (membership_sound st Hc s c Hm').
  - intros c r id t Hroster Hid.
    now destruct (roster_sound st Hc _ _ _ _ Hroster Hid).
  - exact (roster_nodup st Hc).
Qed.

Lemma rosters_mirror_memberships_witness :
  reachable both_in_room
  /\ (member both_in_room bob "room1"
      <-> has_own "room1" (socket_channels both_in_room bob) = true)
  /\ ~ member both_in_room bob "7".
Proof.
  destruct (rosters_mirror_memberships both_in_room both_in_room_reachable)
    as (Hiff & _).
  split; [exact both_in_room_reachable|]. split; [exact (Hiff bob "room1")|].
  intros Hm. apply (Hiff bob "7") in Hm. discriminate Hm.
Defined.

(** ** The registry of sockets *)

Lemma sockets_after_handle s r st :
  consistent st -> has_own s (socket_fields st) = true ->
  sockets (final (handle s r st)) = sockets st
  \/ sockets (final (handle s r st)) = delete s (sockets st).
Proof.
  intros Hc Hf. destruct r; simpl.
  - now left.
  - left. now rewrite final_chatMessage.
  - left. apply join_sockets.
  - left. apply part_sockets.
  - left. unfold relayICECandidate. now rewrite final_relay.
  - left. unfold relaySessionDescription. now rewrite final_relay.
  - left. unfold muteStatus. now rewrite final_status.
  - left. unfold speakingStatus. now rewrite final_status.
  - right. unfold disconnect.
    destruct (part_each_consistent s (keys (socket_channels st s)) st []
                Hc Hf) as (_ & Hno & Hsock & _).
    rewrite Hno. simpl. now rewrite Hsock.
Qed.

Lemma reachable_sockets_sound st : reachable st -> sockets_sound st.
Proof.
  induction 1 as [|st st' Hr IH Hstep].
  - intros p t H. discriminate H.
  - pose proof (reachable_consistent st Hr) as Hc.
    destruct Hstep as [s st Hv Hnew|s r st Hs].
    + intros p t. simpl. rewrite own_set.
      destruct (String.eqb_spec p s) as [->|Hne].
      * intros H. now inversion H.
      * apply IH.
    + intros p t.
      destruct (sockets_after_handle s r st Hc (connected_field st Hc s Hs))
        as [E|E]; rewrite E.
      * apply IH.
      * rewrite own_delete. destruct (String.eqb p s); [discriminate|].
        apply IH.
Qed.

(** ** Where the events go *)









(** X3.  In every state of a run, a relay addressed to a connected socket
    emits exactly one event, on that socket, carrying the sender's
    identifier and the payload as received; a relay addressed to a name
    that is neither a connected socket nor inherited emits nothing; in
    both cases the state is left as it was. *)
Theorem relay_delivers_to_addressee (st : state) (s : sid) (p : string)
        (body : payload) :
  reachable st ->
  (has_own p (sockets st) = true ->
   relayICECandidate s p body st = done st [(p, IceCandidate s body)]
   /\ relaySessionDescription s p body st
      = done st [(p, SessionDescription s body)])
  /\ (has_own p (sockets st) = false -> inherited p = false ->
      relayICECandidate s p body st = done st []
      /\ relaySessionDescription s p body st = done st []).
Proof.
  intros Hr. split.
  - intros Hp. apply has_own_true in Hp. destruct Hp as [t Ht].
    pose proof (reachable_sockets_sound st Hr p t Ht). subst t.
    split; apply relay_present; exact Ht.
  - intros Hp Hinh. split; apply relay_absent; assumption.
Qed.

Lemma relay_delivers_to_addressee_witness :
  reachable both_in_room
  /\ relayICECandidate alice bob "candidate:1" both_in_room
     = done both_in_room [(bob, IceCandidate alice "candidate:1")]
  /\ relaySessionDescription alice "gone" "offer" both_in_room
     = done both_in_room [].
Proof.
  destruct (relay_delivers_to_addressee both_in_room alice bob "candidate:1"
              both_in_room_reachable) as [Hhit _].
  destruct (relay_delivers_to_addressee both_in_room alice "gone" "offer"
              both_in_room_reachable) as [_ Hmiss].
  split; [exact both_in_room_reachable|]. split.
  - exact (proj1 (Hhit eq_refl)).
  - exact (proj2 (Hmiss eq_refl eq_refl)).
Defined.


(** ** A join undone by a leave *)

Lemma store_field_twice s o o' h :
  store_field s o (store_field s o' h) = store_field s o h.
Proof.
  induction h as [|[s0 o0] rest IH]; simpl.
  - now rewrite String.eqb_refl.
  - destruct (String.eqb s s0) eqn:E; simpl; rewrite E.
    + reflexivity.
    + now rewrite IH.
Qed.

Lemma join_final s config st :
  join_accepted st s config ->
  final (join s config st)
  = mkState
      (set (jc_channel config)
           (set s s (roster_at (jc_channel config) (channels st)))
           (if has_in (jc_channel config) (channels st) then channels st
            else set (jc_channel config) empty (channels st)))
      (sockets st)
      (join_usernames s config st)
      (store_field s
         (set (jc_channel config) (jc_channel config) (socket_channels st s))
         (socket_fields st)).
Proof.
  intros [Ht Hin]. unfold join. rewrite Ht, Hin. simpl.
  now rewrite roster_at_lazy.
Qed.

Lemma channels_restored s config st :
  consistent st -> join_accepted st s config ->
  let channel := jc_channel config in
  let r0 := roster_at channel (channels st) in
  let joined :=
    set channel (set s s r0)
        (if has_in channel (channels st) then channels st
         else set channel empty (channels st)) in
  match keys r0 with
  | [] => delete channel joined
  | _ :: _ => set channel r0 joined
  end = channels st.
Proof.
  intros Hc [Ht Hin] channel r0 joined. subst joined r0.
  apply has_in_false in Hin. destruct Hin as [_ Hplain].
  unfold roster_at.
  destruct (own channel (channels st)) as [r|] eqn:Hr.
  - assert (Hin' : has_in channel (channels st) = true)
      by (apply has_in_own, has_own_true; eauto).
    rewrite Hin'. pose proof (inhabited st Hc channel r Hr) as Hne.
    destruct r as [|e r]; [congruence|]. cbn [keys map].
    rewrite set_set_present by (apply has_own_true; eauto).
    now apply set_same.
  - assert (Hin' : has_in channel (channels st) = false)
      by (apply has_in_false; split; [now apply has_own_false | exact Hplain]).
    rewrite Hin'. cbn [keys map]. rewrite delete_set.
    apply delete_set_new. now apply has_own_false.
Qed.

(** X4.  A join that is accepted and then undone by a leave of the same
    channel gives back the state before the join, but for the display name
    the join may have stored; the leave tells exactly the sockets the join
    had introduced. *)
Theorem join_then_part_restores (st : state) (s : sid) (config : join_config) :
  consistent st -> has_own s (sockets st) = true ->
  join_accepted st s config ->
  part s (jc_channel config) (final (join s config st))
  = done (with_usernames (join_usernames s config st) st)
         (farewell s (roster_at (jc_channel config) (channels st))).
Proof.
  intros Hc Hs Ha. pose proof Ha as [Ht Hin].
  pose proof (not_on_roster_before_join st s config Hc Ha) as Hnew.
  pose proof (channels_restored s config st Hc Ha) as Hch. simpl in Hch.
  apply has_in_false in Hin. destruct Hin as [Hfresh Hplain].
  pose proof (connected_field st Hc s Hs) as Hf.
  rewrite (join_final s config st Ha).
  set (channel := jc_channel config) in *.
  set (r0 := roster_at channel (channels st)) in *.
  set (sc := socket_channels st s) in *.
  unfold part.
  assert (Hsc : forall X U F,
             socket_channels (mkState X U (join_usernames s config st)
                                      (store_field s F (socket_fields st))) s
             = F).
  { intros. unfold socket_channels. simpl.
    now rewrite own_store_field, String.eqb_refl. }
  rewrite Hsc.
  assert (Hin1 : has_in channel (set channel channel sc) = true)
    by (apply has_in_own; rewrite has_own_set; now rewrite String.eqb_refl).
  rewrite Hin1. cbn [negb]. unfold with_socket_channels. cbn [channels
    sockets usernames socket_fields].
  rewrite (get_own _ _ _ (own_set_same channel (set s s r0) _)).
  rewrite (delete_set_new s s r0 Hnew), Hch.
  rewrite store_field_twice, (delete_set_new channel channel sc Hfresh).
  unfold with_channels, with_usernames. cbn [channels sockets usernames
    socket_fields].
  f_equal. f_equal. unfold sc.
  apply has_own_true in Hf. destruct Hf as [o Ho].
  unfold socket_channels. rewrite Ho. now apply store_field_same.
Qed.

Lemma join_then_part_restores_witness :
  consistent alice_in_room /\ has_own bob (sockets alice_in_room) = true
  /\ join_accepted alice_in_room bob (mkJoin "room1" None)
  /\ part bob "room1" (final (join bob (mkJoin "room1" None) alice_in_room))
     = done alice_in_room [(alice, RemovePeer bob); (bob, RemovePeer alice)].
Proof.
  pose proof (reachable_consistent _ alice_in_room_reachable) as Hc.
  assert (Ha : join_accepted alice_in_room bob (mkJoin "room1" None))
    by (split; reflexivity).
  split; [exact Hc|]. split; [reflexivity|]. split; [exact Ha|].
  exact (join_then_part_restores alice_in_room bob (mkJoin "room1" None)
           Hc eq_refl Ha).
Defined.

(** ** The user list *)

Lemma member_roster_at st id c :
  member st id c <-> has_own id (roster_at c (channels st)) = true.
Proof.
  unfold member, roster_at. destruct (own c (channels st)) as [r|].
  - split.
    + intros (r' & Hr & H). now inversion Hr; subst.
    + intros H. now exists r.
  - split.
    + intros (r' & Hr & _). discriminate.
    + discriminate.
Qed.

(** X5.  An accepted join emits a single user list, on the joining
    socket; it names the joiner and every socket that was on the roster,
    each exactly once, with the display names used in the [addPeer]
    events of the same join. *)
Theorem user_list_names_roster (st : state) (b : sid) (config : join_config) :
  consistent st -> has_own b (sockets st) = true ->
  join_accepted st b config ->
  exists users,
    In (b, UserList users) (emitted (join b config st))
    /\ (forall t users', In (t, UserList users') (emitted (join b config st)) ->
                         t = b /\ users' = users)
    /\ NoDup (listed users)
    /\ (forall id, In id (listed users)
                   <-> id = b \/ member st id (jc_channel config))
    /\ (forall id who, In (id, who) users ->
                       who = name_of (join_usernames b config st) id).
Proof.
  intros Hc Hb Ha.
  set (us := join_usernames b config st).
  set (roster := roster_at (jc_channel config) (channels st)).
  exists (map (fun id => (id, name_of us id)) (keys (set b b roster))).
  rewrite (join_emitted b config st Ha). fold us roster.
  assert (Hlisted :
            listed (map (fun id => (id, name_of us id)) (keys (set b b roster)))
            = keys (set b b roster)).
  { unfold listed. rewrite map_map. simpl. apply map_id. }
  split; [|split; [|split; [|split]]].
  - apply in_or_app. right. now left.
  - intros t users' Hin. apply in_app_or in Hin.
    destruct Hin as [Hin|[Hin|[]]].
    + unfold introduce in Hin. apply in_flat_map in Hin.
      destruct Hin as (e & _ & [H|[H|[]]]); discriminate.
    + inversion Hin. auto.
  - rewrite Hlisted. apply nodup_keys_set.
    destruct (roster_at_ok st (jc_channel config) Hc) as [Hnd _]. exact Hnd.
  - intros id. rewrite Hlisted, in_keys, has_own_set, member_roster_at.
    fold roster. rewrite orb_true_iff, String.eqb_eq. tauto.
  - intros id who Hin. apply in_map_iff in Hin.
    destruct Hin as (id' & H & _). now inversion H.
Qed.

Lemma user_list_names_roster_witness :
  consistent alice_in_room /\ has_own bob (sockets alice_in_room) = true
  /\ join_accepted alice_in_room bob (mkJoin "room1" None)
  /\ exists users,
      In (bob, UserList users)
         (emitted (join bob (mkJoin "room1" None) alice_in_room))
      /\ NoDup (listed users).
Proof.
  pose proof (reachable_consistent _ alice_in_room_reachable) as Hc.
  assert (Ha : join_accepted alice_in_room bob (mkJoin "room1" None))
    by (split; reflexivity).
  split; [exact Hc|]. split; [reflexivity|]. split; [exact Ha|].
  destruct (user_list_names_roster alice_in_room bob (mkJoin "room1" None)
              Hc eq_refl Ha) as (users & Hin & _ & Hnd & _).
  exists users. split; assumption.
Defined.


(** ** What a disconnect leaves behind, and whom it tells *)

Lemma part_each_others s pending m c :
  m <> s ->
  forall st out,
    has_own c (socket_channels (final (part_each s pending st out)) m)
    = has_own c (socket_channels st m).
Proof.
  intros Hne. apply String.eqb_neq in Hne.
  induction pending as [|c0 rest IH]; intros st out; simpl; [reflexivity|].
  destruct (has_own c0 (socket_channels st s)); [|apply IH].
  destruct (threw (part s c0 st)); simpl.
  - now rewrite part_membership, Hne.
  - now rewrite IH, part_membership, Hne.
Qed.

Lemma disconnect_socket_channels s st m c :
  consistent st -> has_own s (socket_fields st) = true ->
  has_own c (socket_channels (final (disconnect s st)) m)
  = if String.eqb m s then false else has_own c (socket_channels st m).
Proof.
  intros Hc Hf. unfold disconnect.
  destruct (part_each_consistent s (keys (socket_channels st s)) st [] Hc Hf)
    as (_ & Hno & _ & _ & Hgone).
  rewrite Hno.
  change (socket_channels
            (final (done (purge s (final (part_each s
                                            (keys (socket_channels st s))
                                            st [])))
                         (emitted (part_each s (keys (socket_channels st s))
                                             st [])))) m)
    with (socket_channels
            (final (part_each s (keys (socket_channels st s)) st [])) m).
  destruct (String.eqb_spec m s) as [->|Hne].
  - destruct (has_own c
                (socket_channels
                   (final (part_each s (keys (socket_channels st s)) st []))
                   s)) eqn:E; [|reflexivity].
    destruct (Hgone c E) as [Hm Hn]. exfalso. apply Hn. now apply in_keys.
  - now apply part_each_others.
Qed.

(** X6.  After the disconnect of a connected socket the state is
    consistent again, the socket is on no roster, and the other sockets are
    on the rosters they were on and connected as they were. *)
Theorem disconnect_leaves_no_trace (st : state) (s : sid) :
  consistent st -> has_own s (sockets st) = true ->
  let st' := final (disconnect s st) in
  consistent st'
  /\ (forall c, ~ member st' s c)
  /\ (forall m c, m <> s -> (member st' m c <-> member st m c))
  /\ (forall m, m <> s -> has_own m (sockets st') = has_own m (sockets st)).
Proof.
  intros Hc Hs st'. pose proof (connected_field st Hc s Hs) as Hf.
  destruct (disconnect_consistent s st Hc Hf) as [Hc' Hno]. fold st' in Hc'.
  split; [exact Hc'|]. split; [|split].
  - intros c Hm. apply (member_membership st' s c Hc') in Hm. unfold st' in Hm.
    rewrite (disconnect_socket_channels s st s c Hc Hf) in Hm.
    now rewrite String.eqb_refl in Hm.
  - intros m c Hne.
    rewrite (member_membership st' m c Hc'), (member_membership st m c Hc).
    unfold st'. rewrite (disconnect_socket_channels s st m c Hc Hf).
    apply String.eqb_neq in Hne. now rewrite Hne.
  - intros m Hne. unfold st', disconnect.
    destruct (part_each_consistent s (keys (socket_channels st s)) st []
                Hc Hf) as (_ & Hno' & Hsock & _).
    rewrite Hno'. simpl. rewrite has_own_delete, Hsock.
    apply String.eqb_neq in Hne. now rewrite Hne.
Qed.

Lemma disconnect_leaves_no_trace_witness :
  consistent both_in_room /\ has_own alice (sockets both_in_room) = true
  /\ ~ member (final (disconnect alice both_in_room)) alice "room1"
  /\ member (final (disconnect alice both_in_room)) bob "room1".
Proof.
  pose proof (reachable_consistent _ both_in_room_reachable) as Hc.
  destruct (disconnect_leaves_no_trace both_in_room alice Hc eq_refl)
    as (_ & Hgone & Hkept & _).
  split; [exact Hc|]. split; [reflexivity|]. split; [exact (Hgone "room1")|].
  apply (Hkept bob "room1"); [discriminate|].
  exists [(alice, alice); (bob, bob)]. split; reflexivity.
Defined.

Lemma roster_has_member st c r m :
  consistent st -> own c (channels st) = Some r ->
  has_own m r = has_own c (socket_channels st m).
Proof.
  intros Hc Hr.
  destruct (has_own m r) eqn:E1; destruct (has_own c (socket_channels st m))
    eqn:E2; try reflexivity.
  - assert (Hm : member st m c) by (exists r; auto).
    apply (member_membership st m c Hc) in Hm. congruence.
  - apply (member_membership st m c Hc) in E2.
    destruct E2 as (r' & Hr' & Hm). congruence.
Qed.

Lemma part_delivered s c st m :
  consistent st -> has_own c (socket_channels st s) = true -> m <> s ->
  delivered_to m (emitted (part s c st))
  = if has_own c (socket_channels st m) then [RemovePeer s] else [].
Proof.
  intros Hc Hm Hne.
  destruct (part_member s c st Hc Hm) as (r & Hr & _ & ->). simpl.
  unfold farewell.
  rewrite (delivered_pairwise _ RemovePeer s m (delete s r)
             (roster_ok_delete s r (roster_ok_consistent st c r Hc Hr)) Hne).
  rewrite has_own_delete, (roster_has_member st c r m Hc Hr).
  apply String.eqb_neq in Hne. now rewrite Hne.
Qed.

Lemma part_each_delivered s m pending :
  m <> s ->
  forall st out,
    consistent st -> has_own s (socket_fields st) = true ->
    NoDup pending ->
    (forall c, In c pending -> has_own c (socket_channels st s) = true) ->
    delivered_to m (emitted (part_each s pending st out))
    = delivered_to m out
      ++ map (fun _ => RemovePeer s)
             (filter (fun c => has_own c (socket_channels st m)) pending).
Proof.
  intros Hne.
  induction pending as [|c rest IH]; intros st out Hc Hf Hnd Hlive; simpl.
  - now rewrite app_nil_r.
  - rewrite (Hlive c) by now left.
    destruct (part_consistent s c st Hc Hf) as [Hc' Hno]. rewrite Hno.
    inversion Hnd as [|? ? Hnot Hnd']; subst.
    rewrite IH; [| exact Hc' | now apply part_keeps_fields | exact Hnd' |].
    + rewrite delivered_to_app, <- app_assoc. f_equal.
      rewrite (part_delivered s c st m Hc (Hlive c (or_introl eq_refl)) Hne).
      assert (Hext : filter (fun c0 => has_own c0 (socket_channels
                                                     (final (part s c st)) m))
                            rest
                     = filter (fun c0 => has_own c0 (socket_channels st m))
                              rest).
      { apply filter_ext. intros c0. rewrite part_membership.
        apply String.eqb_neq in Hne. now rewrite Hne. }
      rewrite Hext. now destruct (has_own c (socket_channels st m)).
    + intros c' Hin. rewrite part_membership, String.eqb_refl.
      rewrite (Hlive c') by now right.
      destruct (String.eqb_spec c' c) as [->|]; [contradiction|reflexivity].
Qed.

(** X7.  When a connected socket disconnects, every other socket receives
    [removePeer] naming it once for each channel the two share, and
    nothing else. *)
Theorem disconnect_notifies_co_members (st : state) (s m : sid) :
  consistent st -> has_own s (sockets st) = true -> m <> s ->
  delivered_to m (emitted (disconnect s st))
  = map (fun _ => RemovePeer s) (shared_channels st s m).
Proof.
  intros Hc Hs Hne. pose proof (connected_field st Hc s Hs) as Hf.
  unfold disconnect.
  destruct (part_each_consistent s (keys (socket_channels st s)) st [] Hc Hf)
    as (_ & Hno & _).
  rewrite Hno. simpl.
  rewrite (part_each_delivered s m _ Hne st [] Hc Hf
             (membership_nodup st Hc s)).
  - reflexivity.
  - intros c Hin. now apply in_keys.
Qed.

Lemma disconnect_notifies_co_members_witness :
  consistent both_in_room /\ has_own alice (sockets both_in_room) = true
  /\ bob <> alice
  /\ delivered_to bob (emitted (disconnect alice both_in_room))
     = [RemovePeer alice].
Proof.
  pose proof (reachable_consistent _ both_in_room_reachable) as Hc.
  assert (Hne : bob <> alice) by discriminate.
  split; [exact Hc|]. split; [reflexivity|]. split; [exact Hne|].
  exact (disconnect_notifies_co_members both_in_room alice bob Hc eq_refl Hne).
Defined.

(** A leave of the only channel, then the disconnect. *)
Lemma disconnect_after_last_part (st : state) (s : sid) (c : string) :
  consistent st -> has_own s (sockets st) = true ->
  keys (socket_channels st s) = [c] ->
  threw (part s c st) = false
  /\ disconnect s (final (part s c st))
     = done (purge s (final (part s c st))) []
  /\ disconnect s st
     = done (purge s (final (part s c st))) (emitted (part s c st)).
Proof.
  intros Hc Hs Hkeys. pose proof (connected_field st Hc s Hs) as Hf.
  assert (Hm : has_own c (socket_channels st s) = true)
    by (apply in_keys; rewrite Hkeys; now left).
  destruct (part_consistent s c st Hc Hf) as [Hc1 Hno1].
  assert (Hempty : keys (socket_channels (final (part s c st)) s) = []).
  { destruct (keys (socket_channels (final (part s c st)) s))
      as [|c' rest] eqn:E; [reflexivity|].
    assert (Hin : has_own c' (socket_channels (final (part s c st)) s) = true)
      by (apply in_keys; rewrite E; now left).
    rewrite part_membership, String.eqb_refl in Hin.
    apply andb_prop in Hin. destruct Hin as [Hne Hin].
    apply in_keys in Hin. rewrite Hkeys in Hin. destruct Hin as [->|[]].
    now rewrite String.eqb_refl in Hne. }
  split; [exact Hno1|]. split.
  - unfold disconnect. now rewrite Hempty.
  - unfold disconnect. rewrite Hkeys. cbn [part_each]. rewrite Hm.
    rewrite Hno1. reflexivity.
Qed.

(** X8.  For a connected socket that is in one channel, a leave of that
    channel followed by a disconnect (what the client sends when the user
    leaves the room) has the same effect as the disconnect alone: the same
    events and the same final state; the disconnect then emits nothing. *)
Theorem part_then_disconnect (st : state) (s : sid) (c : string) :
  consistent st -> has_own s (sockets st) = true ->
  keys (socket_channels st s) = [c] ->
  let o1 := part s c st in
  let o2 := disconnect s (final o1) in
  threw o1 = false /\ threw o2 = false
  /\ emitted o2 = []
  /\ emitted o1 = emitted (disconnect s st)
  /\ final o2 = final (disconnect s st).
Proof.
  intros Hc Hs Hkeys o1 o2.
  destruct (disconnect_after_last_part st s c Hc Hs Hkeys)
    as (Hno1 & E2 & E).
  fold o1 in Hno1, E2, E. fold o2 in E2. rewrite E2, E. auto.
Qed.

Lemma part_then_disconnect_witness :
  consistent both_in_room /\ has_own bob (sockets both_in_room) = true
  /\ keys (socket_channels both_in_room bob) = ["room1"]
  /\ emitted (part bob "room1" both_in_room)
     = emitted (disconnect bob both_in_room).
Proof.
  pose proof (reachable_consistent _ both_in_room_reachable) as Hc.
  split; [exact Hc|]. split; [reflexivity|]. split; [reflexivity|].
  exact (proj1 (proj2 (proj2 (proj2
           (part_then_disconnect both_in_room bob "room1" Hc eq_refl
              eq_refl))))).
Defined.


(** ** Display names *)

Lemma chat_fanout_events s who message clock r t ev :
  forall k, In (t, ev) (chat_fanout s who message clock k r) ->
            exists j, ev = ChatMessage s who message (clock j).
Proof.
  induction r as [|[id0 t0] rest IH]; intros k; simpl; [tauto|].
  intros [H|H].
  - inversion H; subst. now exists k.
  - exact (IH _ H).
Qed.

(** X9.  After [setUsername] the hub shows the socket under the name it
    sent, or under ["User-"] followed by the first six characters of its
    identifier when the name sent was empty: every chat message the socket
    sends next carries that name.  The other sockets keep their names, and
    [setUsername] itself emits nothing and touches no roster. *)
Theorem username_shown_in_chat (st : state) (s : sid) (u : string) :
  let shown := if truthy u then u else String.append "User-" (slice6 s) in
  let st' := final (setUsername s u st) in
  name_of (usernames st') s = Name shown
  /\ (forall s', s' <> s ->
                 name_of (usernames st') s' = name_of (usernames st) s')
  /\ emitted (setUsername s u st) = []
  /\ channels st' = channels st
  /\ (forall c message clock t ev,
         In (t, ev) (emitted (chatMessage s c message clock st')) ->
         exists k, ev = ChatMessage s (Name shown) message (clock k)).
Proof.
  intros shown st'.
  assert (Hname : name_of (usernames st') s = Name shown).
  { unfold st', setUsername, name_of, get. simpl. rewrite own_set_same.
    fold shown. destruct u; reflexivity. }
  split; [exact Hname|]. split; [|split; [|split]].
  - intros s' Hne. unfold st', setUsername, name_of, get. simpl.
    now rewrite own_set_other.
  - reflexivity.
  - reflexivity.
  - intros c message clock t ev. unfold chatMessage.
    destruct (negb (truthy c)); [intros []|].
    destruct (get c (channels st')); try (intros []).
    unfold done. cbn [emitted]. rewrite Hname. apply chat_fanout_events.
Qed.

End HubExtra.

(* ================================================================== *)
(** * Further facts about the bitrate rewrite *)
(* ================================================================== *)

Module CodecExtra.
Import Str StrFacts Codec CodecSpec CodecMore CodecFacts.

Local Infix "+++" := String.append (at level 60, right associativity).

(** ** Prefixes, digit runs and the regular expression *)

Lemma startsWith_spec s p :
  startsWith s p = true <-> exists b, s = p +++ b.
Proof.
  revert s. induction p as [|a p IH]; intros s; simpl.
  - split; [intros _; now exists s | reflexivity].
  - destruct s as [|c s].
    + split; [discriminate | intros [b Hb]; discriminate].
    + destruct (Ascii.eqb_spec c a) as [->|Hne]; simpl.
      * rewrite IH. split; intros [b Hb]; exists b; congruence.
      * split; [discriminate | intros [b Hb]; congruence].
Qed.

Lemma startsWith_shorter s p q :
  startsWith s (p +++ q) = true -> startsWith s p = true.
Proof.
  rewrite !startsWith_spec. intros [b Hb]. exists (q +++ b).
  now rewrite Hb, append_assoc.
Qed.

Lemma strip_prefix_spec p s r : strip_prefix p s = Some r <-> s = p +++ r.
Proof.
  revert s. induction p as [|a p IH]; intros s; simpl.
  - split; congruence.
  - destruct s as [|c s]; [split; discriminate|].
    destruct (Ascii.eqb_spec c a) as [->|Hne].
    + rewrite IH. split; congruence.
    + split; [discriminate | congruence].
Qed.

Lemma span_digits_spec r :
  r = fst (span_digits r) +++ snd (span_digits r).
Proof.
  induction r as [|c r IH]; simpl; [reflexivity|].
  destruct (is_digit c); [|reflexivity].
  destruct (span_digits r). simpl in *. congruence.
Qed.

Lemma span_digits_run ds c rest :
  all_digits ds -> is_digit c = false ->
  span_digits (ds +++ String c rest) = (ds, String c rest).
Proof.
  intros Hd Hc. induction ds as [|d ds IH]; simpl.
  - now rewrite Hc.
  - inversion Hd as [|? ? Hdig Hrest]; subst. rewrite Hdig.
    now rewrite (IH Hrest).
Qed.

Lemma rtpmap_here_sound s pt :
  rtpmap_here s = Some pt ->
  pt <> EmptyString /\ all_digits pt
  /\ exists b, s = "a=rtpmap:" +++ pt +++ " opus" +++ b.
Proof.
  intros H. pose proof (rtpmap_here_digits s pt H) as Hd.
  unfold rtpmap_here in H.
  destruct (strip_prefix "a=rtpmap:" s) as [r|] eqn:E; [|discriminate].
  apply strip_prefix_spec in E. pose proof (span_digits_spec r) as Hr.
  destruct (span_digits r) as [ds rest]. simpl in Hr.
  destruct ds as [|d ds]; [discriminate|].
  destruct (startsWith rest " opus") eqn:Ho; [|discriminate].
  inversion H; subst pt. apply startsWith_spec in Ho. destruct Ho as [b Hb].
  split; [discriminate|]. split; [exact Hd|].
  exists b. now rewrite E, Hr, Hb.
Qed.

Lemma rtpmap_here_complete ds b :
  ds <> EmptyString -> all_digits ds ->
  rtpmap_here ("a=rtpmap:" +++ ds +++ " opus" +++ b) = Some ds.
Proof.
  intros Hne Hd. unfold rtpmap_here.
  assert (E : strip_prefix "a=rtpmap:" ("a=rtpmap:" +++ ds +++ " opus" +++ b)
              = Some (ds +++ " opus" +++ b))
    by now apply strip_prefix_spec.
  rewrite E.
  change (" opus" +++ b) with (String " " ("opus" +++ b)).
  rewrite span_digits_run by (auto || reflexivity).
  destruct ds; [congruence | reflexivity].
Qed.

Lemma rtpmap_match_here s pt :
  rtpmap_here s = Some pt -> rtpmap_match s = Some pt.
Proof. intros H. destruct s; cbn [rtpmap_match]; now rewrite H. Qed.

(** X10.  The payload type [setAudioBitrate] reads from a line is a
    non-empty run of decimal digits standing between [a=rtpmap:] and
    [ opus] in that line; and a line that contains such an occurrence
    always yields a payload type. *)
Theorem rtpmap_match_finds_payload_type (line : string) :
  (forall pt,
      rtpmap_match line = Some pt ->
      pt <> EmptyString /\ all_digits pt
      /\ exists a b, line = a +++ "a=rtpmap:" +++ pt +++ " opus" +++ b)
  /\ (forall a ds b,
         ds <> EmptyString -> all_digits ds ->
         line = a +++ "a=rtpmap:" +++ ds +++ " opus" +++ b ->
         exists pt, rtpmap_match line = Some pt).
Proof.
  split.
  - induction line as [|c line IH]; intros pt; cbn [rtpmap_match].
    + destruct (rtpmap_here EmptyString) eqn:E; [|discriminate].
      intros H. inversion H; subst.
      destruct (rtpmap_here_sound _ _ E) as (H1 & H2 & b & Hb).
      split; [exact H1|]. split; [exact H2|]. now exists EmptyString, b.
    + destruct (rtpmap_here (String c line)) as [pt'|] eqn:E.
      * intros H. inversion H; subst.
        destruct (rtpmap_here_sound _ _ E) as (H1 & H2 & b & Hb).
        split; [exact H1|]. split; [exact H2|]. now exists EmptyString, b.
      * intros H. destruct (IH pt H) as (H1 & H2 & a & b & Hab).
        split; [exact H1|]. split; [exact H2|].
        exists (String c a), b. simpl. now rewrite Hab.
  - intros a ds b Hne Hd ->. induction a as [|c a IH].
    + exists ds. simpl append.
      apply rtpmap_match_here. now apply rtpmap_here_complete.
    + destruct IH as [pt Hpt].
      change (String c a +++ "a=rtpmap:" +++ ds +++ " opus" +++ b)
        with (String c (a +++ "a=rtpmap:" +++ ds +++ " opus" +++ b)).
      cbn [rtpmap_match].
      destruct (rtpmap_here (String c _)) as [pt'|]; eauto.
Qed.


(** ** What the loop does to the lines *)

Section PolicyExtra.
Variables bitrate sampleRate : N.

Local Abbreviation suffix := (fmtp_suffix bitrate sampleRate).
Local Abbreviation tias := (bandwidth_line bitrate).
Local Abbreviation extended' := (extended bitrate sampleRate).
Local Abbreviation kept' := (kept bitrate sampleRate).

Local Arguments startsWith : simpl never.
Local Arguments includes : simpl never.
Local Arguments String.append : simpl never.

Lemma extended_suffix_names_bitrate y :
  includes (y +++ suffix) "maxaveragebitrate" = true.
Proof. apply includes_append_r, suffix_names_bitrate. Qed.

Lemma extended_trans x y z : extended' x y -> extended' y z -> extended' x z.
Proof.
  intros [->|(-> & Hs & Hi)] Hyz; [exact Hyz|].
  destruct Hyz as [->|(_ & _ & Hi')].
  - right. auto.
  - rewrite extended_suffix_names_bitrate in Hi'. discriminate.
Qed.

Lemma kept_refl y : kept' y y.
Proof. split; [apply grown_refl | now left]. Qed.

Lemma kept_trans x y z : kept' x y -> kept' y z -> kept' x z.
Proof.
  intros [G1 E1] [G2 E2].
  split; [exact (grown_trans _ _ _ G1 G2) | exact (extended_trans _ _ _ E1 E2)].
Qed.

Lemma kept_all_refl l : Forall2 kept' l l.
Proof. induction l; constructor; auto using kept_refl. Qed.

Lemma kept_all_trans l1 :
  forall l2 l3, Forall2 kept' l1 l2 -> Forall2 kept' l2 l3 ->
                Forall2 kept' l1 l3.
Proof.
  induction l1 as [|x l1 IH]; intros l2 l3 H12 H23.
  - inversion H12; subst. inversion H23; subst. constructor.
  - inversion H12 as [|? y ? l2' Hxy H12']; subst.
    inversion H23 as [|? z ? l3' Hyz H23']; subst.
    constructor; [exact (kept_trans _ _ _ Hxy Hyz) | exact (IH _ _ H12' H23')].
Qed.

Lemma patch_fmtp_kept pt later :
  Forall2 kept' later (patch_fmtp bitrate sampleRate pt later).
Proof.
  induction later as [|l rest IH]; cbn [patch_fmtp]; [constructor|].
  destruct (startsWith l ("a=fmtp:" +++ pt)) eqn:Hs.
  - constructor; [|apply kept_all_refl].
    destruct (includes l "maxaveragebitrate") eqn:Hi; [apply kept_refl|].
    split; [apply grown_suffix|]. right.
    split; [reflexivity|]. split; [|exact Hi].
    exact (startsWith_shorter _ _ _ Hs).
  - constructor; [apply kept_refl | exact IH].
Qed.

Lemma patched_kept line later :
  Forall2 kept' later (patched bitrate sampleRate line later).
Proof.
  unfold patched. destruct (includes line "opus/48000");
    [|apply kept_all_refl].
  destruct (rtpmap_match line); [apply patch_fmtp_kept | apply kept_all_refl].
Qed.

(** The result of the loop is a line-by-line copy of its input, some
    lines extended, with the bandwidth lines put in. *)
Lemma scan_kept todo :
  forall lines,
    List.length lines <= todo ->
    exists copy,
      Forall2 kept' lines copy
      /\ scan bitrate sampleRate todo lines = with_bandwidth bitrate copy.
Proof.
  induction todo as [|todo IH]; intros lines Hlen.
  - destruct lines; [|simpl in Hlen; lia]. exists []. split; constructor.
  - destruct lines as [|line later].
    + exists []. split; constructor.
    + simpl in Hlen.
      destruct (IH (patched bitrate sampleRate line later)) as (copy & Hk & Hs).
      { rewrite patched_length. lia. }
      exists (line :: copy). split.
      * constructor; [apply kept_refl|].
        exact (kept_all_trans _ _ _ (patched_kept line later) Hk).
      * now rewrite scan_cons, with_bandwidth_cons, Hs.
Qed.

Lemma extended_audio y y' :
  kept' y y' -> startsWith y' "m=audio" = startsWith y "m=audio".
Proof.
  intros [(Hstart & _) _]. apply Hstart. simpl. intuition discriminate.
Qed.

Lemma audio_lines_kept lines copy :
  Forall2 kept' lines copy ->
  List.length (audio_lines copy) = List.length (audio_lines lines).
Proof.
  induction 1 as [|y y' lines copy Hy Hrest IH]; [reflexivity|].
  unfold audio_lines in *. cbn [filter]. rewrite (extended_audio _ _ Hy).
  destruct (startsWith y "m=audio"); simpl; now rewrite IH.
Qed.

Lemma with_bandwidth_count lines :
  List.length (with_bandwidth bitrate lines)
  = List.length lines + List.length (audio_lines lines).
Proof.
  induction lines as [|l rest IH]; [reflexivity|].
  rewrite with_bandwidth_cons, length_app, IH. unfold pushed, audio_lines.
  cbn [filter]. destruct (startsWith l "m=audio"); simpl; lia.
Qed.

Lemma kept_extended_all lines copy :
  Forall2 kept' lines copy -> Forall2 extended' lines copy.
Proof. induction 1 as [|? ? ? ? [_ H]]; constructor; auto. Qed.

(** X11.  [setAudioBitrate] drops no line and moves none: the lines of
    its result are the lines of the input in order, each as it was or with
    the parameters appended (only to a line that starts with [a=fmtp:] and
    does not name [maxaveragebitrate] yet), with one [b=TIAS] line put
    after every audio media line. *)
Theorem lines_kept_in_order (sdp : string) :
  exists copy,
    Forall2 (extended bitrate sampleRate) (split sdp) copy
    /\ split (setAudioBitrate bitrate sampleRate sdp)
       = with_bandwidth bitrate copy
    /\ List.length (split (setAudioBitrate bitrate sampleRate sdp))
       = List.length (split sdp) + List.length (audio_lines (split sdp)).
Proof.
  destruct (scan_kept (List.length (split sdp)) (split sdp) (Nat.le_refl _))
    as (copy & Hk & Hs).
  exists copy. rewrite split_setAudioBitrate, Hs.
  split; [now apply kept_extended_all|]. split; [reflexivity|].
  rewrite with_bandwidth_count, (audio_lines_kept _ _ Hk).
  now rewrite (Forall2_length Hk).
Qed.


(** ** The codec's [fmtp] line does get the parameters *)

Lemma patch_fmtp_reaches pt mid f post :
  Forall (fun l => startsWith l ("a=fmtp:" +++ pt) = false) mid ->
  startsWith f ("a=fmtp:" +++ pt) = true ->
  patch_fmtp bitrate sampleRate pt (mid ++ f :: post)
  = mid ++ (if includes f "maxaveragebitrate" then f else f +++ suffix)
        :: post.
Proof.
  intros Hmid Hf. induction Hmid as [|l mid Hl Hmid IH]; cbn [patch_fmtp app].
  - now rewrite Hf.
  - now rewrite Hl, IH.
Qed.

Lemma kept_names_bitrate y y' :
  kept' y y' -> includes y "maxaveragebitrate" = true ->
  includes y' "maxaveragebitrate" = true.
Proof. intros [(_ & _ & _ & H & _) _]. exact H. Qed.

Lemma kept_starts pt y y' :
  all_digits pt -> kept' y y' ->
  startsWith y' ("a=fmtp:" +++ pt) = startsWith y ("a=fmtp:" +++ pt).
Proof.
  intros Hpt [(Hstart & _) _]. apply Hstart. now apply fmtp_prefix_plain.
Qed.

Lemma kept_all_starts pt mid mid' :
  all_digits pt -> Forall2 kept' mid mid' ->
  Forall (fun l => startsWith l ("a=fmtp:" +++ pt) = false) mid ->
  Forall (fun l => startsWith l ("a=fmtp:" +++ pt) = false) mid'.
Proof.
  intros Hpt. induction 1 as [|y y' mid mid' Hy Hrest IH]; intros Hall.
  - constructor.
  - inversion Hall; subst. constructor; [|auto].
    now rewrite (kept_starts pt y y' Hpt Hy).
Qed.

Lemma scan_patches_fmtp pt :
  all_digits pt ->
  forall k pre todo rt mid f post,
    List.length pre = k ->
    List.length (pre ++ rt :: mid ++ f :: post) <= todo ->
    includes rt "opus/48000" = true -> rtpmap_match rt = Some pt ->
    Forall (fun l => startsWith l ("a=fmtp:" +++ pt) = false) mid ->
    startsWith f ("a=fmtp:" +++ pt) = true ->
    exists pre' rt' mid' f' post',
      scan bitrate sampleRate todo (pre ++ rt :: mid ++ f :: post)
      = with_bandwidth bitrate (pre' ++ rt' :: mid' ++ f' :: post')
      /\ Forall2 kept' pre pre' /\ Forall2 kept' mid mid'
      /\ kept' f f' /\ includes f' "maxaveragebitrate" = true.
Proof.
  intros Hpt. induction k as [|k IH];
    intros pre todo rt mid f post Hpre Hlen Hopus Hrt Hmid Hf.
  - destruct pre; [|discriminate].
    destruct todo as [|todo]; [simpl in Hlen; lia|].
    cbn [app] in *. simpl in Hlen. rewrite scan_cons.
    assert (Hp : patched bitrate sampleRate rt (mid ++ f :: post)
                 = mid ++ (if includes f "maxaveragebitrate" then f
                           else f +++ suffix) :: post).
    { unfold patched. rewrite Hopus, Hrt. now apply patch_fmtp_reaches. }
    rewrite Hp.
    set (f1 := if includes f "maxaveragebitrate" then f else f +++ suffix).
    assert (Hk1 : kept' f f1 /\ includes f1 "maxaveragebitrate" = true).
    { subst f1. destruct (includes f "maxaveragebitrate") eqn:Hi.
      - split; [apply kept_refl | exact Hi].
      - split; [|apply extended_suffix_names_bitrate].
        split; [apply grown_suffix|]. right.
        split; [reflexivity|]. split; [|exact Hi].
        exact (startsWith_shorter _ _ _ Hf). }
    destruct Hk1 as [Hk1 Hi1].
    destruct (scan_kept todo (mid ++ f1 :: post)) as (copy & Hk & Hs).
    { rewrite length_app in *. simpl in *. lia. }
    apply Forall2_app_inv_l in Hk.
    destruct Hk as (mid' & tail & Hkm & Hkt & ->).
    inversion Hkt as [|? f' ? post' Hkf Hkp]; subst.
    exists [], rt, mid', f', post'. cbn [app].
    rewrite with_bandwidth_cons, Hs.
    split; [reflexivity|]. split; [constructor|]. split; [exact Hkm|].
    split; [exact (kept_trans _ _ _ Hk1 Hkf)|].
    exact (kept_names_bitrate _ _ Hkf Hi1).
  - destruct pre as [|l pre]; [discriminate|]. injection Hpre as Hpre.
    destruct todo as [|todo]; [simpl in Hlen; lia|].
    cbn [app] in *. simpl in Hlen. rewrite scan_cons.
    pose proof (patched_kept l (pre ++ rt :: mid ++ f :: post)) as Hkp.
    apply Forall2_app_inv_l in Hkp.
    destruct Hkp as (pre1 & tail1 & Hkpre & Hkt & Hp).
    inversion Hkt as [|? rt1 ? tail2 Hkrt Hkt2]; subst.
    apply Forall2_app_inv_l in Hkt2.
    destruct Hkt2 as (mid1 & tail3 & Hkmid & Hkt3 & ->).
    inversion Hkt3 as [|? f1 ? post1 Hkf Hkpost]; subst.
    rewrite Hp.
    destruct (IH pre1 todo rt1 mid1 f1 post1)
      as (pre' & rt' & mid' & f' & post' & Hs & Hk1 & Hk2 & Hk3 & Hi).
    + now rewrite <- (Forall2_length Hkpre).
    + rewrite <- Hp, patched_length. lia.
    + destruct Hkrt as [(_ & Ho & _) _]. congruence.
    + destruct Hkrt as [(_ & _ & Hm & _) _]. congruence.
    + exact (kept_all_starts pt _ _ Hpt Hkmid Hmid).
    + now rewrite (kept_starts pt f f1 Hpt Hkf).
    + exists (l :: pre'), rt', mid', f', post'. cbn [app].
      rewrite with_bandwidth_cons, Hs.
      split; [reflexivity|]. split.
      * constructor; [apply kept_refl|].
        exact (kept_all_trans _ _ _ Hkpre Hk1).
      * split; [exact (kept_all_trans _ _ _ Hkmid Hk2)|].
        split; [exact (kept_trans _ _ _ Hkf Hk3) | exact Hi].
Qed.

Lemma with_bandwidth_app l1 l2 :
  with_bandwidth bitrate (l1 ++ l2)
  = with_bandwidth bitrate l1 ++ with_bandwidth bitrate l2.
Proof. unfold with_bandwidth. apply flat_map_app. Qed.

(** X12.  When a description has a line that names Opus at 48000 Hz with
    payload type [pt], and the first later line that starts with
    [a=fmtp:<pt>] does not name [maxaveragebitrate], the result of
    [setAudioBitrate] has that line with the parameters appended: the
    bitrate cap is applied. *)
Theorem opus_fmtp_line_gets_parameters
        (sdp : string) (pre mid post : list string) (rt f pt : string) :
  split sdp = pre ++ rt :: mid ++ f :: post ->
  includes rt "opus/48000" = true -> rtpmap_match rt = Some pt ->
  Forall (fun l => startsWith l (String.append "a=fmtp:" pt) = false) mid ->
  startsWith f (String.append "a=fmtp:" pt) = true ->
  includes f "maxaveragebitrate" = false ->
  exists before after,
    split (setAudioBitrate bitrate sampleRate sdp)
    = before ++ String.append f (fmtp_suffix bitrate sampleRate) :: after
    /\ List.length pre + List.length mid < List.length before.
Proof.
  intros Hsplit Hopus Hrt Hmid Hf Hi.
  pose proof (rtpmap_match_digits _ _ Hrt) as Hpt.
  destruct (scan_patches_fmtp pt Hpt (List.length pre) pre
              (List.length (split sdp)) rt mid f post)
    as (pre' & rt' & mid' & f' & post' & Hs & Hk1 & Hk2 & Hk3 & Hi'); auto.
  { rewrite Hsplit. lia. }
  assert (f' = f +++ suffix).
  { destruct Hk3 as [_ [->|(-> & _)]]; [congruence | reflexivity]. }
  subst f'.
  rewrite split_setAudioBitrate. rewrite <- Hsplit in Hs. rewrite Hs.
  replace (pre' ++ rt' :: mid' ++ (f +++ suffix) :: post')
    with ((pre' ++ rt' :: mid') ++ (f +++ suffix) :: post')
    by (now rewrite <- app_assoc).
  rewrite with_bandwidth_app, with_bandwidth_cons.
  exists (with_bandwidth bitrate (pre' ++ rt' :: mid')).
  exists ((if startsWith (f +++ suffix) "m=audio" then [tias] else [])
          ++ with_bandwidth bitrate post').
  split; [reflexivity|].
  pose proof (with_bandwidth_length bitrate (pre' ++ rt' :: mid')) as Hl.
  rewrite length_app in Hl. simpl in Hl.
  rewrite (Forall2_length Hk1), (Forall2_length Hk2). lia.
Qed.

End PolicyExtra.


Lemma opus_fmtp_line_gets_parameters_witness :
  split opus_offer
  = [ "v=0"; "m=audio 9 UDP/TLS/RTP/SAVPF 111 0" ]
      ++ "a=rtpmap:111 opus/48000/2"
      :: [] ++ "a=fmtp:111 minptime=10;useinbandfec=1"
      :: [ "a=rtpmap:0 PCMU/8000"; "" ]
  /\ In (String.append "a=fmtp:111 minptime=10;useinbandfec=1"
                       (fmtp_suffix 16000 16000))
        (split (setAudioBitrate 16000 16000 opus_offer)).
Proof.
  split; [reflexivity|].
  destruct (opus_fmtp_line_gets_parameters 16000 16000 opus_offer
              [ "v=0"; "m=audio 9 UDP/TLS/RTP/SAVPF 111 0" ] []
              [ "a=rtpmap:0 PCMU/8000"; "" ]
              "a=rtpmap:111 opus/48000/2"
              "a=fmtp:111 minptime=10;useinbandfec=1" "111"
              eq_refl eq_refl eq_refl (Forall_nil _) eq_refl eq_refl)
    as (before & after & H & _).
  rewrite H. apply in_elt.
Defined.

End CodecExtra.

(* ================================================================== *)
(** * Facts about the client's peer bookkeeping *)
(* ================================================================== *)

Module AppFacts.
Import JS JSFacts JSExtra Client App.

(** ** Connections *)

Lemma close_at_length pc l : List.length (close_at pc l) = List.length l.
Proof.
  revert pc. induction l as [|c l IH]; intros [|pc]; simpl; auto.
Qed.

Lemma close_at_other pc l i :
  i <> pc -> nth_error (close_at pc l) i = nth_error l i.
Proof.
  revert pc i. induction l as [|c l IH]; intros [|pc] [|i] H; simpl; auto;
    try congruence.
Qed.

Lemma close_at_same pc l c :
  nth_error l pc = Some c ->
  nth_error (close_at pc l) pc
  = Some (mkPC (pc_peer c) (pc_username c) (pc_tracks c) true).
Proof.
  revert pc. induction l as [|c0 l IH]; intros [|pc]; simpl; try discriminate.
  - intros H. now inversion H.
  - apply IH.
Qed.

(** Once closed, closed for good. *)
Lemma close_at_keeps_closed pc l i c :
  nth_error l i = Some c -> pc_closed c = true ->
  exists c', nth_error (close_at pc l) i = Some c' /\ pc_closed c' = true.
Proof.
  intros Hc Hcl. destruct (Nat.eq_dec i pc) as [->|Hne].
  - rewrite (close_at_same _ _ _ Hc). eauto.
  - rewrite (close_at_other _ _ _ Hne). eauto.
Qed.

(** ** The peer list *)

Lemma items_app l1 l2 : items (l1 ++ l2) = items l1 ++ items l2.
Proof. unfold items. apply flat_map_app. Qed.

Lemma items_remove_placeholder l : items (remove_placeholder l) = items l.
Proof.
  induction l as [|[|p u] l IH]; simpl; [reflexivity..|].
  now rewrite IH.
Qed.

Lemma existsb_item id l :
  existsb (is_peer_item id) l = true <-> In id (items l).
Proof.
  induction l as [|[|p u] l IH]; simpl.
  - split; [discriminate | tauto].
  - exact IH.
  - rewrite orb_true_iff, IH, String.eqb_eq. tauto.
Qed.

Lemma remove_item_absent id l : ~ In id (items l) -> remove_item id l = l.
Proof.
  induction l as [|[|p u] l IH]; simpl; intros H; [reflexivity| |].
  - now rewrite IH.
  - destruct (String.eqb_spec p id) as [->|Hne]; [tauto|].
    rewrite IH; [reflexivity | tauto].
Qed.

Lemma remove_item_last id u l :
  ~ In id (items l) -> remove_item id (l ++ [PeerItem id u]) = l.
Proof.
  induction l as [|[|p u'] l IH]; simpl; intros H.
  - now rewrite String.eqb_refl.
  - now rewrite IH.
  - destruct (String.eqb_spec p id) as [->|Hne]; [tauto|].
    rewrite IH; [reflexivity | tauto].
Qed.

Lemma items_remove_item id l :
  NoDup (items l) ->
  NoDup (items (remove_item id l))
  /\ forall x, In x (items (remove_item id l)) <-> x <> id /\ In x (items l).
Proof.
  induction l as [|[|p u] l IH]; simpl; intros Hnd.
  - split; [constructor | tauto].
  - exact (IH Hnd).
  - inversion Hnd as [|? ? Hnot Hnd']; subst.
    destruct (String.eqb_spec p id) as [->|Hne].
    + split; [exact Hnd'|]. intros x. split.
      * intros Hx. split; [intros ->; contradiction | now right].
      * intros [Hxi [Hx|Hx]]; [congruence | exact Hx].
    + destruct (IH Hnd') as [IH1 IH2]. simpl. split.
      * constructor; [|exact IH1]. rewrite IH2. tauto.
      * intros x. rewrite IH2. split.
        -- intros [->|[Hx1 Hx2]]; [split; [congruence | now left]|tauto].
        -- intros [Hx1 [Hx2|Hx2]]; auto.
Qed.

Lemma items_removePeerFromUI id l :
  items (removePeerFromUI id l) = items (remove_item id l).
Proof. unfold removePeerFromUI. now destruct (remove_item id l). Qed.

Lemma no_placeholder_remove l :
  forallb (fun c => negb (is_placeholder c)) l = true ->
  remove_placeholder l = l.
Proof.
  induction l as [|[|p u] l IH]; simpl; intros H;
    [reflexivity | discriminate | now rewrite IH].
Qed.

Lemma no_placeholder_remove_item id l :
  forallb (fun c => negb (is_placeholder c)) l = true ->
  forallb (fun c => negb (is_placeholder c)) (remove_item id l) = true.
Proof.
  induction l as [|[|p u] l IH]; simpl; intros H;
    [reflexivity | discriminate |].
  destruct (String.eqb p id); [exact H | simpl; auto].
Qed.

Lemma list_ok_removePeerFromUI id l :
  list_ok l -> list_ok (removePeerFromUI id l).
Proof.
  intros [->|[Hne Hall]].
  - now left.
  - unfold removePeerFromUI.
    pose proof (no_placeholder_remove_item id l Hall) as H.
    destruct (remove_item id l) as [|c rest]; [now left|].
    right. split; [discriminate | exact H].
Qed.

Lemma list_ok_addPeerToUI id u l :
  list_ok l -> ~ In id (items l) ->
  addPeerToUI id u l = remove_placeholder l ++ [PeerItem id u]
  /\ list_ok (addPeerToUI id u l).
Proof.
  intros Hok Hnot. unfold addPeerToUI.
  destruct (existsb (is_peer_item id) (remove_placeholder l)) eqn:E.
  - apply existsb_item in E. rewrite items_remove_placeholder in E.
    contradiction.
  - split; [reflexivity|]. right. split.
    + intros H. apply app_eq_nil in H. destruct H; discriminate.
    + rewrite forallb_app. simpl. rewrite andb_true_r.
      destruct Hok as [->|[_ Hall]]; [reflexivity|].
      now rewrite (no_placeholder_remove l Hall).
Qed.

(** The list entry of a peer that has just been added is taken away whole
    by its removal. *)
Lemma add_then_remove_item id u l :
  list_ok l -> ~ In id (items l) ->
  removePeerFromUI id (addPeerToUI id u l) = l.
Proof.
  intros Hok Hnot.
  destruct (list_ok_addPeerToUI id u l Hok Hnot) as [-> _].
  unfold removePeerFromUI.
  destruct Hok as [->|[Hne Hall]].
  - simpl. now rewrite String.eqb_refl.
  - rewrite (no_placeholder_remove l Hall), (remove_item_last id u l Hnot).
    destruct l; [congruence | reflexivity].
Qed.


(** ** The handlers and the agreement of table, connections and list *)

Lemma synced_core a b : core a = core b -> synced a -> synced b.
Proof.
  intros E [H1 H2 H3 H4 H5]. constructor; rewrite <- E; assumption.
Qed.

Lemma synced_idle : synced idle.
Proof.
  constructor; simpl.
  - constructor.
  - intros id. split; [tauto | discriminate].
  - now left.
  - discriminate.
  - discriminate.
Qed.

Lemma synced_in_room : synced in_room.
Proof.
  constructor; simpl.
  - constructor.
  - intros id. split; [tauto | discriminate].
  - now left.
  - discriminate.
  - discriminate.
Qed.

Lemma synced_absent a id :
  synced a -> JS.has_own id (peers (core a)) = false ->
  ~ In id (items (peersList (core a))).
Proof.
  intros Hs Hno Hin. apply (listed_iff a Hs) in Hin. congruence.
Qed.

Lemma get_undefined {V : Type} id (o : JS.obj V) :
  JS.get id o = JS.Undefined ->
  JS.own id o = None /\ JS.has_own id o = false /\ JS.inherited id = false.
Proof.
  unfold JS.get, JS.has_own. destruct (JS.own id o); [discriminate|].
  destruct (JS.inherited id); [discriminate | auto].
Qed.

(** What [handleAddPeer] leaves behind for a peer it has not seen. *)
Lemma addPeer_new config a :
  JS.get (peer_id config) (peers (core a)) = JS.Undefined ->
  exists u,
    core (fst (addPeer config a))
    = mkClient (JS.set (peer_id config) (List.length (connections (core a)))
                       (peers (core a)))
               (connections (core a)
                ++ [mkPC (peer_id config) u
                         match localStream (core a) with
                         | Some ts => ts
                         | None => []
                         end false])
               (localStream (core a))
               (addPeerToUI (peer_id config) u (peersList (core a))).
Proof.
  intros G. unfold addPeer, handleAddPeer. rewrite G. simpl. eauto.
Qed.

Lemma addPeer_new_requests config a :
  JS.get (peer_id config) (peers (core a)) = JS.Undefined ->
  snd (addPeer config a)
  = if should_create_offer config
    then [CreateOffer (List.length (connections (core a))) (peer_id config)]
    else [].
Proof.
  intros G. unfold addPeer, handleAddPeer. now rewrite G.
Qed.

Lemma addPeer_known config a :
  JS.get (peer_id config) (peers (core a)) <> JS.Undefined ->
  addPeer config a = (a, []).
Proof.
  intros G. unfold addPeer, handleAddPeer.
  destruct (JS.get (peer_id config) (peers (core a)));
    try congruence; simpl; now destruct a.
Qed.

Lemma synced_addPeer config a : synced a -> synced (fst (addPeer config a)).
Proof.
  intros Hs.
  destruct (JS.get (peer_id config) (peers (core a))) eqn:G.
  1,2: rewrite addPeer_known by congruence; exact Hs.
  destruct (addPeer_new config a G) as [u E].
  destruct (get_undefined _ _ G) as (Hown & Hhas & Hinh).
  pose proof (synced_absent a _ Hs Hhas) as Hnot.
  destruct (list_ok_addPeerToUI (peer_id config) u _ (list_shape a Hs) Hnot)
    as [Eadd Hok].
  assert (Hitems : items (addPeerToUI (peer_id config) u
                                      (peersList (core a)))
                   = items (peersList (core a)) ++ [peer_id config]).
  { rewrite Eadd, items_app, items_remove_placeholder. reflexivity. }
  constructor; rewrite E; simpl.
  - rewrite Hitems. apply NoDup_app; [exact (listed_once a Hs)| |].
    + repeat constructor. simpl; tauto.
    + intros x Hx [<-|[]]. contradiction.
  - intros id. rewrite Hitems, in_app_iff, has_own_set, orb_true_iff.
    rewrite (listed_iff a Hs id), String.eqb_eq. simpl.
    split; intros [H|H]; auto.
    destruct H as [H|[]]. now left.
  - exact Hok.
  - intros id pc. rewrite own_set.
    destruct (String.eqb id (peer_id config)) eqn:Eid.
    + apply String.eqb_eq in Eid. subst id. intros H. inversion H; subst pc.
      rewrite nth_error_app2 by lia. rewrite Nat.sub_diag. simpl. eauto.
    + intros H. destruct (session_open a Hs id pc H) as (c & Hc & Hp & Hcl).
      exists c. split; [|auto].
      rewrite nth_error_app1; [exact Hc|].
      apply nth_error_Some. congruence.
  - intros id. rewrite has_own_set, orb_true_iff, String.eqb_eq.
    intros [->|H]; [exact Hinh | exact (plain_peers a Hs id H)].
Qed.

(** [handleRemovePeer] for a name [Object.prototype] does not have. *)
Lemma handleRemovePeer_plain id a :
  JS.inherited id = false ->
  snd (handleRemovePeer id a) = false
  /\ core (fst (handleRemovePeer id a))
     = match JS.own id (peers (core a)) with
       | Some pc =>
           mkClient (JS.delete id (peers (core a)))
                    (close_at pc (connections (core a)))
                    (localStream (core a))
                    (removePeerFromUI id (peersList (core a)))
       | None =>
           mkClient (peers (core a)) (connections (core a))
                    (localStream (core a))
                    (removePeerFromUI id (peersList (core a)))
       end.
Proof.
  intros Hinh. unfold handleRemovePeer.
  rewrite (get_plain _ _ Hinh).
  destruct (JS.own id (peers (core a))) as [pc|]; simpl;
    rewrite (get_plain _ _ Hinh);
    destruct (JS.own id (peerAudioElements a)) as [ref|]; simpl; auto.
Qed.

(** For a name [Object.prototype] has, the handler stops at the first
    test. *)
Lemma handleRemovePeer_inherited id a :
  synced a -> JS.inherited id = true -> handleRemovePeer id a = (a, true).
Proof.
  intros Hs Hinh. unfold handleRemovePeer, JS.get.
  destruct (JS.own id (peers (core a))) as [pc|] eqn:Hown.
  - assert (H : JS.has_own id (peers (core a)) = true)
      by (apply has_own_true; eauto).
    apply (plain_peers a Hs) in H. congruence.
  - now rewrite Hinh.
Qed.

Lemma removePeerFromUI_absent id l :
  list_ok l -> ~ In id (items l) -> removePeerFromUI id l = l.
Proof.
  intros Hok Hnot. unfold removePeerFromUI.
  rewrite (remove_item_absent id l Hnot).
  destruct Hok as [->|[Hne _]]; [reflexivity|].
  destruct l; [congruence | reflexivity].
Qed.

Lemma synced_handleRemovePeer id a :
  synced a -> synced (fst (handleRemovePeer id a)).
Proof.
  intros Hs. destruct (JS.inherited id) eqn:Hinh.
  { now rewrite handleRemovePeer_inherited. }
  destruct (handleRemovePeer_plain id a Hinh) as [_ E].
  destruct (JS.own id (peers (core a))) as [pc|] eqn:Hown.
  - destruct (items_remove_item id _ (listed_once a Hs)) as [Hnd Hin].
    constructor; rewrite E; simpl.
    + now rewrite items_removePeerFromUI.
    + intros x. rewrite items_removePeerFromUI, Hin, has_own_delete.
      rewrite andb_true_iff, negb_true_iff, (listed_iff a Hs x).
      rewrite <- not_true_iff_false, String.eqb_eq. tauto.
    + apply list_ok_removePeerFromUI. exact (list_shape a Hs).
    + intros x pc'. rewrite own_delete.
      destruct (String.eqb x id) eqn:Ex; [discriminate|].
      apply String.eqb_neq in Ex. intros H.
      destruct (session_open a Hs x pc' H) as (c & Hc & Hp & Hcl).
      destruct (session_open a Hs id pc Hown) as (c0 & Hc0 & Hp0 & _).
      exists c. split; [|auto]. rewrite close_at_other; [exact Hc|].
      intros ->. congruence.
    + intros x. rewrite has_own_delete, andb_true_iff.
      intros [_ H]. exact (plain_peers a Hs x H).
  - assert (Hhas : JS.has_own id (peers (core a)) = false)
      by now apply has_own_false.
    rewrite (removePeerFromUI_absent id _ (list_shape a Hs)
               (synced_absent a id Hs Hhas)) in E.
    apply (synced_core a); [|exact Hs].
    rewrite E. now destruct (core a).
Qed.

Lemma synced_leaveRoom a : synced (fst (leaveRoom a)).
Proof.
  constructor; simpl.
  - constructor.
  - intros id. split; [tauto | discriminate].
  - now left.
  - discriminate.
  - discriminate.
Qed.

Lemma synced_step a i : synced a -> synced (step a i).
Proof.
  intros Hs. destruct i as [config|id|id| |loud]; simpl.
  - now apply synced_addPeer.
  - now apply synced_handleRemovePeer.
  - destruct (has_connection id a); [|exact Hs].
    now apply (synced_core a).
  - apply synced_leaveRoom.
  - apply (synced_core a); [|exact Hs].
    unfold checkVoiceActivity.
    now destruct (negb (vadAnalyser a)
                  || negb (channel_set (currentChannel a))).
Qed.

(** X13.  Whatever the client is fed, starting from a state in which the
    table of peers, the connections and the peer list agree (the state the
    page loads in, or any state [leaveRoom] leaves), they agree afterwards:
    the list shows every peer of the table once and nothing else, it shows
    the placeholder exactly when it has no entry, every peer of the table
    has an open connection made for it, and no peer is filed under a
    property name of [Object.prototype].  This holds also across a
    [removePeer] that ends in a [TypeError]. *)
Theorem table_list_and_connections_agree (a : app) (inputs : list input) :
  synced a -> synced (run inputs a).
Proof.
  revert a. induction inputs as [|i rest IH]; intros a Hs; simpl.
  - exact Hs.
  - apply IH. now apply synced_step.
Qed.

Lemma table_list_and_connections_agree_witness :
  synced idle
  /\ synced (run [InAddPeer (mkAddPeer "abcdefgh" "" true);
                  InRemoteTrack "abcdefgh";
                  InFrame true;
                  InRemovePeer "constructor";
                  InRemovePeer "abcdefgh";
                  InLeave] idle).
Proof.
  split; [exact synced_idle|].
  apply table_list_and_connections_agree. exact synced_idle.
Defined.


Lemma close_at_last l c :
  close_at (List.length l) (l ++ [c])
  = l ++ [mkPC (pc_peer c) (pc_username c) (pc_tracks c) true].
Proof. induction l as [|c0 l IH]; simpl; [reflexivity | now rewrite IH]. Qed.

(** The client after an addition and the removal of the same peer. *)
Lemma add_remove_core (config : add_peer) (a : app) :
  synced a ->
  JS.get (peer_id config) (peers (core a)) = JS.Undefined ->
  snd (handleRemovePeer (peer_id config) (fst (addPeer config a))) = false
  /\ exists c,
       core (fst (handleRemovePeer (peer_id config)
                                   (fst (addPeer config a))))
       = mkClient (peers (core a)) (connections (core a) ++ [c])
                  (localStream (core a)) (peersList (core a))
       /\ pc_peer c = peer_id config /\ pc_closed c = true.
Proof.
  intros Hs G.
  destruct (get_undefined _ _ G) as (Hown & Hhas & Hinh).
  destruct (addPeer_new config a G) as [u E].
  destruct (handleRemovePeer_plain (peer_id config) (fst (addPeer config a))
              Hinh) as [Hthrew Hcore].
  rewrite E in Hcore. cbn [peers connections localStream peersList] in Hcore.
  rewrite own_set_same in Hcore.
  split; [exact Hthrew|]. eexists. rewrite Hcore.
  rewrite (delete_set_new _ _ _ Hhas), close_at_last.
  rewrite (add_then_remove_item _ u _ (list_shape a Hs)
             (synced_absent a _ Hs Hhas)).
  split; [reflexivity|]. simpl. auto.
Qed.

(** X14.  A peer that is added and then removed leaves the client as it
    was: for a peer the table does not hold, [handleAddPeer] followed by
    [handleRemovePeer] ends without an error, gives back the table of
    peers, the peer list (placeholder included) and the local stream as
    they were, and leaves exactly one more connection in the store, the
    one made for this peer, closed. *)
Theorem add_then_remove_restores (config : add_peer) (a : app) :
  synced a ->
  JS.get (peer_id config) (peers (core a)) = JS.Undefined ->
  snd (handleRemovePeer (peer_id config) (fst (addPeer config a))) = false
  /\ peers (core (fst (handleRemovePeer (peer_id config)
                                         (fst (addPeer config a)))))
     = peers (core a)
  /\ peersList (core (fst (handleRemovePeer (peer_id config)
                                             (fst (addPeer config a)))))
     = peersList (core a)
  /\ localStream (core (fst (handleRemovePeer (peer_id config)
                                               (fst (addPeer config a)))))
     = localStream (core a)
  /\ exists c,
       connections (core (fst (handleRemovePeer (peer_id config)
                                                (fst (addPeer config a)))))
       = connections (core a) ++ [c]
       /\ pc_peer c = peer_id config /\ pc_closed c = true.
Proof.
  intros Hs G.
  destruct (add_remove_core config a Hs G) as (Hthrew & c & E & Hp & Hcl).
  rewrite E. cbn [peers connections localStream peersList].
  refine (conj Hthrew (conj eq_refl (conj eq_refl (conj eq_refl _)))).
  exists c. auto.
Qed.

Lemma add_then_remove_restores_witness :
  synced idle
  /\ JS.get "abcdefgh" (peers (core idle)) = JS.Undefined
  /\ peersList (core (fst (handleRemovePeer "abcdefgh"
                             (fst (addPeer (mkAddPeer "abcdefgh" "" true)
                                           idle)))))
     = [Placeholder].
Proof.
  split; [exact synced_idle|]. split; [reflexivity|].
  apply (add_then_remove_restores (mkAddPeer "abcdefgh" "" true) idle
           synced_idle eq_refl).
Defined.

(** X15.  A [removePeer] for a peer the client does not know (no entry in
    the table, no audio element) changes nothing and raises nothing: the
    placeholder is not shown a second time and no entry of the list is
    lost.  The hub sends such events: on [part] the leaver is told to
    remove every remaining member. *)
Theorem remove_unknown_peer_changes_nothing (id : string) (a : app) :
  synced a ->
  JS.get id (peers (core a)) = JS.Undefined ->
  JS.get id (peerAudioElements a) = JS.Undefined ->
  handleRemovePeer id a = (a, false).
Proof.
  intros Hs G Ga.
  destruct (get_undefined _ _ G) as (Hown & Hhas & Hinh).
  unfold handleRemovePeer. rewrite G, Ga.
  rewrite (removePeerFromUI_absent id _ (list_shape a Hs)
             (synced_absent a id Hs Hhas)).
  destruct a as [[p c l pl] ? ? ? ? ? ? ? ? ? ?]. reflexivity.
Qed.

Lemma remove_unknown_peer_changes_nothing_witness :
  synced in_room
  /\ handleRemovePeer "abcdefgh" in_room = (in_room, false).
Proof.
  split; [exact synced_in_room|].
  apply (remove_unknown_peer_changes_nothing "abcdefgh" in_room
           synced_in_room); reflexivity.
Defined.

(** X16.  A relayed candidate or session description is handed to at most
    one connection, the one the table holds for the sender; when the table
    and the connections agree this is a connection made for that sender
    and not yet closed.  For a sender without an entry (never added, or
    removed) nothing is called. *)
Theorem relayed_message_goes_to_open_connection
        (id body : string) (a : app) :
  synced a ->
  match JS.own id (peers (core a)) with
  | Some pc =>
      handleIceCandidate id body a = [AddIceCandidate pc body]
      /\ handleSessionDescription id body a = [SetRemoteDescription pc body]
      /\ exists c, nth_error (connections (core a)) pc = Some c
                   /\ pc_peer c = id /\ pc_closed c = false
  | None =>
      handleIceCandidate id body a = []
      /\ handleSessionDescription id body a = []
  end.
Proof.
  intros Hs. unfold handleIceCandidate, handleSessionDescription, JS.get.
  destruct (JS.own id (peers (core a))) as [pc|] eqn:Hown.
  - refine (conj eq_refl (conj eq_refl _)).
    exact (session_open a Hs id pc Hown).
  - now destruct (JS.inherited id).
Qed.

Lemma relayed_message_goes_to_open_connection_witness :
  handleIceCandidate "abcdefgh" "candidate:1"
    (fst (addPeer (mkAddPeer "abcdefgh" "" true) idle))
  = [AddIceCandidate 0 "candidate:1"].
Proof.
  apply (relayed_message_goes_to_open_connection "abcdefgh" "candidate:1"
           (fst (addPeer (mkAddPeer "abcdefgh" "" true) idle))).
  apply synced_addPeer. exact synced_idle.
Defined.


(** ** Leaving the room *)

Lemma close_all_spec (entries : list (string * pc_ref)) :
  forall (conns : list peer_connection) i c,
    nth_error conns i = Some c ->
    exists c',
      nth_error (fold_left (fun l entry => close_at (snd entry) l)
                           entries conns) i = Some c'
      /\ pc_peer c' = pc_peer c
      /\ (pc_closed c = true \/ In i (map snd entries) ->
          pc_closed c' = true)
      /\ (pc_closed c' = true ->
          pc_closed c = true \/ In i (map snd entries)).
Proof.
  induction entries as [|[k pc] rest IH]; intros conns i c Hc; simpl.
  - exists c. repeat split; auto. intros [H|[]]; exact H.
  - destruct (Nat.eq_dec i pc) as [->|Hne].
    + destruct (IH (close_at pc conns) pc _ (close_at_same _ _ _ Hc))
        as (c' & Hc' & Hp & Hcl & Hback).
      exists c'. simpl in *. split; [exact Hc'|]. split; [exact Hp|].
      split; auto.
    + rewrite <- (close_at_other pc conns i Hne) in Hc.
      destruct (IH (close_at pc conns) i c Hc) as (c' & Hc' & Hp & Hcl & Hb).
      exists c'. split; [exact Hc'|]. split; [exact Hp|]. split.
      * intros [H|[H|H]]; auto; congruence.
      * intros H. destruct (Hb H) as [H'|H']; auto.
Qed.

Lemma close_all_length (entries : list (string * pc_ref)) :
  forall conns,
    List.length (fold_left (fun l entry => close_at (snd entry) l)
                           entries conns) = List.length conns.
Proof.
  induction entries as [|e rest IH]; intros conns; simpl; [reflexivity|].
  now rewrite IH, close_at_length.
Qed.

Lemma remove_all_spec (entries : list (string * audio_ref)) :
  forall (l : list (audio_ref * string)) e,
    In e (fold_left (fun l entry => remove_audio (snd entry) l) entries l)
    <-> In e l /\ ~ In (fst e) (map snd entries).
Proof.
  induction entries as [|[k ref] rest IH]; intros l e; simpl.
  - tauto.
  - rewrite IH. unfold remove_audio. rewrite filter_In, negb_true_iff.
    rewrite Nat.eqb_neq. simpl. split.
    + intros [[H1 H2] H3]. split; [exact H1|]. intros [H|H]; auto.
    + intros [H1 H2]. repeat split; auto.
Qed.

(** X17.  [leaveRoom] takes the whole session down, whatever the state:
    the table of peers and the registry of audio elements are empty, the
    peer list shows the placeholder alone, the local stream is dropped;
    every connection of the table is closed (none is lost from the store,
    and a connection is closed afterwards only if it was closed before or
    was in the table); no audio element of the registry is left in the
    page, and the elements of the page that were not registered stay;
    the hub is told [part] and then the disconnection exactly when there
    was a socket; and a second [leaveRoom] changes nothing and sends
    nothing. *)
Theorem leave_room_takes_session_down (a : app) :
  peers (core (fst (leaveRoom a))) = []
  /\ peerAudioElements (fst (leaveRoom a)) = []
  /\ peersList (core (fst (leaveRoom a))) = [Placeholder]
  /\ localStream (core (fst (leaveRoom a))) = None
  /\ List.length (connections (core (fst (leaveRoom a))))
     = List.length (connections (core a))
  /\ (forall i c,
        nth_error (connections (core a)) i = Some c ->
        exists c',
          nth_error (connections (core (fst (leaveRoom a)))) i = Some c'
          /\ pc_peer c' = pc_peer c
          /\ (pc_closed c' = true
              <-> pc_closed c = true
                  \/ exists id, In (id, i) (peers (core a))))
  /\ (forall e,
        In e (audioContainer (fst (leaveRoom a)))
        <-> In e (audioContainer a)
            /\ forall id, ~ In (id, fst e) (peerAudioElements a))
  /\ snd (leaveRoom a)
     = (if signalingSocket a
        then [Hub.ReqPart (channel_key (currentChannel a));
              Hub.ReqDisconnect]
        else [])
  /\ leaveRoom (fst (leaveRoom a)) = (fst (leaveRoom a), []).
Proof.
  refine (conj eq_refl (conj eq_refl (conj eq_refl (conj eq_refl
            (conj _ (conj _ (conj _ (conj eq_refl eq_refl)))))))).
  - simpl. apply close_all_length.
  - intros i c Hc. simpl.
    destruct (close_all_spec (peers (core a)) _ i c Hc)
      as (c' & Hc' & Hp & Hcl & Hback).
    exists c'. split; [exact Hc'|]. split; [exact Hp|].
    assert (Hin : In i (map snd (peers (core a)))
                  <-> exists id, In (id, i) (peers (core a))).
    { rewrite in_map_iff. split.
      - intros [[id j] [Hj Hin]]. simpl in Hj. subst j. eauto.
      - intros [id Hin]. exists (id, i). auto. }
    rewrite <- Hin. split; auto.
  - intros e. simpl. rewrite remove_all_spec. rewrite in_map_iff.
    split; intros [H1 H2]; (split; [exact H1|]).
    + intros id Hin. apply H2. exists (id, fst e). auto.
    + intros [[id j] [Hj Hin]]. simpl in Hj. subst j. exact (H2 id Hin).
Qed.


(** ** Voice activity *)

Lemma frames_cons loud rest a :
  fst (frames (loud :: rest) a)
  = fst (frames rest (fst (fst (checkVoiceActivity loud a))))
  /\ snd (frames (loud :: rest) a)
     = snd (fst (checkVoiceActivity loud a))
       ++ snd (frames rest (fst (fst (checkVoiceActivity loud a)))).
Proof.
  simpl. destruct (checkVoiceActivity loud a) as [[a1 sent] next]. simpl.
  destruct (frames rest a1) as [a2 sent']. auto.
Qed.

(** One frame while the detection runs. *)
Lemma frame_facts loud a :
  vadAnalyser a = true -> channel_set (currentChannel a) = true ->
  vadAnalyser (fst (fst (checkVoiceActivity loud a))) = true
  /\ currentChannel (fst (fst (checkVoiceActivity loud a)))
     = currentChannel a
  /\ isMuted (fst (fst (checkVoiceActivity loud a))) = isMuted a
  /\ speakingFrameCount (fst (fst (checkVoiceActivity loud a)))
     = (if loud
        then Z.min (speakingFrameCount a + 1) vadSmoothingFrames
        else Z.max (speakingFrameCount a - 1) 0)
  /\ isSpeaking (fst (fst (checkVoiceActivity loud a)))
     = (vadSmoothingFrames
        <=? 2 * speakingFrameCount (fst (fst (checkVoiceActivity loud a))))%Z
  /\ snd (fst (checkVoiceActivity loud a))
     = (if Bool.eqb (isSpeaking (fst (fst (checkVoiceActivity loud a))))
                    (isSpeaking a)
        then []
        else if signalingSocket a
             then [Hub.ReqSpeakingStatus
                     (channel_key (currentChannel a))
                     (isSpeaking (fst (fst (checkVoiceActivity loud a)))
                      && negb (isMuted a))]
             else []).
Proof.
  intros Hv Hc. unfold checkVoiceActivity. rewrite Hv, Hc. simpl.
  rewrite andb_true_r. auto 10.
Qed.

Lemma frames_counter louds :
  forall a,
    vadAnalyser a = true -> channel_set (currentChannel a) = true ->
    (0 <= speakingFrameCount a <= vadSmoothingFrames)%Z ->
    (0 <= speakingFrameCount (fst (frames louds a)) <= vadSmoothingFrames)%Z
    /\ (louds <> [] ->
        isSpeaking (fst (frames louds a))
        = (vadSmoothingFrames
           <=? 2 * speakingFrameCount (fst (frames louds a)))%Z)
    /\ (forallb (fun l => l) louds = true ->
        speakingFrameCount (fst (frames louds a))
        = Z.min (speakingFrameCount a + Z.of_nat (List.length louds))
                vadSmoothingFrames)
    /\ (forallb negb louds = true ->
        speakingFrameCount (fst (frames louds a))
        = Z.max (speakingFrameCount a - Z.of_nat (List.length louds)) 0).
Proof.
  induction louds as [|loud rest IH]; intros a Hv Hc Hb.
  - simpl. repeat split; try lia. congruence.
  - destruct (frames_cons loud rest a) as [-> _].
    destruct (frame_facts loud a Hv Hc) as (Hv' & Hc' & _ & Hn & Hsp & _).
    assert (Hb' : (0 <= speakingFrameCount
                          (fst (fst (checkVoiceActivity loud a)))
                   <= vadSmoothingFrames)%Z).
    { rewrite Hn. unfold vadSmoothingFrames in *. destruct loud; lia. }
    rewrite <- Hc' in Hc.
    destruct (IH _ Hv' Hc Hb') as (I1 & I2 & I3 & I4).
    split; [exact I1|]. split; [|split].
    + intros _. destruct rest as [|l2 rest']; [exact Hsp|].
      apply I2. discriminate.
    + cbn [forallb]. intros H. apply andb_true_iff in H.
      destruct H as [Hl Hrest]. subst loud. rewrite (I3 Hrest), Hn.
      cbn [List.length]. unfold vadSmoothingFrames in *. lia.
    + cbn [forallb]. intros H. apply andb_true_iff in H.
      destruct H as [Hl Hrest]. apply negb_true_iff in Hl. subst loud.
      rewrite (I4 Hrest), Hn.
      cbn [List.length]. unfold vadSmoothingFrames in *. lia.
Qed.

Lemma frames_sent louds :
  forall a r,
    vadAnalyser a = true -> channel_set (currentChannel a) = true ->
    In r (snd (frames louds a)) ->
    exists flag,
      r = Hub.ReqSpeakingStatus (channel_key (currentChannel a)) flag
      /\ (isMuted a = true -> flag = false).
Proof.
  induction louds as [|loud rest IH]; intros a r Hv Hc Hin.
  - destruct Hin.
  - destruct (frames_cons loud rest a) as [_ E]. rewrite E in Hin.
    destruct (frame_facts loud a Hv Hc) as (Hv' & Hc' & Hm & _ & _ & Hs).
    apply in_app_or in Hin. destruct Hin as [Hin|Hin].
    + rewrite Hs in Hin.
      destruct (Bool.eqb _ (isSpeaking a)); [destruct Hin|].
      destruct (signalingSocket a); [|destruct Hin].
      destruct Hin as [<-|[]]. eexists. split; [reflexivity|].
      intros ->. apply andb_false_r.
    + rewrite <- Hc', <- Hm. apply (IH _ r Hv'); [|exact Hin].
      now rewrite Hc'.
Qed.

(** A short run of frames against a saturated counter moves neither the
    flag nor the hub. *)
Lemma frames_short louds a (full : bool) :
  vadAnalyser a = true -> channel_set (currentChannel a) = true ->
  (List.length louds <= 2)%nat ->
  speakingFrameCount a = (if full then vadSmoothingFrames else 0)%Z ->
  isSpeaking a = full ->
  isSpeaking (fst (frames louds a)) = full /\ snd (frames louds a) = [].
Proof.
  intros Hv Hc Hlen Hn Hsp.
  destruct louds as [|l1 [|l2 [|l3 rest]]]; simpl in Hlen; try lia.
  - simpl. auto.
  - destruct (frames_cons l1 [] a) as [-> ->]. simpl. rewrite app_nil_r.
    destruct (frame_facts l1 a Hv Hc) as (_ & _ & _ & Hn1 & Hs1 & ->).
    rewrite Hs1, Hn1, Hn, Hsp. unfold vadSmoothingFrames.
    now destruct full, l1.
  - destruct (frames_cons l1 [l2] a) as [-> ->].
    destruct (frame_facts l1 a Hv Hc) as (Hv1 & Hc1 & _ & Hn1 & Hs1 & ->).
    rewrite <- Hc1 in Hc.
    destruct (frames_cons l2 [] (fst (fst (checkVoiceActivity l1 a))))
      as [-> ->]. simpl. rewrite app_nil_r.
    destruct (frame_facts l2 _ Hv1 Hc) as (_ & _ & _ & Hn2 & Hs2 & ->).
    rewrite Hs2, Hn2, Hs1, Hn1, Hn, Hsp. unfold vadSmoothingFrames.
    now destruct full, l1, l2.
Qed.

(** X18.  Voice detection is smoothed.  While the detection runs (an
    analyser and a channel are set) and the frame counter is within
    [0, vadSmoothingFrames], any run of frames keeps it there; whatever is
    sent is a speaking status for the current channel, and it says "not
    speaking" whenever the microphone is muted; three or more loud frames
    in a row end with the client speaking, three or more quiet frames in a
    row end with it silent, whatever came before; and from a saturated
    counter (at the top and speaking, or at 0 and silent), one or two
    frames of any kind change neither the flag nor send anything. *)
Theorem voice_detection_is_smoothed (a : app) (louds : list bool) :
  vadAnalyser a = true -> channel_set (currentChannel a) = true ->
  (0 <= speakingFrameCount a <= vadSmoothingFrames)%Z ->
  (0 <= speakingFrameCount (fst (frames louds a)) <= vadSmoothingFrames)%Z
  /\ (forall r,
        In r (snd (frames louds a)) ->
        exists flag,
          r = Hub.ReqSpeakingStatus (channel_key (currentChannel a)) flag
          /\ (isMuted a = true -> flag = false))
  /\ ((3 <= List.length louds)%nat ->
      forallb (fun l => l) louds = true ->
      isSpeaking (fst (frames louds a)) = true)
  /\ ((3 <= List.length louds)%nat ->
      forallb negb louds = true ->
      isSpeaking (fst (frames louds a)) = false)
  /\ ((List.length louds <= 2)%nat ->
      speakingFrameCount a = vadSmoothingFrames -> isSpeaking a = true ->
      isSpeaking (fst (frames louds a)) = true
      /\ snd (frames louds a) = [])
  /\ ((List.length louds <= 2)%nat ->
      speakingFrameCount a = 0%Z -> isSpeaking a = false ->
      isSpeaking (fst (frames louds a)) = false
      /\ snd (frames louds a) = []).
Proof.
  intros Hv Hc Hb.
  destruct (frames_counter louds a Hv Hc Hb) as (I1 & I2 & I3 & I4).
  split; [exact I1|]. split; [|split; [|split; [|split]]].
  - intros r. now apply frames_sent.
  - intros Hlen Hall.
    rewrite I2 by (destruct louds; simpl in *; [lia | congruence]).
    rewrite (I3 Hall). unfold vadSmoothingFrames in *.
    apply Z.leb_le. lia.
  - intros Hlen Hall.
    rewrite I2 by (destruct louds; simpl in *; [lia | congruence]).
    rewrite (I4 Hall). unfold vadSmoothingFrames in *.
    apply Z.leb_gt. lia.
  - intros Hlen Hn Hsp. now apply (frames_short louds a true).
  - intros Hlen Hn Hsp. now apply (frames_short louds a false).
Qed.

Lemma voice_detection_is_smoothed_witness :
  isSpeaking (fst (frames [true; true; true] in_room)) = true.
Proof.
  refine (proj1 (proj2 (proj2
            (voice_detection_is_smoothed in_room [true; true; true]
               eq_refl eq_refl _))) _ eq_refl).
  - unfold vadSmoothingFrames. simpl. lia.
  - simpl. lia.
Defined.

End AppFacts.

(* ================================================================== *)
(** * Facts about hub and client together *)
(* ================================================================== *)

Module RoomFacts.
Import JS JSFacts JSExtra Hub HubSpec HubFacts HubExtra Client App AppFacts.
Import Room.

Lemma receive_all_cons e rest a :
  fst (receive_all (e :: rest) a) = fst (receive_all rest (fst (receive e a)))
  /\ snd (receive_all (e :: rest) a)
     = snd (receive e a) ++ snd (receive_all rest (fst (receive e a))).
Proof.
  simpl. destruct (receive e a) as [a1 reqs]. simpl.
  destruct (receive_all rest a1) as [a2 reqs']. auto.
Qed.

Lemma receive_all_app es1 es2 a :
  fst (receive_all (es1 ++ es2) a)
  = fst (receive_all es2 (fst (receive_all es1 a)))
  /\ snd (receive_all (es1 ++ es2) a)
     = snd (receive_all es1 a)
       ++ snd (receive_all es2 (fst (receive_all es1 a))).
Proof.
  revert a. induction es1 as [|e rest IH]; intros a.
  - simpl. auto.
  - rewrite <- app_comm_cons.
    destruct (receive_all_cons e (rest ++ es2) a) as [-> ->].
    destruct (receive_all_cons e rest a) as [-> ->].
    destruct (IH (fst (receive e a))) as [-> ->].
    now rewrite app_assoc.
Qed.

Lemma get_set_other {V : Type} k (v : V) o k' :
  k' <> k -> JS.get k' (JS.set k v o) = JS.get k' o.
Proof. intros H. unfold JS.get. now rewrite own_set_other. Qed.

(** A client that learns of peers it does not know, each with a request
    for an offer. *)
Lemma receive_introductions (nm : string -> display_name) ids :
  forall a,
    NoDup ids -> synced a ->
    (forall m, In m ids -> JS.get m (peers (core a)) = JS.Undefined) ->
    snd (receive_all (map (fun id => AddPeer id (nm id) true) ids) a)
    = offers (List.length (connections (core a))) ids
    /\ synced (fst (receive_all (map (fun id => AddPeer id (nm id) true) ids)
                                a))
    /\ forall x,
         JS.has_own x
           (peers (core (fst (receive_all
                                (map (fun id => AddPeer id (nm id) true) ids)
                                a)))) = true
         <-> In x ids \/ JS.has_own x (peers (core a)) = true.
Proof.
  induction ids as [|id rest IH]; intros a Hnd Hs Hnew.
  - simpl. split; [reflexivity|]. split; [exact Hs|]. tauto.
  - inversion Hnd as [|? ? Hnot Hnd']; subst.
    cbn [map].
    destruct (receive_all_cons (AddPeer id (nm id) true)
                (map (fun id => AddPeer id (nm id) true) rest) a)
      as [-> ->].
    cbn [receive].
    set (config := mkAddPeer id (wire_name (nm id)) true).
    assert (G : JS.get (peer_id config) (peers (core a)) = JS.Undefined)
      by (apply Hnew; now left).
    destruct (addPeer_new config a G) as [u E].
    assert (Hnew' : forall m, In m rest ->
                JS.get m (peers (core (fst (addPeer config a))))
                = JS.Undefined).
    { intros m Hm. rewrite E. cbn [peers].
      rewrite get_set_other; [apply Hnew; now right|].
      simpl. intros ->. contradiction. }
    destruct (IH _ Hnd' (synced_addPeer config a Hs) Hnew')
      as (I1 & I2 & I3).
    rewrite (addPeer_new_requests config a G). cbn [should_create_offer config].
    split; [|split; [exact I2|]].
    + rewrite I1, E. cbn [connections offers peer_id config].
      rewrite length_app. cbn [List.length]. rewrite Nat.add_1_r.
      reflexivity.
    + intros x. rewrite I3, E. cbn [peers]. rewrite has_own_set.
      rewrite orb_true_iff, String.eqb_eq. simpl. intuition congruence.
Qed.


Lemma unknown_valid_peer {V : Type} id (o : JS.obj V) :
  JS.inherited id = false -> JS.has_own id o = false ->
  JS.get id o = JS.Undefined.
Proof.
  intros Hinh Hno. apply has_own_false in Hno.
  now rewrite (get_plain _ _ Hinh), Hno.
Qed.

Lemma member_valid st m c : consistent st -> member st m c -> valid_id m.
Proof.
  intros Hc (r & Hr & Hm). apply has_own_true in Hm. destruct Hm as [t Ht].
  destruct (roster_sound st Hc c r m t Hr Ht) as (_ & _ & Hconn).
  exact (connected_valid st Hc m Hconn).
Qed.

(** What a member and the joiner hear of an accepted join. *)
Lemma join_heard_by_member st s config m :
  consistent st -> join_accepted st s config ->
  member st m (jc_channel config) ->
  m <> s
  /\ delivered_to m (emitted (join s config st))
     = [AddPeer s (name_of (join_usernames s config st) s) false].
Proof.
  intros Hc Ha Hm.
  pose proof (not_on_roster_before_join st s config Hc Ha) as Hnew.
  apply member_roster_at in Hm.
  assert (Hne : m <> s) by (intros ->; congruence).
  split; [exact Hne|].
  rewrite (join_emitted s config st Ha), delivered_to_app.
  unfold introduce.
  pose proof (delivered_pairwise
                (AddPeer s (name_of (join_usernames s config st) s) false)
                (fun id => AddPeer id (name_of (join_usernames s config st) id)
                                   true)
                s m _ (roster_at_ok st (jc_channel config) Hc) Hne) as H.
  rewrite Hm in H.
  change (delivered_to m (introduce s (join_usernames s config st)
                            (roster_at (jc_channel config) (channels st)))
          = [AddPeer s (name_of (join_usernames s config st) s) false])
    in H.
  unfold introduce in H. rewrite H. unfold delivered_to. simpl.
  apply not_eq_sym in Hne. apply String.eqb_neq in Hne. now rewrite Hne.
Qed.

Lemma join_heard_by_joiner st s config :
  consistent st -> join_accepted st s config ->
  exists users,
    delivered_to s (emitted (join s config st))
    = map (fun id => AddPeer id (name_of (join_usernames s config st) id)
                             true)
          (keys (roster_at (jc_channel config) (channels st)))
      ++ [UserList users].
Proof.
  intros Hc Ha.
  pose proof (not_on_roster_before_join st s config Hc Ha) as Hnew.
  eexists.
  rewrite (join_emitted s config st Ha), delivered_to_app.
  unfold introduce.
  pose proof (delivered_pairwise_subject
                (AddPeer s (name_of (join_usernames s config st) s) false)
                (fun id => AddPeer id (name_of (join_usernames s config st) id)
                                   true)
                s _ (roster_at_ok st (jc_channel config) Hc) Hnew) as H.
  f_equal; [exact H|].
  unfold delivered_to. simpl. rewrite String.eqb_refl. reflexivity.
Qed.

(** What a member hears when the joiner leaves again. *)
Lemma part_after_join_heard st s config m :
  consistent st -> has_own s (sockets st) = true ->
  join_accepted st s config ->
  member st m (jc_channel config) ->
  delivered_to m (emitted (part s (jc_channel config)
                                (final (join s config st))))
  = [RemovePeer s].
Proof.
  intros Hc Hs Ha Hm.
  pose proof (not_on_roster_before_join st s config Hc Ha) as Hnew.
  apply member_roster_at in Hm.
  assert (Hne : m <> s) by (intros ->; congruence).
  assert (Hmem : has_own (jc_channel config)
                   (socket_channels (final (join s config st)) s) = true).
  { rewrite (join_socket_channels s config st s Ha), String.eqb_refl.
    rewrite has_own_set. now rewrite String.eqb_refl. }
  destruct (part_member s (jc_channel config) _
              (join_consistent s config st Hc Hs) Hmem)
    as (r & Hr & _ & ->).
  rewrite (join_channels s config st _ Ha), String.eqb_refl in Hr.
  inversion Hr; subst r. cbn [emitted done].
  rewrite (delete_set_new _ _ _ Hnew). unfold farewell.
  rewrite (delivered_pairwise (RemovePeer s) RemovePeer s m _
             (roster_at_ok st (jc_channel config) Hc) Hne).
  now rewrite Hm.
Qed.

(** X19.  The handshake of a join has one initiator per pair.  When the
    hub accepts a join of a connected socket, the client of every member
    that does not know the joiner yet, fed what the hub sent it, files the
    joiner in its table with a connection of its own and asks for no
    offer; the client of the joiner, knowing none of the members, fed what
    the hub sent it, files exactly the members and asks for exactly one
    offer per member, in roster order, each on a fresh connection.  Table,
    connections and list of both clients agree afterwards. *)
Theorem join_handshake_has_one_initiator
        (st : state) (s : sid) (config : join_config) :
  consistent st -> has_own s (sockets st) = true ->
  join_accepted st s config ->
  (forall m am,
     member st m (jc_channel config) -> synced am ->
     has_own s (peers (core am)) = false ->
     snd (receive_all (delivered_to m (emitted (join s config st))) am) = []
     /\ own s (peers (core (fst (receive_all
                                   (delivered_to m
                                      (emitted (join s config st))) am))))
        = Some (List.length (connections (core am)))
     /\ synced (fst (receive_all (delivered_to m
                                    (emitted (join s config st))) am)))
  /\ (forall a,
        synced a ->
        (forall m, member st m (jc_channel config) ->
                   has_own m (peers (core a)) = false) ->
        snd (receive_all (delivered_to s (emitted (join s config st))) a)
        = offers (List.length (connections (core a)))
                 (keys (roster_at (jc_channel config) (channels st)))
        /\ (forall x,
              has_own x
                (peers (core (fst (receive_all
                                     (delivered_to s
                                        (emitted (join s config st))) a))))
              = true
              <-> member st x (jc_channel config)
                  \/ has_own x (peers (core a)) = true)
        /\ synced (fst (receive_all (delivered_to s
                                       (emitted (join s config st))) a))).
Proof.
  intros Hc Hs Ha. split.
  - intros m am Hm Hsync Hno.
    destruct (join_heard_by_member st s config m Hc Ha Hm) as [_ ->].
    set (n := name_of (join_usernames s config st) s).
    set (cfg := mkAddPeer s (wire_name n) false).
    assert (G : JS.get (peer_id cfg) (peers (core am)) = JS.Undefined)
      by (apply unknown_valid_peer;
          [exact (connected_valid st Hc s Hs) | exact Hno]).
    destruct (receive_all_cons (AddPeer s n false) [] am) as [-> ->].
    cbn [receive receive_all fst snd]. fold cfg.
    rewrite (addPeer_new_requests cfg am G).
    destruct (addPeer_new cfg am G) as [u E].
    split; [reflexivity|]. split; [|now apply synced_addPeer].
    rewrite E. cbn [peers]. apply own_set_same.
  - intros a Hsync Hnone.
    destruct (join_heard_by_joiner st s config Hc Ha) as [users ->].
    set (nm := name_of (join_usernames s config st)).
    set (ids := keys (roster_at (jc_channel config) (channels st))).
    assert (Hids : forall x, In x ids <-> member st x (jc_channel config)).
    { intros x. unfold ids. now rewrite in_keys, member_roster_at. }
    destruct (receive_all_app (map (fun id => AddPeer id (nm id) true) ids)
                [UserList users] a) as [-> ->].
    cbn [receive_all receive fst snd]. rewrite app_nil_r.
    destruct (receive_introductions nm ids a) as (I1 & I2 & I3).
    + exact (proj1 (roster_at_ok st (jc_channel config) Hc)).
    + exact Hsync.
    + intros m Hm. apply Hids in Hm. apply unknown_valid_peer.
      * exact (member_valid st m _ Hc Hm).
      * now apply Hnone.
    + split; [exact I1|]. split; [|exact I2].
      intros x. now rewrite I3, Hids.
Qed.

Lemma join_handshake_has_one_initiator_witness :
  snd (receive_all
         (delivered_to alice
            (emitted (join bob (mkJoin "room1" None) alice_in_room)))
         in_room) = []
  /\ snd (receive_all
            (delivered_to bob
               (emitted (join bob (mkJoin "room1" None) alice_in_room)))
            in_room) = [CreateOffer 0 alice].
Proof.
  pose proof (join_handshake_has_one_initiator alice_in_room bob
                (mkJoin "room1" None)
                (reachable_consistent _ alice_in_room_reachable)
                eq_refl (conj eq_refl eq_refl)) as [Hmember Hjoiner].
  split.
  - apply (Hmember alice in_room).
    + exists [(alice, alice)]. split; reflexivity.
    + exact synced_in_room.
    + reflexivity.
  - apply (Hjoiner in_room).
    + exact synced_in_room.
    + reflexivity.
Defined.

(** X20.  A visit leaves the members as they were.  When a connected
    socket joins a channel and leaves it again, a member hears exactly one
    [addPeer] without a request for an offer and then one [removePeer];
    its client, if it did not know the visitor, asks the media engine for
    nothing and ends with the table of peers, the peer list and the local
    stream it had, and one more connection in the store, made for the
    visitor and closed. *)
Theorem visit_leaves_members_as_they_were
        (st : state) (s : sid) (config : join_config) (m : sid) (am : app) :
  consistent st -> has_own s (sockets st) = true ->
  join_accepted st s config ->
  member st m (jc_channel config) ->
  synced am -> has_own s (peers (core am)) = false ->
  delivered_to m (emitted (join s config st))
  ++ delivered_to m (emitted (part s (jc_channel config)
                                   (final (join s config st))))
  = [AddPeer s (name_of (join_usernames s config st) s) false; RemovePeer s]
  /\ snd (receive_all
            [AddPeer s (name_of (join_usernames s config st) s) false;
             RemovePeer s] am) = []
  /\ exists c,
       core (fst (receive_all
                    [AddPeer s (name_of (join_usernames s config st) s) false;
                     RemovePeer s] am))
       = mkClient (peers (core am)) (connections (core am) ++ [c])
                  (localStream (core am)) (peersList (core am))
       /\ pc_peer c = s /\ pc_closed c = true.
Proof.
  intros Hc Hs Ha Hm Hsync Hno.
  destruct (join_heard_by_member st s config m Hc Ha Hm) as [_ ->].
  rewrite (part_after_join_heard st s config m Hc Hs Ha Hm).
  split; [reflexivity|].
  set (n := name_of (join_usernames s config st) s).
  set (cfg := mkAddPeer s (wire_name n) false).
  assert (G : JS.get (peer_id cfg) (peers (core am)) = JS.Undefined)
    by (apply unknown_valid_peer;
        [exact (connected_valid st Hc s Hs) | exact Hno]).
  destruct (receive_all_cons (AddPeer s n false) [RemovePeer s] am)
    as [-> ->].
  destruct (receive_all_cons (RemovePeer s) []
              (fst (receive (AddPeer s n false) am))) as [-> ->].
  cbn [receive receive_all fst snd]. fold cfg.
  rewrite (addPeer_new_requests cfg am G).
  destruct (add_remove_core cfg am Hsync G) as (_ & c & E & Hp & Hcl).
  split; [reflexivity|]. exists c. auto.
Qed.

Lemma visit_leaves_members_as_they_were_witness :
  peersList
    (core (fst (receive_all
                  [AddPeer bob (name_of (usernames alice_in_room) bob) false;
                   RemovePeer bob] in_room)))
  = [Placeholder].
Proof.
  destruct (visit_leaves_members_as_they_were alice_in_room bob
              (mkJoin "room1" None) alice in_room
              (reachable_consistent _ alice_in_room_reachable)
              eq_refl (conj eq_refl eq_refl)
              (ex_intro _ [(alice, alice)] (conj eq_refl eq_refl))
              synced_in_room eq_refl) as (_ & _ & c & E & _).
  exact (f_equal peersList E).
Defined.


(** What a member hears when a socket leaves a channel. *)
Lemma part_heard_by_member st s c m :
  consistent st -> has_own c (socket_channels st s) = true ->
  member st m c -> m <> s ->
  delivered_to m (emitted (part s c st)) = [RemovePeer s].
Proof.
  intros Hc Hmem (r' & Hr' & Hm) Hne.
  destruct (part_member s c st Hc Hmem) as (r & Hr & _ & ->).
  rewrite Hr in Hr'. inversion Hr'; subst r'. cbn [emitted done].
  unfold farewell.
  rewrite (delivered_pairwise (RemovePeer s) RemovePeer s m _
             (roster_ok_delete s r (roster_ok_consistent st c r Hc Hr)) Hne).
  rewrite has_own_delete, Hm.
  apply String.eqb_neq in Hne. now rewrite Hne.
Qed.

(** X21.  Leaving the room, end to end.  When the user of a connected
    client that is in one channel leaves the room, the hub, handling what
    [leaveRoom] sends, ends in the state of a plain disconnect of that
    socket, and every other member of the channel hears exactly one
    [removePeer] naming it.  The client of such a member, holding a
    connection for the leaver, then drops the leaver from its table and
    closes that connection; its table, connections and list still
    agree. *)
Theorem leaving_is_seen_by_the_members
        (st : state) (s : sid) (c : string) (a : app)
        (m : sid) (am : app) (pc : pc_ref) :
  consistent st -> has_own s (sockets st) = true ->
  keys (socket_channels st s) = [c] ->
  signalingSocket a = true -> currentChannel a = Some c ->
  member st m c -> m <> s ->
  synced am -> own s (peers (core am)) = Some pc ->
  fst (serve s (snd (leaveRoom a)) st) = final (disconnect s st)
  /\ delivered_to m (snd (serve s (snd (leaveRoom a)) st)) = [RemovePeer s]
  /\ has_own s (peers (core (fst (receive_all [RemovePeer s] am)))) = false
  /\ (exists cn,
        nth_error (connections (core (fst (receive_all [RemovePeer s] am))))
                  pc = Some cn
        /\ pc_peer cn = s /\ pc_closed cn = true)
  /\ synced (fst (receive_all [RemovePeer s] am)).
Proof.
  intros Hc Hs Hkeys Hsock Hchan Hm Hne Hsync Hpc.
  destruct (disconnect_after_last_part st s c Hc Hs Hkeys)
    as (_ & E2 & E).
  assert (Hmem : has_own c (socket_channels st s) = true)
    by (apply in_keys; rewrite Hkeys; now left).
  assert (Hsent : snd (leaveRoom a) = [ReqPart c; ReqDisconnect]).
  { unfold leaveRoom. cbn [snd]. now rewrite Hsock, Hchan. }
  rewrite Hsent. cbn [serve handle]. rewrite E2. cbn [final emitted done].
  cbn [fst snd]. rewrite E. cbn [final done].
  split; [reflexivity|]. split.
  { rewrite !app_nil_r.
    exact (part_heard_by_member st s c m Hc Hmem Hm Hne). }
  destruct (receive_all_cons (RemovePeer s) [] am) as [-> _].
  cbn [receive receive_all fst].
  assert (Hinh : inherited s = false).
  { apply (plain_peers am Hsync). apply has_own_true. eauto. }
  destruct (handleRemovePeer_plain s am Hinh) as [_ Ecore].
  rewrite Hpc in Ecore. rewrite Ecore. cbn [peers connections].
  split; [|split].
  - rewrite has_own_delete. now rewrite String.eqb_refl.
  - destruct (session_open am Hsync s pc Hpc) as (c0 & Hc0 & Hp0 & _).
    rewrite (close_at_same pc _ c0 Hc0). eexists. split; [reflexivity|].
    simpl. auto.
  - now apply synced_handleRemovePeer.
Qed.

Lemma leaving_is_seen_by_the_members_witness :
  delivered_to alice (snd (serve bob (snd (leaveRoom in_room)) both_in_room))
  = [RemovePeer bob]
  /\ has_own bob
       (peers (core (fst (receive_all [RemovePeer bob]
                            (fst (addPeer (mkAddPeer bob "" false)
                                          in_room)))))) = false.
Proof.
  assert (Hcfg : synced (fst (addPeer (mkAddPeer bob "" false) in_room)))
    by (apply synced_addPeer; exact synced_in_room).
  destruct (leaving_is_seen_by_the_members both_in_room bob "room1" in_room
              alice (fst (addPeer (mkAddPeer bob "" false) in_room)) 0
              (reachable_consistent _ both_in_room_reachable)
              eq_refl eq_refl eq_refl eq_refl
              (ex_intro _ [(alice, alice); (bob, bob)]
                        (conj eq_refl eq_refl))
              ltac:(discriminate) Hcfg eq_refl)
    as (_ & Hheard & Hgone & _).
  exact (conj Hheard Hgone).
Defined.

End RoomFacts.
